(** * KPI change analyzer: driver attribution and change detection

    A shallow embedding of [analysis/drivers.py] and [analysis/trend.py]
    (with the part of [analysis/json_builder.py] that consumes the driver
    list).  Floating-point numbers are modelled as exact rationals [Q];
    a pandas table is a list of named columns; an exception is a value of
    [exn]; the in-place column assignments of the binner are modelled by
    returning the final contents of the caller's two tables. *)

From Stdlib Require Import String Ascii List ZArith QArith Qabs Qround.
From Stdlib Require Import Lia Lqa Bool DecimalString Permutation Sorted.
Import ListNotations.

Local Open Scope Q_scope.

(** ** Values, tables and exceptions *)

(** One cell of a table: a number, a string, or a missing value. *)
Inductive cell :=
| Num (q : Q)
| Str (s : string)
| NaN.

(** A [pd.DataFrame]: its columns, in column order, each with its values. *)
Definition DataFrame := list (string * list cell).

Inductive exn :=
| KeyError (k : string)
| IndexError
| TypeError
| ValueError (msg : string).

Inductive result (A : Type) :=
| Ok (a : A)
| Raise (e : exn).
Arguments Ok {A} a.
Arguments Raise {A} e.

Definition bind {A B} (c : result A) (k : A -> result B) : result B :=
  match c with
  | Ok a => k a
  | Raise e => Raise e
  end.

Notation "x <- c ;; k" := (bind c (fun x => k))
  (at level 61, c at next level, right associativity).

Definition Qltb (x y : Q) : bool := negb (Qle_bool y x).

Definition Qsum (l : list Q) : Q := fold_right Qplus 0 l.

Definition Qnat (n : nat) : Q := inject_Z (Z.of_nat n).

(** Equality of two cells as pandas groups them: numbers by value. *)
Definition cell_eqb (a b : cell) : bool :=
  match a, b with
  | Num x, Num y => Qeq_bool x y
  | Str s, Str t => String.eqb s t
  | NaN, NaN => true
  | _, _ => false
  end.

(** Sort order of keys: numbers by value, strings lexicographically,
    missing values last. *)
Definition cell_leb (a b : cell) : bool :=
  match a, b with
  | Num x, Num y => Qle_bool x y
  | Num _, _ => true
  | Str _, Num _ => false
  | Str s, Str t => String.leb s t
  | Str _, NaN => true
  | NaN, NaN => true
  | NaN, _ => false
  end.

Section Sorting.
Context {A : Type} (leb : A -> A -> bool).

Fixpoint insert_by (x : A) (l : list A) : list A :=
  match l with
  | [] => [x]
  | y :: r => if leb x y then x :: l else y :: insert_by x r
  end.

Definition sort_by (l : list A) : list A :=
  fold_right insert_by [] l.
End Sorting.

Definition mem_string (s : string) (l : list string) : bool :=
  existsb (String.eqb s) l.

Definition mem_cell (c : cell) (l : list cell) : bool :=
  existsb (cell_eqb c) l.

(** [df.columns] *)
Definition columns (df : DataFrame) : list string := map fst df.

(** [df[name]]: the column, or nothing when the name is not a column. *)
Fixpoint get_col (name : string) (df : DataFrame) : option (list cell) :=
  match df with
  | [] => None
  | (n, c) :: r => if String.eqb n name then Some c else get_col name r
  end.

(** [df[name] = vals]: overwrite the column, or append it as the last one. *)
Fixpoint set_col (name : string) (vals : list cell) (df : DataFrame)
  : DataFrame :=
  match df with
  | [] => [(name, vals)]
  | (n, c) :: r =>
      if String.eqb n name then (n, vals) :: r
      else (n, c) :: set_col name vals r
  end.

(** [len(df)]: the number of rows. *)
Definition len (df : DataFrame) : nat :=
  match df with
  | [] => 0%nat
  | (_, c) :: _ => length c
  end.

(** [df.empty] *)
Definition empty (df : DataFrame) : bool := Nat.eqb (len df) 0.

(** The distinct non-missing values of a column, in order of appearance. *)
Fixpoint distinct (l : list cell) (seen : list cell) : list cell :=
  match l with
  | [] => []
  | NaN :: r => distinct r seen
  | c :: r =>
      if mem_cell c seen then distinct r seen
      else c :: distinct r (c :: seen)
  end.

(** [s.nunique(dropna=True)] *)
Definition nunique (s : list cell) : nat := length (distinct s []).

(** The numbers of a column, missing values skipped. *)
Definition numeric_values (s : list cell) : list Q :=
  flat_map (fun c => match c with Num q => [q] | _ => [] end) s.

(** [pd.api.types.is_numeric_dtype(s)]: no string in the column. *)
Definition is_numeric_dtype (s : list cell) : bool :=
  forallb (fun c => match c with Str _ => false | _ => true end) s.

(** ** [analysis/drivers.py] *)

Module Drivers.

(** [is_continuous_series]: numeric, and more distinct values than
    [max_categories]. *)
Definition is_continuous_series (s : list cell) (max_categories : nat)
  : bool :=
  if negb (is_numeric_dtype s) then false
  else Nat.ltb max_categories (nunique s).

(** [np.linspace(0, 1, n_bins + 1)] *)
Definition linspace01 (n_bins : nat) : list Q :=
  map (fun i => Qnat i / Qnat n_bins) (seq 0 (S n_bins)).

(** [Series.quantile(q)] with linear interpolation, on the numbers [vs]. *)
Definition quantile (vs : list Q) (q : Q) : Q :=
  let sorted := sort_by Qle_bool vs in
  let pos := q * Qnat (length sorted - 1) in
  let lo := Qfloor pos in
  let a := nth (Z.to_nat lo) sorted 0 in
  let b := nth (S (Z.to_nat lo)) sorted a in
  a + (pos - inject_Z lo) * (b - a).

Fixpoint dedupQ (l : list Q) : list Q :=
  match l with
  | [] => []
  | x :: r => if existsb (Qeq_bool x) r then dedupQ r else x :: dedupQ r
  end.

(** [np.unique]: sorted, without duplicates. *)
Definition np_unique (l : list Q) : list Q := sort_by Qle_bool (dedupQ l).

(** The edges computed once, on the combined column (lines 34-37). *)
Definition bin_edges (combined : list cell) (n_bins : nat) : list Q :=
  np_unique (map (quantile (numeric_values combined)) (linspace01 n_bins)).

Definition string_of_nat (n : nat) : string :=
  NilEmpty.string_of_uint (Nat.to_uint n).

(** [[f"{dim}_bin_{i}" for i in range(len(bin_edges) - 1)]] *)
Definition bin_labels (dim : string) (edges : list Q) : list string :=
  map (fun i => (dim ++ "_bin_" ++ string_of_nat i)%string)
      (seq 0 (length edges - 1)).

(** [bins.searchsorted(x, side="left")]: how many edges are below [x]. *)
Definition searchsorted_left (bins : list Q) (x : Q) : nat :=
  length (filter (fun e => Qltb e x) bins).

(** [pd.cut(col, bins=bins, labels=labels, include_lowest=True)] on one
    cell: right-closed intervals, the first one closed on both sides, a
    missing value outside the edges. *)
Definition cut (bins : list Q) (labels : list string) (c : cell) : cell :=
  match c with
  | Num x =>
      let id := if Qeq_bool x (hd 0 bins) then 1%nat
                else searchsorted_left bins x in
      if Nat.eqb id 0 || Nat.eqb id (length bins) then NaN
      else match nth_error labels (id - 1) with
           | Some l => Str l
           | None => NaN
           end
  | _ => NaN
  end.

Definition binned_name (dim : string) : string := (dim ++ "_binned")%string.

(** The three "no binning" exits: the raw column is copied to
    [<dim>_binned], in both of the caller's tables. *)
Definition unbinned (current previous : DataFrame) (dim : string)
  (cc pc : list cell) : DataFrame * DataFrame :=
  (set_col (binned_name dim) cc current,
   set_col (binned_name dim) pc previous).

(** [bin_continuous_dimension].  The function assigns the new column to
    the two tables it was given and returns those same two objects: the
    pair below is both the returned value and the contents of the
    caller's [current] and [previous] after the call.  A non-numeric
    column makes [quantile] raise, which the [except] turns into the
    fallback. *)
Definition bin_continuous_dimension (current previous : DataFrame)
  (dim : string) (n_bins min_unique : nat)
  : result (DataFrame * DataFrame) :=
  match get_col dim current, get_col dim previous with
  | Some cc, Some pc =>
      let combined := cc ++ pc in
      if Nat.ltb (nunique combined) min_unique then
        Ok (unbinned current previous dim cc pc)
      else if negb (is_numeric_dtype combined) then
        Ok (unbinned current previous dim cc pc)
      else
        let edges := bin_edges combined n_bins in
        if Nat.leb (length edges) 1 then
          Ok (unbinned current previous dim cc pc)
        else
          let labels := bin_labels dim edges in
          Ok (set_col (binned_name dim) (map (cut edges labels) cc) current,
              set_col (binned_name dim) (map (cut edges labels) pc) previous)
  | _, _ => Raise (KeyError dim)
  end.

(** *** Aggregation and merge *)

(** One row of [groupby(key)[metric].agg(volume="sum", mean="mean")]. *)
Record AggRow := mkAgg {
  agg_key : cell;
  agg_volume : Q;
  agg_mean : option Q
}.

(** The aggregate after [reset_index()]: its column names and its rows,
    one per distinct non-missing key, sorted by key. *)
Record AggFrame := mkAggFrame {
  agg_columns : list string;
  agg_rows : list AggRow
}.

Definition group_values (rows : list (cell * cell)) (k : cell) : list Q :=
  numeric_values (map snd (filter (fun r => cell_eqb (fst r) k) rows)).

Definition agg_row (rows : list (cell * cell)) (k : cell) : AggRow :=
  let xs := group_values rows k in
  mkAgg k (Qsum xs)
        (match xs with
         | [] => None
         | _ => Some (Qsum xs / Qnat (length xs))
         end).

Definition groupby_agg (df : DataFrame) (key_name metric_col : string)
  (vol_name mean_name : string) : result AggFrame :=
  match get_col key_name df with
  | None => Raise (KeyError key_name)
  | Some keys =>
      match get_col metric_col df with
      | None => Raise (KeyError metric_col)
      | Some vals =>
          let rows := combine keys vals in
          Ok (mkAggFrame [key_name; vol_name; mean_name]
                (map (agg_row rows) (sort_by cell_leb (distinct keys []))))
      end
  end.

(** One row of the merged table, after the two [fillna] (lines 164-166). *)
Record Merged := mkMerged {
  key : cell;
  volume_curr : Q;
  mean_curr : Q;
  volume_prev : Q;
  mean_prev : Q
}.

Definition find_agg (k : cell) (rows : list AggRow) : option AggRow :=
  find (fun r => cell_eqb (agg_key r) k) rows.

Definition fillna0 (x : option Q) : Q :=
  match x with
  | Some q => q
  | None => 0
  end.

Definition merged_row (l r : list AggRow) (k : cell) : Merged :=
  mkMerged k
    (fillna0 (option_map agg_volume (find_agg k l)))
    (fillna0 (match find_agg k l with Some a => agg_mean a | None => None end))
    (fillna0 (option_map agg_volume (find_agg k r)))
    (fillna0 (match find_agg k r with Some a => agg_mean a | None => None end)).

(** [pd.merge(curr_agg, prev_agg, on=on, how="outer")] followed by the two
    [fillna]: the key [on] must be a column of both frames; the rows are
    the union of the keys, sorted. *)
Definition merge_outer (l r : AggFrame) (on : string)
  : result (list Merged) :=
  if mem_string on (agg_columns l) && mem_string on (agg_columns r) then
    let keys := map agg_key (agg_rows l) ++ map agg_key (agg_rows r) in
    Ok (map (merged_row (agg_rows l) (agg_rows r))
            (sort_by cell_leb (distinct keys [])))
  else Raise (KeyError on).

(** *** Derived columns (lines 169-176, 198) *)

Definition contrib_curr (m : Merged) : Q := volume_curr m * mean_curr m.
Definition contrib_prev (m : Merged) : Q := volume_prev m * mean_prev m.
Definition contrib_delta (m : Merged) : Q := contrib_curr m - contrib_prev m.

Definition volume_share_curr (total_curr_volume : nat) (eps : Q)
  (m : Merged) : Q :=
  volume_curr m / (Qnat total_curr_volume + eps).

Definition volume_share_prev (total_prev_volume : nat) (eps : Q)
  (m : Merged) : Q :=
  volume_prev m / (Qnat total_prev_volume + eps).

(** The volume filter (lines 178-181). *)
Definition volume_keep (total_curr_volume total_prev_volume : nat)
  (min_volume_share eps : Q) (m : Merged) : bool :=
  Qle_bool min_volume_share (volume_share_curr total_curr_volume eps m)
  || Qle_bool min_volume_share (volume_share_prev total_prev_volume eps m).

(** The normalisation denominator (lines 194-196). *)
Definition denom (total_curr_contrib total_prev_contrib eps : Q) : Q :=
  let total_contrib_delta := total_curr_contrib - total_prev_contrib in
  if Qltb eps (Qabs total_contrib_delta) then total_contrib_delta
  else Qabs total_curr_contrib + Qabs total_prev_contrib + eps.

Definition share_of_change (d : Q) (m : Merged) : Q := contrib_delta m / d.

(** The contribution filter (lines 201-203). *)
Definition contrib_keep (d min_abs_contrib_share : Q) (m : Merged) : bool :=
  Qle_bool min_abs_contrib_share (Qabs (share_of_change d m)).

Definition score_to_label (score : Q) : string :=
  if Qltb score (2 # 100) then "minor"%string
  else if Qltb score (1 # 10) then "moderate"%string
  else "strong"%string.

(** *** Output records *)

(** One dictionary of [merged_sorted.to_dict(orient="records")]. *)
Record DriverRecord := mkRecord {
  d_category : cell;
  d_volume_curr : Q;
  d_mean_curr : Q;
  d_volume_prev : Q;
  d_mean_prev : Q;
  d_contrib_curr : Q;
  d_contrib_prev : Q;
  d_contrib_delta : Q;
  d_volume_share_curr : Q;
  d_volume_share_prev : Q;
  d_contrib_share_of_change : Q;
  d_effect_score : Q;
  d_change_label : string;
  d_direction : string
}.

(** The dictionary appended to [results] for one dimension.  The key
    ["num_drivers"] is present only in the dictionary built at lines
    254-261, hence the option. *)
Record DriverResult := mkResult {
  dimension : string;
  drivers : list DriverRecord;
  top_positive : list DriverRecord;
  top_negative : list DriverRecord;
  num_drivers : option nat
}.

Definition to_record (total_curr_volume total_prev_volume : nat)
  (eps d : Q) (m : Merged) : DriverRecord :=
  let share := share_of_change d m in
  mkRecord (key m)
    (volume_curr m) (mean_curr m) (volume_prev m) (mean_prev m)
    (contrib_curr m) (contrib_prev m) (contrib_delta m)
    (volume_share_curr total_curr_volume eps m)
    (volume_share_prev total_prev_volume eps m)
    share (Qabs share) (score_to_label (Qabs share))
    (if Qle_bool 0 (contrib_delta m) then "positive"%string
     else "negative"%string).

(** The dictionary of the two early exits (lines 184-189 and 206-211). *)
Definition no_drivers (dim : string) : DriverResult :=
  mkResult dim [] [] [] None.

(** [sort_values("effect_score", ascending=False)]; rows of equal score
    keep their order here. *)
Definition sort_by_effect (l : list DriverRecord) : list DriverRecord :=
  sort_by (fun a b => Qle_bool (d_effect_score b) (d_effect_score a)) l.

(** Steps 3 to 8 for one dimension, from the merged table on. *)
Definition rank_drivers (dim : string)
  (total_curr_volume total_prev_volume : nat)
  (total_curr_contrib total_prev_contrib : Q)
  (min_volume_share min_abs_contrib_share eps : Q)
  (merged : list Merged) : DriverResult :=
  let merged1 :=
    filter (volume_keep total_curr_volume total_prev_volume
              min_volume_share eps) merged in
  match merged1 with
  | [] => no_drivers dim
  | _ =>
      let d := denom total_curr_contrib total_prev_contrib eps in
      let merged2 := filter (contrib_keep d min_abs_contrib_share) merged1 in
      match merged2 with
      | [] => no_drivers dim
      | _ =>
          let records :=
            sort_by_effect
              (map (to_record total_curr_volume total_prev_volume eps d)
                   merged2) in
          mkResult dim records
            (firstn 3 (filter (fun r => Qltb 0 (d_contrib_delta r)) records))
            (firstn 3 (filter (fun r => Qltb (d_contrib_delta r) 0) records))
            (Some (length records))
      end
  end.

(** What one iteration of the loop does with its dimension. *)
Inductive outcome :=
| Skipped
| Appended (r : DriverResult)
| Raised (e : exn).

(** The two aggregates and their merge (lines 151-166); the tables read
    are the caller's, after the binner's assignment if it ran. *)
Definition aggregate_and_merge (current previous : DataFrame)
  (metric_col dim dim_for_groupby : string) : result (list Merged) :=
  curr_agg <- groupby_agg current dim_for_groupby metric_col
                "volume_curr" "mean_curr" ;;
  prev_agg <- groupby_agg previous dim_for_groupby metric_col
                "volume_prev" "mean_prev" ;;
  merge_outer curr_agg prev_agg dim.

(** The two [continue] tests on distinct values (lines 130 and 136). *)
Definition constant_dimension (cc pc : list cell) : bool :=
  (Nat.leb (nunique cc) 1 && Nat.leb (nunique pc) 1)
  || Nat.leb (nunique (cc ++ pc)) 1.

(** The body of the loop for [dim]: the outcome, and the contents of the
    caller's two tables afterwards. *)
Definition process_dimension (current previous : DataFrame)
  (metric_col dim : string)
  (total_curr_volume total_prev_volume : nat)
  (total_curr_contrib total_prev_contrib : Q)
  (min_volume_share min_abs_contrib_share eps : Q)
  : outcome * (DataFrame * DataFrame) :=
  match get_col dim current, get_col dim previous with
  | Some cc, Some pc =>
      if constant_dimension cc pc then (Skipped, (current, previous))
      else
        let series_full := cc ++ pc in
        let '(binning, dim_for_groupby) :=
          if is_continuous_series series_full 20 then
            (bin_continuous_dimension current previous dim 10 10,
             binned_name dim)
          else (Ok (current, previous), dim) in
        match binning with
        | Raise e => (Raised e, (current, previous))
        | Ok (current', previous') =>
            match aggregate_and_merge current' previous'
                    metric_col dim dim_for_groupby with
            | Raise e => (Raised e, (current', previous'))
            | Ok merged =>
                (Appended
                   (rank_drivers dim total_curr_volume total_prev_volume
                      total_curr_contrib total_prev_contrib
                      min_volume_share min_abs_contrib_share eps merged),
                 (current', previous'))
            end
        end
  | _, _ => (Skipped, (current, previous))
  end.

(** [for dim in dimensions: ...], threading [results] and the two tables. *)
Fixpoint process_dimensions (dims : list string)
  (current previous : DataFrame) (metric_col : string)
  (total_curr_volume total_prev_volume : nat)
  (total_curr_contrib total_prev_contrib : Q)
  (min_volume_share min_abs_contrib_share eps : Q)
  (results : list DriverResult)
  : result (list DriverResult) * (DataFrame * DataFrame) :=
  match dims with
  | [] => (Ok results, (current, previous))
  | dim :: rest =>
      match process_dimension current previous metric_col dim
              total_curr_volume total_prev_volume
              total_curr_contrib total_prev_contrib
              min_volume_share min_abs_contrib_share eps with
      | (Raised e, st) => (Raise e, st)
      | (Skipped, (c, p)) =>
          process_dimensions rest c p metric_col
            total_curr_volume total_prev_volume
            total_curr_contrib total_prev_contrib
            min_volume_share min_abs_contrib_share eps results
      | (Appended r, (c, p)) =>
          process_dimensions rest c p metric_col
            total_curr_volume total_prev_volume
            total_curr_contrib total_prev_contrib
            min_volume_share min_abs_contrib_share eps (results ++ [r])
      end
  end.

(** [float(df[metric_col].sum()) if metric_col in df.columns else 0.0] *)
Definition total_contrib (df : DataFrame) (metric_col : string) : result Q :=
  match get_col metric_col df with
  | None => Ok 0
  | Some c =>
      if is_numeric_dtype c then Ok (Qsum (numeric_values c))
      else Raise TypeError
  end.

Fixpoint nodup_string (l : list string) : list string :=
  match l with
  | [] => []
  | x :: r => if mem_string x r then nodup_string r else x :: nodup_string r
  end.

Definition default_min_volume_share : Q := 1 # 100.
Definition default_min_abs_contrib_share : Q := 1 # 100.
Definition default_eps : Q := 1 # 100000000.

Section SetOrder.
(** The order in which Python iterates over a [set] of strings: fixed by
    the interpreter's string hashing, not by the source. *)
Variable set_iter : list string -> list string.

(** Step 0: the dimensions inferred from the common columns. *)
Definition infer_dimensions (current previous : DataFrame)
  (metric_col : string) : list string :=
  let non_dim_cols := ["date"%string; metric_col; "metric_name"%string] in
  let common_cols :=
    set_iter (filter (fun c => mem_string c (columns previous))
                     (nodup_string (columns current))) in
  filter (fun col => negb (mem_string col non_dim_cols)) common_cols.

(** [calculate_drivers_effects]: what it returns or raises, and the
    contents of the caller's [current] and [previous] afterwards. *)
Definition calculate_drivers_effects (current previous : DataFrame)
  (metric_col : string) (dimensions : option (list string))
  (min_volume_share min_abs_contrib_share eps : Q)
  : result (list DriverResult) * (DataFrame * DataFrame) :=
  let dims :=
    match dimensions with
    | Some ds => ds
    | None => infer_dimensions current previous metric_col
    end in
  match total_contrib current metric_col with
  | Raise e => (Raise e, (current, previous))
  | Ok total_curr_contrib =>
      match total_contrib previous metric_col with
      | Raise e => (Raise e, (current, previous))
      | Ok total_prev_contrib =>
          process_dimensions dims current previous metric_col
            (len current) (len previous)
            total_curr_contrib total_prev_contrib
            min_volume_share min_abs_contrib_share eps []
      end
  end.
End SetOrder.

End Drivers.

(** ** [analysis/trend.py] *)

Module Trend.

(** The message of the [ValueError] raised on an empty period. *)
Definition no_data : string := "One of the comparison periods has no data".

(** The message used below for a metric cell that holds text. *)
Definition not_a_float : string := "could not convert string to float".

(** [np.argsort] of a key column, rows of equal key keeping their order. *)
Definition argsort (keys : list cell) : list nat :=
  map snd
      (sort_by (fun a b : cell * nat => cell_leb (fst a) (fst b))
               (combine keys (seq 0 (length keys)))).

(** [df.sort_values(by=by)] *)
Definition sort_values (df : DataFrame) (by_col : string)
  : result DataFrame :=
  match get_col by_col df with
  | None => Raise (KeyError by_col)
  | Some keys =>
      let order := argsort keys in
      Ok (map (fun nc : string * list cell =>
                 (fst nc, map (fun i => nth i (snd nc) NaN) order)) df)
  end.

Fixpoint as_floats (l : list cell) : result (list Q) :=
  match l with
  | [] => Ok []
  | Num q :: r => (qs <- as_floats r ;; Ok (q :: qs))
  | Str _ :: _ => Raise (ValueError not_a_float)
  | NaN :: _ => Raise TypeError
  end.

(** [df["metric_value"].astype(float)].  The metric column is free of
    missing values when the engine runs; a missing value is outside what
    this model computes and is reported as a [TypeError]. *)
Definition metric_series (df : DataFrame) : result (list Q) :=
  match get_col "metric_value" df with
  | None => Raise (KeyError "metric_value")
  | Some c => as_floats c
  end.

Definition mean (l : list Q) : Q := Qsum l / Qnat (length l).

(** [np.polyfit(np.arange(len(series)), series.values, 1)[0]]: the
    least-squares slope, in closed form. *)
Definition fit_slope (series : list Q) : Q :=
  if Nat.ltb (length series) 2 then 0
  else
    let n := Qnat (length series) in
    let x := map Qnat (seq 0 (length series)) in
    let sx := Qsum x in
    let sy := Qsum series in
    let sxy := Qsum (map (fun p => fst p * snd p) (combine x series)) in
    let sxx := Qsum (map (fun a => a * a) x) in
    (n * sxy - sx * sy) / (n * sxx - sx * sx).

(** [series.diff().dropna()] *)
Fixpoint diff (l : list Q) : list Q :=
  match l with
  | a :: ((b :: _) as r) => (b - a) :: diff r
  | _ => []
  end.

(** [np.sign] *)
Definition sign (x : Q) : Z :=
  if Qltb 0 x then 1%Z else if Qltb x 0 then (-1)%Z else 0%Z.

Definition count_true (l : list bool) : nat :=
  length (filter (fun b => b) l).

(** [round(x, n)]: to the nearest multiple of [10^-n], ties to even. *)
Definition round_half_even (x : Q) : Z :=
  let f := Qfloor x in
  match Qcompare (x - inject_Z f) (1 # 2) with
  | Lt => f
  | Gt => (f + 1)%Z
  | Eq => if Z.even f then f else (f + 1)%Z
  end.

Definition round (x : Q) (n : nat) : Q :=
  let scale := inject_Z (10 ^ Z.of_nat n) in
  inject_Z (round_half_even (x * scale)) / scale.

(** The four-way labelling of a score (lines 87-100). *)
Definition score_to_label (score : Q) : string :=
  if Qltb score (1 # 2) then "none"%string
  else if Qltb score 1 then "minor"%string
  else if Qltb score 2 then "moderate"%string
  else "strong"%string.

(** The dictionary returned by [detect_change_context].  A [None] in
    [relative_change_pct] is Python's [None]; a [None] in
    [trend_consistency] is the NaN that the mean of no differences gives. *)
Record ChangeContext := mkContext {
  current_value : Q;
  previous_value : Q;
  absolute_change : Q;
  relative_change_pct : option Q;
  previous_trend_slope : Q;
  current_trend_slope : Q;
  slope_delta : Q;
  level_score : Q;
  trend_score : Q;
  level_change_label : string;
  trend_change_label : string;
  slope_direction_changed : bool;
  trend_consistency : option Q;
  avg_volatility : Q;
  high_volatility : bool;
  any_change_detected : bool;
  trustworthy : bool
}.

Section Detect.
(** The floating-point square root behind [std]. *)
Variable sqrtQ : Q -> Q.

(** The sample standard deviation ([ddof=1]) of pandas. *)
Definition std (l : list Q) : Q :=
  let m := mean l in
  sqrtQ (Qsum (map (fun x => (x - m) * (x - m)) l)
         / Qnat (length l - 1)).

(** [series.rolling(w).std().dropna()]: one value per full window. *)
Definition rolling_std (l : list Q) (w : nat) : list Q :=
  map (fun i => std (firstn w (skipn i l))) (seq 0 (S (length l) - w)).

(** Steps 1 to 8, on the three metric series in time order. *)
Definition change_context (full_series current_series previous_series
  : list Q) : ChangeContext :=
  let current_mean := mean current_series in
  let previous_mean := mean previous_series in
  let level_delta := current_mean - previous_mean in
  let rel_change_pct :=
    if Qeq_bool previous_mean 0 then None
    else Some (level_delta / previous_mean * 100) in
  let previous_slope := fit_slope previous_series in
  let current_slope := fit_slope current_series in
  let slope_delta := current_slope - previous_slope in
  let diffs := diff full_series in
  let overall_delta_sign := sign level_delta in
  let trend_alignment :=
    if Z.eqb overall_delta_sign 0 then Some (1 # 2)
    else
      match diffs with
      | [] => None
      | _ =>
          Some (Qnat (count_true
                        (map (fun d => Z.eqb (sign d) overall_delta_sign)
                             diffs))
                / Qnat (length diffs))
      end in
  let window_size :=
    Nat.min (Nat.max 8 (length full_series / 10)) 20 in
  let avg_volatility :=
    if Nat.leb window_size (length full_series) then
      match rolling_std full_series window_size with
      | [] => 0
      | rs => mean rs
      end
    else if Nat.ltb 1 (length full_series) then std full_series
    else 0 in
  let eps := 1 # 100000000 in
  let effective_volatility :=
    if Qltb 0 avg_volatility then avg_volatility else eps in
  let level_score := Qabs level_delta / effective_volatility in
  let slope_score := Qabs slope_delta / (effective_volatility + eps) in
  let slope_direction_change :=
    negb (Z.eqb (sign current_slope) (sign previous_slope)) in
  let level_change_label := score_to_label level_score in
  let trend_change_label := score_to_label slope_score in
  let mean_abs_level :=
    match full_series with
    | [] => 0
    | _ => mean (map Qabs full_series)
    end in
  let high_volatility :=
    Qltb 0 mean_abs_level
    && Qltb ((1 # 2) * mean_abs_level) avg_volatility in
  let changed :=
    negb (String.eqb level_change_label "none")
    || negb (String.eqb trend_change_label "none") in
  let trustworthy :=
    changed
    && match trend_alignment with
       | Some a => Qltb (6 # 10) a
       | None => false
       end
    && negb high_volatility in
  let any_change_detected :=
    mem_string level_change_label
      ["minor"; "moderate"; "strong"]%string
    || mem_string trend_change_label
         ["minor"; "moderate"; "strong"]%string
    || slope_direction_change in
  mkContext
    (round current_mean 4) (round previous_mean 4) (round level_delta 4)
    (option_map (fun r => round r 2) rel_change_pct)
    (round previous_slope 6) (round current_slope 6) (round slope_delta 6)
    (round level_score 3) (round slope_score 3)
    level_change_label trend_change_label slope_direction_change
    (option_map (fun a => round a 2) trend_alignment)
    (round avg_volatility 4) high_volatility
    any_change_detected trustworthy.

(** [detect_change_context(full_df, current, previous)] *)
Definition detect_change_context (full_df current previous : DataFrame)
  : result ChangeContext :=
  if empty current || empty previous then Raise (ValueError no_data)
  else
    match columns full_df with
    | [] => Raise IndexError
    | time_col :: _ =>
        full_sorted <- sort_values full_df time_col ;;
        current_sorted <- sort_values current time_col ;;
        previous_sorted <- sort_values previous time_col ;;
        full_series <- metric_series full_sorted ;;
        current_series <- metric_series current_sorted ;;
        previous_series <- metric_series previous_sorted ;;
        Ok (change_context full_series current_series previous_series)
    end.
End Detect.

End Trend.

(** ** [analysis/json_builder.py]: the per-dimension summaries *)

Module JsonBuilder.

(** One entry of [dimension_summaries] (lines 69-76). *)
Record DimensionSummary := mkSummary {
  s_dimension : string;
  s_num_drivers : nat;
  s_top_positive : list Drivers.DriverRecord;
  s_top_negative : list Drivers.DriverRecord
}.

(** [dim_info.get("num_drivers", len(dim_info.get("drivers", [])))] and
    the three other [get]s of the loop body. *)
Definition dimension_summary (dim_info : Drivers.DriverResult)
  : DimensionSummary :=
  mkSummary (Drivers.dimension dim_info)
    (match Drivers.num_drivers dim_info with
     | Some n => n
     | None => length (Drivers.drivers dim_info)
     end)
    (Drivers.top_positive dim_info)
    (Drivers.top_negative dim_info).

(** The [by_dimension] list of the output document. *)
Definition by_dimension (drivers : list Drivers.DriverResult)
  : list DimensionSummary :=
  map dimension_summary drivers.

End JsonBuilder.

(** ** Conditions used in the statements *)

(** The branch of [bin_continuous_dimension] that really bins: enough
    distinct values, a numeric column, and at least two distinct edges. *)
Definition bins_applied (cc pc : list cell) (n_bins min_unique : nat)
  : bool :=
  negb (Nat.ltb (nunique (cc ++ pc)) min_unique)
  && is_numeric_dtype (cc ++ pc)
  && negb (Nat.leb (length (Drivers.bin_edges (cc ++ pc) n_bins)) 1).

(** The volume filter in the words of the specification: the share is
    the category's volume over the total volume of the period, the metric
    summed over the whole period. *)
Definition volume_keep_spec (total_curr_contrib total_prev_contrib : Q)
  (min_volume_share eps : Q) (m : Drivers.Merged) : bool :=
  Qle_bool min_volume_share
    (Drivers.volume_curr m / (total_curr_contrib + eps))
  || Qle_bool min_volume_share
       (Drivers.volume_prev m / (total_prev_contrib + eps)).

Definition all_num (c : list cell) : bool :=
  forallb (fun x => match x with Num _ => true | _ => false end) c.

(** Every column has the length of the table. *)
Definition rectangular (df : DataFrame) : bool :=
  forallb (fun nc : string * list cell =>
             Nat.eqb (length (snd nc)) (len df)) df.

(** A table as ingestion delivers it: rectangular, with the time column
    and a numeric [metric_value] column without missing values. *)
Definition table_ok (time_col : string) (df : DataFrame) : bool :=
  rectangular df
  && match get_col time_col df with
     | Some _ => true
     | None => false
     end
  && match get_col "metric_value" df with
     | Some c => all_num c
     | None => false
     end.

(** The three inputs of the change detector share the time column, the
    first column of the full table. *)
Definition schema_ok (full_df current previous : DataFrame) : bool :=
  match columns full_df with
  | [] => false
  | time_col :: _ =>
      table_ok time_col full_df
      && table_ok time_col current
      && table_ok time_col previous
  end.

(** Whether the loop body appends a result for [dim]. *)
Definition yields_result (current previous : DataFrame)
  (metric_col : string) (tcv tpv : nat) (tcc tpc mvs macs eps : Q)
  (dim : string) : bool :=
  match fst (Drivers.process_dimension current previous metric_col dim
               tcv tpv tcc tpc mvs macs eps) with
  | Drivers.Appended _ => true
  | _ => false
  end.

(** ** Sample tables *)

Module Samples.
Local Open Scope string_scope.

Definition nums (from n : nat) : list cell :=
  map (fun i => Num (Qnat i)) (seq from n).

(** Two regions, one row each per period. *)
Definition regions (m_a m_b : Q) : DataFrame :=
  [("date", [Num 1; Num 2]);
   ("metric_value", [Num m_a; Num m_b]);
   ("region", [Str "a"; Str "b"])].

(** A numeric dimension [x] with 22 distinct values over both periods. *)
Definition continuous_current : DataFrame :=
  [("date", nums 0 11); ("metric_value", nums 0 11); ("x", nums 0 11)].
Definition continuous_previous : DataFrame :=
  [("date", nums 0 11); ("metric_value", nums 0 11); ("x", nums 11 11)].

(** A dimension constant within each period, with a different value in
    each. *)
Definition plan_current : DataFrame :=
  [("date", [Num 3; Num 4]);
   ("metric_value", [Num 5; Num 7]);
   ("plan", [Str "pro"; Str "pro"])].
Definition plan_previous : DataFrame :=
  [("date", [Num 1; Num 2]);
   ("metric_value", [Num 2; Num 3]);
   ("plan", [Str "free"; Str "free"])].

(** Two categorical dimensions. *)
Definition two_dims (m_1 m_2 : Q) : DataFrame :=
  [("date", [Num 1; Num 2]);
   ("metric_value", [Num m_1; Num m_2]);
   ("region", [Str "a"; Str "b"]);
   ("channel", [Str "web"; Str "app"])].

(** A full series of four days and its two halves. *)
Definition full_series : DataFrame :=
  [("date", [Num 1; Num 2; Num 3; Num 4]);
   ("metric_value", [Num 10; Num 12; Num 11; Num 15])].
Definition first_half : DataFrame :=
  [("date", [Num 1; Num 2]); ("metric_value", [Num 10; Num 12])].
Definition second_half : DataFrame :=
  [("date", [Num 3; Num 4]); ("metric_value", [Num 11; Num 15])].
End Samples.

(** ** Further conditions used in the statements *)



(** No missing value in a column. *)
Definition no_missing (c : list cell) : bool :=
  forallb (fun x => match x with NaN => false | _ => true end) c.

(** ** Further sample runs *)

Module Runs.
Local Open Scope string_scope.

(** A call with the default thresholds and inferred dimensions, the set
    of common columns iterating in column order. *)
Definition default_run (current previous : DataFrame)
  : result (list Drivers.DriverResult) * (DataFrame * DataFrame) :=
  Drivers.calculate_drivers_effects (fun l => l) current previous
    "metric_value" None Drivers.default_min_volume_share
    Drivers.default_min_abs_contrib_share Drivers.default_eps.

(** Region [a] goes from 1 to 3, region [b] from 2 to 1. *)
Definition mixed_current : DataFrame := Samples.regions 3 1.
Definition mixed_previous : DataFrame := Samples.regions 1 2.

(** Two tables with a single region, the first without a metric
    column. *)
Definition no_metric : DataFrame :=
  [("date", [Num 1; Num 2]); ("region", [Str "a"; Str "a"])].
Definition one_region : DataFrame :=
  [("date", [Num 1; Num 2]); ("metric_value", [Num 2; Num 3]);
   ("region", [Str "a"; Str "a"])].

(** A previous period in which the channels carry what they carry in
    [Samples.two_dims 3 1], and the regions the opposite. *)
Definition swapped_previous : DataFrame :=
  [("date", [Num 1; Num 2]);
   ("metric_value", [Num 1; Num 3]);
   ("region", [Str "a"; Str "b"]);
   ("channel", [Str "app"; Str "web"])].
End Runs.

(** ** [analysis/json_builder.py]: global lists and summaries *)

Module Output.
Import Drivers.

(** [{**d, "dimension": dim_name}]: a driver record with the name of its
    dimension.  The category of [d] is stored under the name of the
    dimension column, so the new key replaces it when that column is
    itself called [dimension]. *)
Record TaggedDriver := mkTagged {
  t_dimension : string;
  t_driver : DriverRecord
}.

Definition tag (dim_name : string) (d : DriverRecord) : TaggedDriver :=
  mkTagged dim_name
    (if String.eqb dim_name "dimension" then
       mkRecord (Str dim_name)
         (d_volume_curr d) (d_mean_curr d) (d_volume_prev d) (d_mean_prev d)
         (d_contrib_curr d) (d_contrib_prev d) (d_contrib_delta d)
         (d_volume_share_curr d) (d_volume_share_prev d)
         (d_contrib_share_of_change d) (d_effect_score d)
         (d_change_label d) (d_direction d)
     else d).

(** [driver_sort_key]: every record built by [calculate_drivers_effects]
    has its [effect_score]. *)
Definition driver_sort_key (t : TaggedDriver) : Q :=
  d_effect_score (t_driver t).

(** The entries of one side, pooled over the dimensions in order
    (lines 60-84). *)
Definition pooled (side : DriverResult -> list DriverRecord)
  (drivers : list DriverResult) : list TaggedDriver :=
  flat_map (fun dim_info => map (tag (dimension dim_info)) (side dim_info))
           drivers.

(** [sorted(pool, key=driver_sort_key, reverse=True)[:5]] *)
Definition top_five (pool : list TaggedDriver) : list TaggedDriver :=
  firstn 5
    (sort_by (fun a b => Qle_bool (driver_sort_key b) (driver_sort_key a))
       pool).

Definition top_positive_overall (drivers : list DriverResult)
  : list TaggedDriver :=
  top_five (pooled top_positive drivers).

Definition top_negative_overall (drivers : list DriverResult)
  : list TaggedDriver :=
  top_five (pooled top_negative drivers).

(** Line 33. *)
Definition direction (absolute_change : Q) : string :=
  if Qltb 0 absolute_change then "up"%string
  else if Qltb absolute_change 0 then "down"%string
  else "flat"%string.

Definition no_change_summary : string :=
  "No meaningful change detected in this period.".

Definition weak_change_clause : string := "a detectable but weak change".

(** Lines 99-110. *)
Definition change_summary (ctx : Trend.ChangeContext) : string :=
  if negb (Trend.any_change_detected ctx) then no_change_summary
  else
    let parts :=
      (if negb (String.eqb (Trend.level_change_label ctx) "none") then
         [("a " ++ Trend.level_change_label ctx ++ " level change ("
           ++ direction (Trend.absolute_change ctx) ++ ")")%string]
       else [])
      ++ (if negb (String.eqb (Trend.trend_change_label ctx) "none") then
            [("a " ++ Trend.trend_change_label ctx
              ++ " trend change")%string]
          else []) in
    let parts :=
      match parts with
      | [] => [weak_change_clause]
      | _ => parts
      end in
    (String.concat " and " parts ++ " in the target metric.")%string.

Definition reliable_summary : string :=
  "The detected change appears reliable given the historical pattern.".

Definition unreliable_summary : string :=
  "The detected change may be influenced by volatility or inconsistent trends.".

(** Lines 112-116. *)
Definition reliability_summary (ctx : Trend.ChangeContext) : string :=
  if Trend.trustworthy ctx && negb (Trend.high_volatility ctx)
  then reliable_summary
  else unreliable_summary.

End Output.

(** ** [analysis/loader.py] *)

Module Loader.

(** [l[mask]]: the entries at the positions where the mask is true. *)
Fixpoint select {A} (mask : list bool) (l : list A) : list A :=
  match mask, l with
  | b :: m, x :: r => if b then x :: select m r else select m r
  | _, _ => []
  end.

(** [df[mask]]: the rows where the mask is true. *)
Definition select_rows (mask : list bool) (df : DataFrame) : DataFrame :=
  map (fun nc : string * list cell => (fst nc, select mask (snd nc))) df.

(** [(date >= lo) & (date <= hi)] on one cell; a date is a number of
    days, and a missing date compares false. *)
Definition in_range (lo hi : Q) (c : cell) : bool :=
  match c with
  | Num d => Qle_bool lo d && Qle_bool d hi
  | _ => false
  end.

(** [split_periods(df, end_date, period_days)]: the current and the
    previous table.  Comparing a text with a date raises. *)
Definition split_periods (df : DataFrame) (end_date : Q)
  (period_days : Z) : result (DataFrame * DataFrame) :=
  let current_start := end_date - inject_Z (period_days - 1) in
  let prev_end := current_start - 1 in
  let prev_start := prev_end - inject_Z (period_days - 1) in
  match get_col "date" df with
  | None => Raise (KeyError "date")
  | Some dates =>
      if is_numeric_dtype dates then
        Ok (select_rows (map (in_range current_start end_date) dates) df,
            select_rows (map (in_range prev_start prev_end) dates) df)
      else Raise TypeError
  end.

(** [df.rename(columns={old: new})] *)
Definition rename (old new : string) (df : DataFrame) : DataFrame :=
  map (fun nc : string * list cell =>
         (if String.eqb (fst nc) old then new else fst nc, snd nc)) df.

Definition metric_not_found (metric_name : string) : string :=
  ("Metric '" ++ metric_name ++ "' not found in CSV columns")%string.

Definition no_data_for (metric_name : string) : string :=
  ("No data found for metric '" ++ metric_name ++ "'")%string.

Section Prepare.
(** [pd.to_datetime] on a column: the parsed dates, or the error of a
    text that is no date. *)
Variable to_datetime : list cell -> result (list cell).

(** [prepare_dataframe(df, metric_name)]: the table it returns. *)
Definition prepare_dataframe (df : DataFrame) (metric_name : string)
  : result DataFrame :=
  match get_col "date" df with
  | None => Raise (KeyError "date")
  | Some dates =>
      parsed <- to_datetime dates ;;
      let df := set_col "date" parsed df in
      selected <-
        (if mem_string "metric_name" (columns df)
            && mem_string "metric_value" (columns df)
         then
           match get_col "metric_name" df with
           | Some names =>
               Ok (select_rows (map (cell_eqb (Str metric_name)) names) df)
           | None => Raise (KeyError "metric_name")
           end
         else if negb (mem_string metric_name (columns df)) then
           Raise (ValueError (metric_not_found metric_name))
         else Ok (rename metric_name "metric_value" df)) ;;
      if empty selected then Raise (ValueError (no_data_for metric_name))
      else Trend.sort_values selected "date"
  end.
End Prepare.

End Loader.

(** ** [analysis/validation.py] *)

Module Validation.

Definition OPTIONAL_DIMENSIONS : list string :=
  ["dimension_1"; "dimension_2"; "dimension_3"]%string.

Definition no_date_column : string := "CSV must contain a 'date' column".

Definition nl : string := String (ascii_of_nat 10) EmptyString.

Definition neither_long_nor_wide : string :=
  ("CSV must be either:" ++ nl
   ++ "- long format: date, metric_name, metric_value" ++ nl
   ++ "- wide format: date + one or more metric columns")%string.

(** [validate_schema(df)]: returns nothing, or raises. *)
Definition validate_schema (df : DataFrame) : result unit :=
  let cols := Drivers.nodup_string (columns df) in
  if negb (mem_string "date" cols) then Raise (ValueError no_date_column)
  else
    let has_long_format :=
      mem_string "metric_name" cols && mem_string "metric_value" cols in
    let has_wide_format :=
      Nat.ltb 0
        (length (filter (fun c => negb (String.eqb c "date")
                                  && negb (mem_string c OPTIONAL_DIMENSIONS))
                   cols)) in
    if negb (has_long_format || has_wide_format) then
      Raise (ValueError neither_long_nor_wide)
    else Ok tt.

End Validation.

(** ** [analysis/data_quality.py] *)

Module DataQuality.

(** The dictionary returned by [assess_data_quality]; a completeness of
    [None] is the NaN of a table without any date. *)
Record Quality := mkQuality {
  completeness_score_avg : option Q;
  warnings : list string;
  anomalies_detected : bool
}.

Definition Qmax_list (x : Q) (l : list Q) : Q :=
  fold_left (fun a b => if Qle_bool a b then b else a) l x.

Definition Qmin_list (x : Q) (l : list Q) : Q :=
  fold_left (fun a b => if Qle_bool b a then b else a) l x.

(** [assess_data_quality(full_df, current, previous)]; dates count days,
    and [.days] takes the whole days of the span. *)
Definition assess_data_quality (full_df current previous : DataFrame)
  : result Quality :=
  let warnings :=
    if empty current || empty previous then [Trend.no_data] else [] in
  match get_col "date" full_df with
  | None => Raise (KeyError "date")
  | Some dates =>
      if negb (is_numeric_dtype dates) then Raise TypeError
      else
        let missing_days := nunique dates in
        let completeness :=
          match numeric_values dates with
          | [] => None
          | d :: ds =>
              let expected_days :=
                (Qfloor (Qmax_list d ds - Qmin_list d ds) + 1)%Z in
              Some (Trend.round (Qnat missing_days / inject_Z expected_days)
                      2)
          end in
        Ok (mkQuality completeness warnings
              (Nat.ltb 0 (length warnings)))
  end.

End DataQuality.

(** ** Strength of a label *)

(** The order of the labels, weakest first. *)
Definition strength (label : string) : nat :=
  if String.eqb label "none" then 0
  else if String.eqb label "minor" then 1
  else if String.eqb label "moderate" then 2
  else 3.

(** ** Conditions on the output *)

(** [top] holds the (at most five) entries of [pool] with the highest
    sort key, highest first. *)
Definition five_best (pool top : list Output.TaggedDriver) : Prop :=
  length top = Nat.min 5 (length pool)
  /\ StronglySorted
       (fun a b => Output.driver_sort_key b <= Output.driver_sort_key a) top
  /\ exists rest,
       Permutation pool (top ++ rest)
       /\ forall a b, In a top -> In b rest ->
            Output.driver_sort_key b <= Output.driver_sort_key a.

(** The entry [t] of a global list is the driver [d] of the result [r]
    with the name of the dimension added: every figure is the one of [d],
    and so is the category unless the dimension column is itself called
    [dimension]. *)
Definition tagged_from (r : Drivers.DriverResult) (d : Drivers.DriverRecord)
  (t : Output.TaggedDriver) : Prop :=
  Output.t_dimension t = Drivers.dimension r
  /\ Drivers.d_contrib_delta (Output.t_driver t) = Drivers.d_contrib_delta d
  /\ Drivers.d_effect_score (Output.t_driver t) = Drivers.d_effect_score d
  /\ Drivers.d_contrib_share_of_change (Output.t_driver t)
     = Drivers.d_contrib_share_of_change d
  /\ Drivers.d_direction (Output.t_driver t) = Drivers.d_direction d
  /\ Drivers.d_change_label (Output.t_driver t) = Drivers.d_change_label d
  /\ Drivers.d_category (Output.t_driver t)
     = if String.eqb (Drivers.dimension r) "dimension"
       then Str "dimension" else Drivers.d_category d.

Module OutputRuns.
Local Open Scope string_scope.

(** The tables of [Runs.mixed_current] and [Runs.mixed_previous] with the
    region column called [dimension]. *)
Definition current : DataFrame :=
  [("date", [Num 1; Num 2]);
   ("metric_value", [Num 3; Num 1]);
   ("dimension", [Str "a"; Str "b"])].
Definition previous : DataFrame :=
  [("date", [Num 1; Num 2]);
   ("metric_value", [Num 1; Num 2]);
   ("dimension", [Str "a"; Str "b"])].
End OutputRuns.

(** ** Sample tables for the loader *)

Module LoaderRuns.
Local Open Scope string_scope.

(** Six days of one metric in wide format. *)
Definition daily : DataFrame :=
  [("date", [Num 3; Num 1; Num 2; Num 6; Num 5; Num 4]);
   ("revenue", [Num 30; Num 10; Num 20; Num 60; Num 50; Num 40]);
   ("region", [Str "a"; Str "b"; Str "a"; Str "b"; Str "a"; Str "b"])].

(** Two metrics in long format. *)
Definition long : DataFrame :=
  [("date", [Num 2; Num 1; Num 2; Num 1]);
   ("metric_name", [Str "revenue"; Str "revenue"; Str "visits";
                    Str "visits"]);
   ("metric_value", [Num 20; Num 10; Num 7; Num 5])].

(** Dates that are already parsed. *)
Definition parsed (dates : list cell) : result (list cell) := Ok dates.
End LoaderRuns.

(** ** Conditions and samples for the data quality *)

(** Every date of the column is a whole day (or missing). *)
Definition whole_days (dates : list cell) : bool :=
  forallb (fun c => match c with
                    | Num d => Qeq_bool d (inject_Z (Qfloor d))
                    | NaN => true
                    | Str _ => false
                    end) dates.

Module QualityRuns.
Local Open Scope string_scope.

(** Three days out of five, one of them twice. *)
Definition gappy : DataFrame :=
  [("date", [Num 5; Num 1; Num 2; Num 5]);
   ("metric_value", [Num 10; Num 12; Num 11; Num 15])].
End QualityRuns.

(** The day of a date. *)
Definition day_of (c : cell) : Z :=
  match c with
  | Num d => Qfloor d
  | _ => 0%Z
  end.

(** * Properties *)

(** ** Lists, sorting and tables *)

Section SortingFacts.
Context {A : Type} (leb : A -> A -> bool).

Lemma insert_by_In (x y : A) (l : list A) :
  In y (insert_by leb x l) <-> y = x \/ In y l.
Proof.
  induction l as [|z l IH]; simpl.
  - intuition.
  - destruct (leb x z); simpl; [intuition|].
    rewrite IH. intuition.
Qed.

Lemma sort_by_In (y : A) (l : list A) :
  In y (sort_by leb l) <-> In y l.
Proof.
  induction l as [|x l IH]; simpl; [tauto|].
  unfold sort_by in *. simpl.
  rewrite insert_by_In, IH. intuition.
Qed.

Lemma insert_by_length (x : A) (l : list A) :
  length (insert_by leb x l) = S (length l).
Proof.
  induction l as [|z l IH]; simpl; [reflexivity|].
  destruct (leb x z); simpl; congruence.
Qed.

Lemma sort_by_length (l : list A) :
  length (sort_by leb l) = length l.
Proof.
  induction l as [|x l IH]; simpl; [reflexivity|].
  unfold sort_by in *. simpl.
  now rewrite insert_by_length, IH.
Qed.

Lemma sort_by_nil (l : list A) : sort_by leb l = [] -> l = [].
Proof.
  intros H. apply (f_equal (@length A)) in H.
  rewrite sort_by_length in H. now destruct l.
Qed.
End SortingFacts.

Lemma get_col_set_col (name : string) (vals : list cell) (df : DataFrame) :
  get_col name (set_col name vals df) = Some vals.
Proof.
  induction df as [|[n c] df IH]; simpl.
  - now rewrite String.eqb_refl.
  - destruct (String.eqb n name) eqn:E; simpl; now rewrite E.
Qed.

Lemma get_col_set_col_other (name other : string) (vals : list cell)
  (df : DataFrame) :
  name <> other ->
  get_col other (set_col name vals df) = get_col other df.
Proof.
  intros Hne. induction df as [|[n c] df IH]; simpl.
  - destruct (String.eqb name other) eqn:E; [|reflexivity].
    apply String.eqb_eq in E. contradiction.
  - destruct (String.eqb n name) eqn:E; simpl.
    + apply String.eqb_eq in E. subst n.
      destruct (String.eqb name other) eqn:E'; [|reflexivity].
      apply String.eqb_eq in E'. contradiction.
    + destruct (String.eqb n other); [reflexivity|exact IH].
Qed.

Lemma get_col_columns (name : string) (df : DataFrame) :
  mem_string name (columns df) = true <-> get_col name df <> None.
Proof.
  induction df as [|[n c] df IH]; simpl.
  - split; [discriminate|congruence].
  - rewrite String.eqb_sym.
    destruct (String.eqb n name); simpl; [split; congruence|exact IH].
Qed.

Lemma string_length_append (s t : string) :
  String.length (s ++ t) = (String.length s + String.length t)%nat.
Proof.
  induction s as [|a s IH]; simpl; [reflexivity|now rewrite IH].
Qed.

Lemma binned_name_fresh (dim : string) :
  String.eqb dim (Drivers.binned_name dim) = false.
Proof.
  apply String.eqb_neq. intros H.
  apply (f_equal String.length) in H.
  unfold Drivers.binned_name in H.
  rewrite string_length_append in H. simpl in H. lia.
Qed.

(** ** The binner *)

Section Binner.
Import Drivers.

Lemma bin_continuous_dimension_ok current previous dim n_bins min_unique
  cc pc :
  get_col dim current = Some cc ->
  get_col dim previous = Some pc ->
  exists bc bp,
    bin_continuous_dimension current previous dim n_bins min_unique
    = Ok (set_col (binned_name dim) bc current,
          set_col (binned_name dim) bp previous).
Proof.
  intros Hc Hp. unfold bin_continuous_dimension, unbinned.
  rewrite Hc, Hp.
  destruct (Nat.ltb _ _); [eauto|].
  destruct (negb _); [eauto|].
  destruct (Nat.leb _ _); eauto.
Qed.

(** C10. Whenever [bin_continuous_dimension] really bins a dimension,
    the column it writes for the current period and the column it
    writes for the previous period are both obtained by [pd.cut] with
    one and the same list of edges (and labels): the deduplicated
    quantile edges computed once on the combined column. *)
Theorem binning_uses_one_edge_set current previous dim n_bins min_unique
  cc pc :
  get_col dim current = Some cc ->
  get_col dim previous = Some pc ->
  bins_applied cc pc n_bins min_unique = true ->
  let edges := bin_edges (cc ++ pc) n_bins in
  let labels := bin_labels dim edges in
  exists current' previous',
    bin_continuous_dimension current previous dim n_bins min_unique
    = Ok (current', previous')
    /\ get_col (binned_name dim) current' = Some (map (cut edges labels) cc)
    /\ get_col (binned_name dim) previous'
       = Some (map (cut edges labels) pc).
Proof.
  intros Hc Hp Hb edges labels.
  unfold bins_applied in Hb.
  apply andb_prop in Hb as [Hb He].
  apply andb_prop in Hb as [Hu Hn].
  apply negb_true_iff in Hu, He.
  unfold bin_continuous_dimension.
  rewrite Hc, Hp, Hu, Hn. simpl negb. cbv iota zeta.
  rewrite He.
  do 2 eexists. split; [reflexivity|].
  split; apply get_col_set_col.
Qed.

Lemma binning_uses_one_edge_set_witness :
  bins_applied (Samples.nums 0 11) (Samples.nums 11 11) 10 10 = true
  /\ exists current' previous',
       bin_continuous_dimension Samples.continuous_current
         Samples.continuous_previous "x" 10 10
       = Ok (current', previous')
       /\ get_col (binned_name "x") current'
          = Some (map (cut (bin_edges (Samples.nums 0 11
                                       ++ Samples.nums 11 11) 10)
                           (bin_labels "x"
                              (bin_edges (Samples.nums 0 11
                                          ++ Samples.nums 11 11) 10)))
                      (Samples.nums 0 11))
       /\ get_col (binned_name "x") previous'
          = Some (map (cut (bin_edges (Samples.nums 0 11
                                       ++ Samples.nums 11 11) 10)
                           (bin_labels "x"
                              (bin_edges (Samples.nums 0 11
                                          ++ Samples.nums 11 11) 10)))
                      (Samples.nums 11 11)).
Proof.
  split; [vm_compute; reflexivity|].
  apply (binning_uses_one_edge_set Samples.continuous_current
           Samples.continuous_previous "x" 10 10
           (Samples.nums 0 11) (Samples.nums 11 11));
    vm_compute; reflexivity.
Defined.

(** C4. On a numeric dimension with 22 distinct values the call ends
    with a new column [x_binned] in both of the caller's tables, which
    had three columns each before the call. *)
Theorem binner_writes_into_the_callers_tables :
  columns Samples.continuous_current = ["date"; "metric_value"; "x"]%string
  /\ columns Samples.continuous_previous
     = ["date"; "metric_value"; "x"]%string
  /\ map columns
       (let st := snd (calculate_drivers_effects (fun l => l)
                         Samples.continuous_current
                         Samples.continuous_previous
                         "metric_value" None
                         default_min_volume_share
                         default_min_abs_contrib_share default_eps) in
        [fst st; snd st])
     = [["date"; "metric_value"; "x"; "x_binned"];
        ["date"; "metric_value"; "x"; "x_binned"]]%string.
Proof.
  vm_compute. repeat split; reflexivity.
Qed.

Lemma merge_on_dim_after_binning_raises dim rows_l rows_r :
  merge_outer
    (mkAggFrame [binned_name dim; "volume_curr"; "mean_curr"]%string rows_l)
    (mkAggFrame [binned_name dim; "volume_prev"; "mean_prev"]%string rows_r)
    dim
  = Raise (KeyError dim).
Proof.
  unfold merge_outer. simpl agg_columns. simpl mem_string.
  rewrite binned_name_fresh. simpl orb.
  destruct (String.eqb dim "volume_curr") eqn:E1.
  { apply String.eqb_eq in E1. subst dim. reflexivity. }
  destruct (String.eqb dim "mean_curr") eqn:E2.
  { apply String.eqb_eq in E2. subst dim. reflexivity. }
  reflexivity.
Qed.

Lemma aggregate_and_merge_binned_raises current previous metric_col dim :
  exists e,
    aggregate_and_merge current previous metric_col dim (binned_name dim)
    = Raise e.
Proof.
  unfold aggregate_and_merge, groupby_agg.
  destruct (get_col (binned_name dim) current); [|simpl; eauto].
  destruct (get_col metric_col current); [|simpl; eauto].
  destruct (get_col (binned_name dim) previous); [|simpl; eauto].
  destruct (get_col metric_col previous); [|simpl; eauto].
  simpl bind. rewrite merge_on_dim_after_binning_raises. eauto.
Qed.

(** Every dimension that reaches the binner makes the loop body raise:
    the aggregates are keyed by [<dim>_binned], the merge is asked to
    join on [dim]. *)
Lemma continuous_dimension_raises current previous metric_col dim
  tcv tpv tcc tpc mvs macs eps cc pc :
  get_col dim current = Some cc ->
  get_col dim previous = Some pc ->
  constant_dimension cc pc = false ->
  is_continuous_series (cc ++ pc) 20 = true ->
  exists e st,
    process_dimension current previous metric_col dim
      tcv tpv tcc tpc mvs macs eps = (Raised e, st).
Proof.
  intros Hc Hp Hk Hcont. unfold process_dimension.
  rewrite Hc, Hp, Hk, Hcont.
  destruct (bin_continuous_dimension_ok current previous dim 10 10 cc pc
              Hc Hp) as (bc & bp & ->).
  destruct (aggregate_and_merge_binned_raises
              (set_col (binned_name dim) bc current)
              (set_col (binned_name dim) bp previous) metric_col dim)
    as (e & ->).
  eauto.
Qed.

(** C2. With a numeric dimension of 22 distinct values over two
    non-empty periods, [calculate_drivers_effects] raises
    [KeyError: 'x'] instead of returning a list of results. *)
Theorem continuous_dimension_key_error :
  empty Samples.continuous_current = false
  /\ empty Samples.continuous_previous = false
  /\ fst (calculate_drivers_effects (fun l => l)
            Samples.continuous_current Samples.continuous_previous
            "metric_value" None
            default_min_volume_share default_min_abs_contrib_share
            default_eps)
     = Raise (KeyError "x").
Proof.
  vm_compute. repeat split; reflexivity.
Qed.
End Binner.

(** ** Contributions, filters and normalisation *)

Section Attribution.
Import Drivers.

(** C1. Region [a] moves from 1 to 3 and region [b] stays at 1: the
    metric total moves by 2, while the contribution deltas, each a
    volume (the sum) times a mean, add up to 8. *)
Theorem contrib_deltas_do_not_sum_to_total_delta :
  exists merged total_curr_contrib total_prev_contrib,
    aggregate_and_merge (Samples.regions 3 1) (Samples.regions 1 1)
      "metric_value" "region" "region" = Ok merged
    /\ total_contrib (Samples.regions 3 1) "metric_value"
       = Ok total_curr_contrib
    /\ total_contrib (Samples.regions 1 1) "metric_value"
       = Ok total_prev_contrib
    /\ Qsum (map contrib_delta merged) == 8
    /\ total_curr_contrib - total_prev_contrib == 2.
Proof.
  do 3 eexists. repeat split; vm_compute; reflexivity.
Qed.

(** C3. Region [b] carries 1 of 200 in the current period and 2 of 398
    in the previous one, under 1% of the period's volume both times, so
    the filter as specified drops it.  The code divides its volume by
    the number of rows (2), keeps it, and returns it as a driver. *)
Theorem low_share_category_passes_volume_filter :
  exists m_a m_b results st,
    aggregate_and_merge (Samples.regions 199 1) (Samples.regions 396 2)
      "metric_value" "region" "region" = Ok [m_a; m_b]
    /\ key m_b = Str "b"
    /\ total_contrib (Samples.regions 199 1) "metric_value" = Ok 200
    /\ total_contrib (Samples.regions 396 2) "metric_value" = Ok 398
    /\ volume_keep_spec 200 398 default_min_volume_share default_eps m_b
       = false
    /\ volume_keep (len (Samples.regions 199 1))
         (len (Samples.regions 396 2))
         default_min_volume_share default_eps m_b = true
    /\ calculate_drivers_effects (fun l => l)
         (Samples.regions 199 1) (Samples.regions 396 2)
         "metric_value" None default_min_volume_share
         default_min_abs_contrib_share default_eps = (Ok results, st)
    /\ map (fun r => map d_category (drivers r)) results
       = [[Str "a"; Str "b"]].
Proof.
  do 4 eexists. repeat split; vm_compute; reflexivity.
Qed.

Lemma rank_drivers_empty_has_no_count dim tcv tpv tcc tpc mvs macs eps
  merged :
  drivers (rank_drivers dim tcv tpv tcc tpc mvs macs eps merged) = [] ->
  rank_drivers dim tcv tpv tcc tpc mvs macs eps merged = no_drivers dim.
Proof.
  unfold rank_drivers.
  destruct (filter (volume_keep _ _ _ _) merged) as [|m l];
    [reflexivity|].
  destruct (filter (contrib_keep _ _) (m :: l)) as [|m' l'];
    [reflexivity|].
  cbn [drivers]. intros H.
  apply sort_by_nil in H. discriminate.
Qed.

(** C6. Two identical periods: every category of [region] has a zero
    delta and is removed by the contribution filter.  The result
    appended for [region] has the three empty lists but no
    [num_drivers] entry; the count 0 only appears in the summary that
    [build_output_json] derives from the empty [drivers] list. *)
Theorem filtered_out_dimension_has_no_num_drivers :
  exists r st,
    calculate_drivers_effects (fun l => l)
      (Samples.regions 1 1) (Samples.regions 1 1)
      "metric_value" None default_min_volume_share
      default_min_abs_contrib_share default_eps = (Ok [r], st)
    /\ dimension r = "region"%string
    /\ drivers r = [] /\ top_positive r = [] /\ top_negative r = []
    /\ num_drivers r = None
    /\ map JsonBuilder.s_num_drivers (JsonBuilder.by_dimension [r])
       = [0%nat].
Proof.
  do 2 eexists. repeat split; vm_compute; reflexivity.
Qed.

Lemma Qltb_true (x y : Q) : Qltb x y = true <-> x < y.
Proof.
  unfold Qltb. rewrite negb_true_iff.
  split.
  - intros H. apply Qnot_le_lt. intros Hle.
    apply Qle_bool_iff in Hle. congruence.
  - intros H. destruct (Qle_bool y x) eqn:E; [|reflexivity].
    apply Qle_bool_iff in E. apply Qlt_not_le in H. contradiction.
Qed.

Lemma Qltb_false (x y : Q) : Qltb x y = false <-> y <= x.
Proof.
  unfold Qltb. rewrite negb_false_iff. apply Qle_bool_iff.
Qed.

Lemma denom_nonzero (tcc tpc eps : Q) :
  0 < eps -> ~ denom tcc tpc eps == 0.
Proof.
  intros Heps. unfold denom.
  destruct (Qltb eps (Qabs (tcc - tpc))) eqn:E.
  - apply Qltb_true in E. intros H0.
    rewrite H0 in E. simpl in E. lra.
  - pose proof (Qabs_nonneg tcc). pose proof (Qabs_nonneg tpc). lra.
Qed.

Lemma denom_fallback (tcc tpc eps : Q) :
  Qabs (tcc - tpc) <= eps ->
  denom tcc tpc eps = Qabs tcc + Qabs tpc + eps.
Proof.
  intros H. unfold denom.
  apply Qltb_false in H. now rewrite H.
Qed.

(** What the loop preserves: a property of every result built by
    [rank_drivers] holds of every result returned. *)
Lemma process_dimensions_Forall (P : DriverResult -> Prop)
  metric_col tcv tpv tcc tpc mvs macs eps :
  (forall dim merged,
      P (rank_drivers dim tcv tpv tcc tpc mvs macs eps merged)) ->
  forall dims current previous results0 results st,
    Forall P results0 ->
    process_dimensions dims current previous metric_col
      tcv tpv tcc tpc mvs macs eps results0 = (Ok results, st) ->
    Forall P results.
Proof.
  intros HP dims.
  induction dims as [|dim rest IH]; intros current previous results0
    results st H0 Hrun; simpl in Hrun.
  - now inversion Hrun; subst.
  - destruct (process_dimension current previous metric_col dim
                tcv tpv tcc tpc mvs macs eps) as [o [c p]] eqn:Hstep.
    destruct o as [|r|e].
    + eapply IH; eauto.
    + eapply IH; [|exact Hrun].
      apply Forall_app. split; [assumption|].
      constructor; [|constructor].
      unfold process_dimension in Hstep.
      destruct (get_col dim current); [|discriminate].
      destruct (get_col dim previous); [|discriminate].
      destruct (constant_dimension _ _); [discriminate|].
      destruct (is_continuous_series _ _).
      * destruct (bin_continuous_dimension _ _ _ _ _) as [[c' p']|];
          [|discriminate].
        destruct (aggregate_and_merge _ _ _ _ _); [|discriminate].
        inversion Hstep; subst. apply HP.
      * destruct (aggregate_and_merge _ _ _ _ _); [|discriminate].
        inversion Hstep; subst. apply HP.
    + discriminate.
Qed.

Lemma rank_drivers_shares dim tcv tpv tcc tpc mvs macs eps merged x :
  In x (drivers (rank_drivers dim tcv tpv tcc tpc mvs macs eps merged)) ->
  d_contrib_share_of_change x
  = d_contrib_delta x / denom tcc tpc eps.
Proof.
  unfold rank_drivers.
  destruct (filter (volume_keep _ _ _ _) merged) as [|m l];
    [intros []|].
  destruct (filter (contrib_keep _ _) (m :: l)) as [|m' l'];
    [intros []|].
  cbn [drivers]. unfold sort_by_effect. rewrite sort_by_In.
  rewrite in_map_iff. intros (m0 & <- & _). reflexivity.
Qed.

(** C8. With a positive [eps], whenever [calculate_drivers_effects]
    returns, the normalisation denominator [denom] is not zero; it is
    the fallback [|total_curr_contrib| + |total_prev_contrib| + eps]
    whenever the total contribution delta is within [eps] of zero (in
    particular when it is zero); and every returned driver has
    [contrib_share_of_change = contrib_delta / denom]. *)
Theorem normalisation_denominator_never_zero set_iter current previous
  metric_col dimensions mvs macs eps results st :
  0 < eps ->
  calculate_drivers_effects set_iter current previous metric_col
    dimensions mvs macs eps = (Ok results, st) ->
  exists total_curr_contrib total_prev_contrib,
    total_contrib current metric_col = Ok total_curr_contrib
    /\ total_contrib previous metric_col = Ok total_prev_contrib
    /\ ~ denom total_curr_contrib total_prev_contrib eps == 0
    /\ (Qabs (total_curr_contrib - total_prev_contrib) <= eps ->
        denom total_curr_contrib total_prev_contrib eps
        = Qabs total_curr_contrib + Qabs total_prev_contrib + eps)
    /\ forall r x,
         In r results -> In x (drivers r) ->
         d_contrib_share_of_change x
         = d_contrib_delta x
           / denom total_curr_contrib total_prev_contrib eps.
Proof.
  intros Heps Hrun. unfold calculate_drivers_effects in Hrun.
  destruct (total_contrib current metric_col) as [tcc|]; [|discriminate].
  destruct (total_contrib previous metric_col) as [tpc|]; [|discriminate].
  exists tcc, tpc. repeat split.
  - now apply denom_nonzero.
  - apply denom_fallback.
  - intros r x Hr Hx.
    pose proof (process_dimensions_Forall
                  (fun r => forall x, In x (drivers r) ->
                     d_contrib_share_of_change x
                     = d_contrib_delta x / denom tcc tpc eps)
                  metric_col (len current) (len previous) tcc tpc
                  mvs macs eps) as Hinv.
    eapply Forall_forall in Hinv; [apply Hinv; exact Hx| |constructor
                                  |exact Hrun|exact Hr].
    intros dim merged y. apply rank_drivers_shares.
Qed.
End Attribution.

(** ** Distinct values *)

Lemma cell_eqb_refl (a : cell) : cell_eqb a a = true.
Proof.
  destruct a; simpl; auto using Qeq_bool_refl, String.eqb_refl.
Qed.

Lemma cell_eqb_sym (a b : cell) : cell_eqb a b = cell_eqb b a.
Proof.
  destruct a, b; simpl; auto using Qeq_bool_comm, String.eqb_sym.
Qed.

Lemma cell_eqb_trans (a b c : cell) :
  cell_eqb a b = true -> cell_eqb b c = true -> cell_eqb a c = true.
Proof.
  destruct a, b, c; simpl; try discriminate; auto.
  - apply Qeq_bool_trans.
  - intros H1 H2. apply String.eqb_eq in H1, H2. subst.
    apply String.eqb_refl.
Qed.

Lemma mem_cell_cons (a c : cell) (seen : list cell) :
  mem_cell a (c :: seen) = cell_eqb a c || mem_cell a seen.
Proof. reflexivity. Qed.

Lemma distinct_nil (l seen : list cell) :
  distinct l seen = [] <->
  forall a, In a l -> a = NaN \/ mem_cell a seen = true.
Proof.
  revert seen. induction l as [|c r IH]; intros seen; simpl.
  - split; [intros _ a []|reflexivity].
  - destruct c as [q|s|].
    + destruct (mem_cell (Num q) seen) eqn:E.
      * rewrite IH. split.
        -- intros H a [<-|Ha]; auto.
        -- intros H a Ha. apply H. now right.
      * split; [discriminate|].
        intros H. destruct (H (Num q) (or_introl eq_refl)); congruence.
    + destruct (mem_cell (Str s) seen) eqn:E.
      * rewrite IH. split.
        -- intros H a [<-|Ha]; auto.
        -- intros H a Ha. apply H. now right.
      * split; [discriminate|].
        intros H. destruct (H (Str s) (or_introl eq_refl)); congruence.
    + rewrite IH. split.
      * intros H a [<-|Ha]; auto.
      * intros H a Ha. apply H. now right.
Qed.

(** At most one distinct value: the values not seen before agree. *)
Lemma distinct_le_1_agree (l seen : list cell) :
  (length (distinct l seen) <= 1)%nat ->
  forall a b, In a l -> In b l -> a <> NaN -> b <> NaN ->
    mem_cell a seen = false -> mem_cell b seen = false ->
    cell_eqb a b = true.
Proof.
  revert seen. induction l as [|c r IH]; intros seen Hlen a b Ha Hb Hna Hnb
    Hsa Hsb; [destruct Ha|].
  assert (Hskip : distinct (c :: r) seen = distinct r seen ->
                  (c = NaN \/ mem_cell c seen = true) ->
                  cell_eqb a b = true).
  { intros Heq Hc. rewrite Heq in Hlen.
    apply (IH seen Hlen); auto.
    - destruct Ha as [<-|Ha]; [|exact Ha]. destruct Hc; congruence.
    - destruct Hb as [<-|Hb]; [|exact Hb]. destruct Hc; congruence. }
  assert (Hnew : distinct (c :: r) seen = c :: distinct r (c :: seen) ->
                 cell_eqb a b = true).
  { intros Heq. rewrite Heq in Hlen. simpl in Hlen.
    assert (Hnil : distinct r (c :: seen) = [])
      by (destruct (distinct r (c :: seen)); [reflexivity|simpl in Hlen; lia]).
    rewrite distinct_nil in Hnil.
    assert (Hc : forall x, In x (c :: r) -> x <> NaN ->
                   mem_cell x seen = false -> cell_eqb x c = true).
    { intros x [<-|Hx] Hnx Hsx; [apply cell_eqb_refl|].
      destruct (Hnil x Hx) as [|Hm]; [contradiction|].
      rewrite mem_cell_cons, Hsx, orb_false_r in Hm. exact Hm. }
    apply cell_eqb_trans with c; [now apply Hc|].
    rewrite cell_eqb_sym. now apply Hc. }
  simpl in Hskip, Hnew.
  destruct c as [q|s|].
  - destruct (mem_cell (Num q) seen) eqn:E; auto.
  - destruct (mem_cell (Str s) seen) eqn:E; auto.
  - auto.
Qed.

Lemma agree_distinct_le_1 (l seen : list cell) :
  (forall a b, In a l -> In b l -> a <> NaN -> b <> NaN ->
     cell_eqb a b = true) ->
  (length (distinct l seen) <= 1)%nat.
Proof.
  revert seen. induction l as [|c r IH]; intros seen H; simpl; [lia|].
  assert (Hr : forall a b, In a r -> In b r -> a <> NaN -> b <> NaN ->
                 cell_eqb a b = true)
    by (intros a b Ha Hb; apply H; now right).
  assert (Hnew : c <> NaN ->
                 (length (c :: distinct r (c :: seen)) <= 1)%nat).
  { intros Hc.
    assert (Hnil : distinct r (c :: seen) = []).
    { apply distinct_nil. intros a Ha.
      destruct a as [q|s|]; [right|right|now left];
        rewrite mem_cell_cons;
        rewrite (H _ c (or_intror Ha) (or_introl eq_refl)); auto;
        discriminate. }
    rewrite Hnil. simpl. lia. }
  destruct c as [q|s|].
  - destruct (mem_cell (Num q) seen); [now apply IH|].
    apply Hnew. discriminate.
  - destruct (mem_cell (Str s) seen); [now apply IH|].
    apply Hnew. discriminate.
  - now apply IH.
Qed.

Lemma nunique_app_le_1 (cc pc : list cell) :
  (nunique (cc ++ pc) <= 1)%nat ->
  (nunique cc <= 1)%nat /\ (nunique pc <= 1)%nat.
Proof.
  intros H. unfold nunique in *.
  pose proof (distinct_le_1_agree _ _ H) as Hagree.
  split; apply agree_distinct_le_1; intros a b Ha Hb Hna Hnb;
    apply Hagree; auto; apply in_or_app; auto.
Qed.

(** ** Which dimensions are processed, and in which order *)

Section Dimensions.
Import Drivers.

Lemma constant_dimension_iff (cc pc : list cell) :
  constant_dimension cc pc = true <->
  (nunique cc <= 1)%nat /\ (nunique pc <= 1)%nat.
Proof.
  unfold constant_dimension.
  rewrite orb_true_iff, andb_true_iff, !Nat.leb_le.
  split; [|tauto].
  intros [H|H]; [exact H|now apply nunique_app_le_1].
Qed.

(** C5, as the code has it.  The loop body skips [dim] exactly when
    [dim] is not a column of both tables, or its column has at most one
    distinct non-missing value within the current period and at most
    one within the previous period, each period taken on its own. *)
Theorem skipped_iff_constant_within_each_period current previous
  metric_col dim tcv tpv tcc tpc mvs macs eps :
  fst (process_dimension current previous metric_col dim
         tcv tpv tcc tpc mvs macs eps) = Skipped
  <-> match get_col dim current, get_col dim previous with
      | Some cc, Some pc =>
          (nunique cc <= 1)%nat /\ (nunique pc <= 1)%nat
      | _, _ => True
      end.
Proof.
  unfold process_dimension.
  destruct (get_col dim current) as [cc|]; [|simpl; tauto].
  destruct (get_col dim previous) as [pc|]; [|simpl; tauto].
  rewrite <- constant_dimension_iff.
  destruct (constant_dimension cc pc); [simpl; tauto|].
  split; [|discriminate].
  destruct (is_continuous_series (cc ++ pc) 20).
  - destruct (bin_continuous_dimension _ _ _ _ _) as [[c' p']|];
      [|discriminate].
    destruct (aggregate_and_merge _ _ _ _ _); discriminate.
  - destruct (aggregate_and_merge _ _ _ _ _); discriminate.
Qed.

(** C5, as stated, fails: [plan] is a column of both tables with two
    distinct values over the combined data ("pro" now, "free" before),
    and it is skipped; no result is returned for it. *)
Lemma per_period_constant_dimension_is_skipped :
  get_col "plan" Samples.plan_current = Some [Str "pro"; Str "pro"]
  /\ get_col "plan" Samples.plan_previous
     = Some [Str "free"; Str "free"]
  /\ nunique ([Str "pro"; Str "pro"] ++ [Str "free"; Str "free"]) = 2%nat
  /\ fst (process_dimension Samples.plan_current Samples.plan_previous
            "metric_value" "plan" 2 2 12 5
            default_min_volume_share default_min_abs_contrib_share
            default_eps) = Skipped
  /\ calculate_drivers_effects (fun l => l)
       Samples.plan_current Samples.plan_previous "metric_value" None
       default_min_volume_share default_min_abs_contrib_share
       default_eps
     = (Ok [], (Samples.plan_current, Samples.plan_previous)).
Proof.
  vm_compute. repeat split; reflexivity.
Qed.

Lemma rank_drivers_dimension dim tcv tpv tcc tpc mvs macs eps merged :
  dimension (rank_drivers dim tcv tpv tcc tpc mvs macs eps merged) = dim.
Proof.
  unfold rank_drivers.
  destruct (filter (volume_keep _ _ _ _) merged); [reflexivity|].
  destruct (filter (contrib_keep _ _) _); reflexivity.
Qed.

(** An iteration that does not raise leaves both tables as they were,
    and what it appends carries the name of its dimension. *)
Lemma process_dimension_frame current previous metric_col dim
  tcv tpv tcc tpc mvs macs eps o st :
  process_dimension current previous metric_col dim
    tcv tpv tcc tpc mvs macs eps = (o, st) ->
  match o with
  | Raised _ => True
  | Skipped => st = (current, previous)
  | Appended r => st = (current, previous) /\ dimension r = dim
  end.
Proof.
  intros H.
  destruct o as [|r|e]; [| |exact I].
  - unfold process_dimension in H.
    destruct (get_col dim current) as [cc|]; [|congruence].
    destruct (get_col dim previous) as [pc|]; [|congruence].
    destruct (constant_dimension cc pc); [congruence|].
    destruct (is_continuous_series (cc ++ pc) 20).
    + destruct (bin_continuous_dimension _ _ _ _ _) as [[c' p']|];
        [|discriminate].
      destruct (aggregate_and_merge _ _ _ _ _); discriminate.
    + destruct (aggregate_and_merge _ _ _ _ _); discriminate.
  - destruct (get_col dim current) as [cc|] eqn:Hc;
      [|unfold process_dimension in H; rewrite Hc in H; discriminate].
    destruct (get_col dim previous) as [pc|] eqn:Hp;
      [|unfold process_dimension in H; rewrite Hc, Hp in H;
        discriminate].
    destruct (constant_dimension cc pc) eqn:Hk;
      [unfold process_dimension in H; rewrite Hc, Hp, Hk in H;
       discriminate|].
    destruct (is_continuous_series (cc ++ pc) 20) eqn:Hcont.
    + destruct (continuous_dimension_raises current previous metric_col
                  dim tcv tpv tcc tpc mvs macs eps cc pc Hc Hp Hk Hcont)
        as (e & st' & He).
      congruence.
    + unfold process_dimension in H. rewrite Hc, Hp, Hk, Hcont in H.
      destruct (aggregate_and_merge _ _ _ _ _); [|discriminate].
      inversion H; subst. split; [reflexivity|].
      apply rank_drivers_dimension.
Qed.

Lemma process_dimensions_order metric_col tcv tpv tcc tpc mvs macs eps
  dims :
  forall current previous results0 results st,
    process_dimensions dims current previous metric_col
      tcv tpv tcc tpc mvs macs eps results0 = (Ok results, st) ->
    st = (current, previous)
    /\ map dimension results
       = map dimension results0
         ++ filter (yields_result current previous metric_col
                      tcv tpv tcc tpc mvs macs eps) dims.
Proof.
  induction dims as [|dim rest IH]; intros current previous results0
    results st Hrun; simpl in Hrun.
  - inversion Hrun; subst. simpl. now rewrite app_nil_r.
  - simpl filter. unfold yields_result at 1.
    destruct (process_dimension current previous metric_col dim
                tcv tpv tcc tpc mvs macs eps) as [o [c p]] eqn:Hstep.
    pose proof (process_dimension_frame _ _ _ _ _ _ _ _ _ _ _ _ _ Hstep)
      as Hframe.
    destruct o as [|r|e]; simpl fst; cbv iota.
    + inversion Hframe; subst c p. now apply IH.
    + destruct Hframe as [Hst Hdim]. inversion Hst; subst c p.
      destruct (IH _ _ _ _ _ Hrun) as [-> ->].
      split; [reflexivity|].
      rewrite map_app, <- app_assoc. simpl. now rewrite Hdim.
    + discriminate.
Qed.

(** C9, as the code has it.  A call that returns lists its results in
    the order of the dimension list it iterates over: the explicit list
    when one is given, otherwise the common columns other than [date],
    the metric and [metric_name] in the iteration order of a Python
    set.  Such a call leaves both tables as they were, so a second
    call with the same set order returns the same list. *)
Theorem results_follow_iteration_order set_iter current previous
  metric_col dimensions mvs macs eps results st :
  calculate_drivers_effects set_iter current previous metric_col
    dimensions mvs macs eps = (Ok results, st) ->
  exists tcc tpc,
    total_contrib current metric_col = Ok tcc
    /\ total_contrib previous metric_col = Ok tpc
    /\ map dimension results
       = filter (yields_result current previous metric_col
                   (len current) (len previous) tcc tpc mvs macs eps)
           (match dimensions with
            | Some ds => ds
            | None => infer_dimensions set_iter current previous
                        metric_col
            end)
    /\ st = (current, previous)
    /\ calculate_drivers_effects set_iter (fst st) (snd st) metric_col
         dimensions mvs macs eps = (Ok results, st).
Proof.
  intros Hrun. pose proof Hrun as Hrun'.
  unfold calculate_drivers_effects in Hrun.
  destruct (total_contrib current metric_col) as [tcc|]; [|discriminate].
  destruct (total_contrib previous metric_col) as [tpc|]; [|discriminate].
  apply process_dimensions_order in Hrun as [-> Horder].
  exists tcc, tpc. repeat split; auto.
Qed.

Lemma results_follow_iteration_order_witness :
  exists results st tcc tpc,
    calculate_drivers_effects (fun l => l)
      (Samples.two_dims 3 1) (Samples.two_dims 1 1) "metric_value"
      (Some ["channel"; "region"]%string)
      default_min_volume_share default_min_abs_contrib_share default_eps
    = (Ok results, st)
    /\ total_contrib (Samples.two_dims 3 1) "metric_value" = Ok tcc
    /\ total_contrib (Samples.two_dims 1 1) "metric_value" = Ok tpc
    /\ map dimension results
       = filter (yields_result (Samples.two_dims 3 1)
                   (Samples.two_dims 1 1) "metric_value"
                   (len (Samples.two_dims 3 1))
                   (len (Samples.two_dims 1 1)) tcc tpc
                   default_min_volume_share
                   default_min_abs_contrib_share default_eps)
           ["channel"; "region"]%string
    /\ st = (Samples.two_dims 3 1, Samples.two_dims 1 1)
    /\ calculate_drivers_effects (fun l => l) (fst st) (snd st)
         "metric_value" (Some ["channel"; "region"]%string)
         default_min_volume_share default_min_abs_contrib_share
         default_eps = (Ok results, st).
Proof.
  do 2 eexists.
  assert (Hrun : calculate_drivers_effects (fun l => l)
            (Samples.two_dims 3 1) (Samples.two_dims 1 1) "metric_value"
            (Some ["channel"; "region"]%string)
            default_min_volume_share default_min_abs_contrib_share
            default_eps = (Ok _, _)) by (vm_compute; reflexivity).
  destruct (results_follow_iteration_order _ _ _ _ _ _ _ _ _ _ Hrun)
    as (tcc & tpc & H).
  exists tcc, tpc. split; [exact Hrun|exact H].
Defined.

(** C9, as stated, fails: both tables list [region] before [channel];
    when the set of common columns iterates the other way round the
    results come out as [channel], [region], and the order changes
    with the iteration order of the set on identical tables. *)
Lemma inferred_order_is_not_column_order :
  exists results results' st,
    calculate_drivers_effects (@rev string)
      (Samples.two_dims 3 1) (Samples.two_dims 1 1) "metric_value" None
      default_min_volume_share default_min_abs_contrib_share default_eps
    = (Ok results, st)
    /\ calculate_drivers_effects (fun l => l)
         (Samples.two_dims 3 1) (Samples.two_dims 1 1) "metric_value"
         None default_min_volume_share default_min_abs_contrib_share
         default_eps
       = (Ok results', st)
    /\ columns (Samples.two_dims 3 1)
       = ["date"; "metric_value"; "region"; "channel"]%string
    /\ columns (Samples.two_dims 1 1)
       = ["date"; "metric_value"; "region"; "channel"]%string
    /\ map dimension results = ["channel"; "region"]%string
    /\ map dimension results' = ["region"; "channel"]%string.
Proof.
  do 3 eexists. repeat split; vm_compute; reflexivity.
Qed.

Lemma Permutation_filter {A} (f : A -> bool) (l l' : list A) :
  Permutation l l' -> Permutation (filter f l) (filter f l').
Proof.
  induction 1; simpl.
  - constructor.
  - destruct (f x); auto.
  - destruct (f x), (f y); auto using Permutation_refl.
    apply perm_swap.
  - eapply Permutation_trans; eauto.
Qed.

(** Whatever the order of the set, the inferred dimensions are the
    common columns other than the three reserved names. *)
Lemma infer_dimensions_permutation set_iter current previous metric_col :
  (forall l, Permutation (set_iter l) l) ->
  Permutation
    (infer_dimensions set_iter current previous metric_col)
    (filter (fun col => negb (mem_string col
                                ["date"; metric_col; "metric_name"]%string))
       (filter (fun c => mem_string c (columns previous))
          (nodup_string (columns current)))).
Proof.
  intros Hperm. unfold infer_dimensions.
  apply Permutation_filter, Hperm.
Qed.
End Dimensions.

(** ** Scenario C: cancelling deltas *)

Section ScenarioC.
Import Drivers.

(** Regions [a] and [b] swap their values 7.5 and 2.5: the category
    deltas are +50 and -50, the total contribution delta is 0, and the
    shares are taken over [10 + 10 + eps]. *)
Lemma normalisation_denominator_never_zero_witness :
  0 < default_eps
  /\ exists results st total_curr_contrib total_prev_contrib,
       calculate_drivers_effects (fun l => l)
         (Samples.regions (15 # 2) (5 # 2))
         (Samples.regions (5 # 2) (15 # 2)) "metric_value" None
         default_min_volume_share default_min_abs_contrib_share
         default_eps = (Ok results, st)
       /\ map (fun r => map (fun x => Qred (d_contrib_delta x))
                              (drivers r)) results
          = [[50; -50]]
       /\ total_contrib (Samples.regions (15 # 2) (5 # 2))
            "metric_value" = Ok total_curr_contrib
       /\ total_contrib (Samples.regions (5 # 2) (15 # 2))
            "metric_value" = Ok total_prev_contrib
       /\ ~ denom total_curr_contrib total_prev_contrib default_eps == 0
       /\ (Qabs (total_curr_contrib - total_prev_contrib) <= default_eps ->
           denom total_curr_contrib total_prev_contrib default_eps
           = Qabs total_curr_contrib + Qabs total_prev_contrib
             + default_eps)
       /\ forall r x,
            In r results -> In x (drivers r) ->
            d_contrib_share_of_change x
            = d_contrib_delta x
              / denom total_curr_contrib total_prev_contrib default_eps.
Proof.
  split; [reflexivity|].
  do 2 eexists.
  assert (Hrun : calculate_drivers_effects (fun l => l)
            (Samples.regions (15 # 2) (5 # 2))
            (Samples.regions (5 # 2) (15 # 2)) "metric_value" None
            default_min_volume_share default_min_abs_contrib_share
            default_eps = (Ok _, _)) by (vm_compute; reflexivity).
  destruct (normalisation_denominator_never_zero _ _ _ _ _ _ _ _ _ _
              (eq_refl : 0 < default_eps) Hrun) as (tcc & tpc & H).
  exists tcc, tpc.
  split; [exact Hrun|]. split; [vm_compute; reflexivity|exact H].
Defined.
End ScenarioC.

(** ** The change detector *)

Section ChangeDetector.
Import Trend.

Lemma get_col_In (name : string) (df : DataFrame) (c : list cell) :
  get_col name df = Some c -> exists n, In (n, c) df.
Proof.
  induction df as [|[n c'] df IH]; simpl; [discriminate|].
  destruct (String.eqb n name).
  - intros H. inversion H; subst. eauto.
  - intros H. destruct (IH H) as [n' Hn']. eauto.
Qed.

Lemma rectangular_length (df : DataFrame) (name : string)
  (c : list cell) :
  rectangular df = true -> get_col name df = Some c ->
  length c = len df.
Proof.
  unfold rectangular. rewrite forallb_forall. intros Hrect Hget.
  destruct (get_col_In _ _ _ Hget) as [n Hin].
  apply Hrect in Hin. simpl in Hin. now apply Nat.eqb_eq.
Qed.

Lemma argsort_bound (keys : list cell) (i : nat) :
  In i (argsort keys) -> (i < length keys)%nat.
Proof.
  unfold argsort. rewrite in_map_iff.
  intros ([k j] & <- & Hin). simpl.
  apply sort_by_In in Hin. apply in_combine_r in Hin.
  apply in_seq in Hin. lia.
Qed.

Lemma get_col_map_values (f : list cell -> list cell) (name : string)
  (df : DataFrame) :
  get_col name
    (map (fun nc : string * list cell => (fst nc, f (snd nc))) df)
  = option_map f (get_col name df).
Proof.
  induction df as [|[n c] df IH]; simpl; [reflexivity|].
  destruct (String.eqb n name); [reflexivity|exact IH].
Qed.

Lemma as_floats_all_num (c : list cell) :
  all_num c = true -> exists qs, as_floats c = Ok qs.
Proof.
  induction c as [|x c IH]; simpl; [eauto|].
  destruct x; try discriminate.
  intros H. destruct (IH H) as [qs ->]. simpl. eauto.
Qed.

Lemma all_num_reorder (c : list cell) (order : list nat) :
  all_num c = true ->
  (forall i, In i order -> (i < length c)%nat) ->
  all_num (map (fun i => nth i c NaN) order) = true.
Proof.
  unfold all_num. rewrite !forallb_forall.
  intros Hc Hbound x Hx.
  apply in_map_iff in Hx as (i & <- & Hi).
  apply Hc, nth_In, Hbound, Hi.
Qed.

(** On a well-formed table both the sort and the read of the metric
    column succeed. *)
Lemma sorted_metric_series (time_col : string) (df : DataFrame) :
  table_ok time_col df = true ->
  exists sorted qs,
    sort_values df time_col = Ok sorted
    /\ metric_series sorted = Ok qs.
Proof.
  unfold table_ok. rewrite !andb_true_iff. intros [[Hrect Ht] Hm].
  destruct (get_col time_col df) as [keys|] eqn:Hkeys; [|discriminate].
  destruct (get_col "metric_value" df) as [c|] eqn:Hc; [|discriminate].
  unfold sort_values. rewrite Hkeys.
  eexists. 
  assert (Hnum : all_num (map (fun i => nth i c NaN) (argsort keys))
                 = true).
  { apply all_num_reorder; [exact Hm|].
    intros i Hi. apply argsort_bound in Hi.
    rewrite (rectangular_length _ _ _ Hrect Hkeys) in Hi.
    now rewrite (rectangular_length _ _ _ Hrect Hc). }
  destruct (as_floats_all_num _ Hnum) as [qs Hqs].
  exists qs. split; [reflexivity|].
  unfold metric_series.
  rewrite (get_col_map_values
             (fun col => map (fun i => nth i col NaN) (argsort keys))).
  rewrite Hc. exact Hqs.
Qed.

(** C7. On tables with the schema that ingestion delivers,
    [detect_change_context] raises the [ValueError] of an empty period
    exactly when the current or the previous period has no rows; it
    then returns nothing else, and for two non-empty periods it
    returns a [ChangeContext]. *)
Theorem detect_change_context_fails_iff_empty_period
  (sqrtQ : Q -> Q) (full_df current previous : DataFrame) :
  schema_ok full_df current previous = true ->
  ((exists msg,
       detect_change_context sqrtQ full_df current previous
       = Raise (ValueError msg))
   <-> empty current = true \/ empty previous = true)
  /\ (empty current = true \/ empty previous = true ->
      detect_change_context sqrtQ full_df current previous
      = Raise (ValueError no_data))
  /\ (empty current = false -> empty previous = false ->
      exists ctx,
        detect_change_context sqrtQ full_df current previous = Ok ctx).
Proof.
  intros Hschema. unfold schema_ok in Hschema.
  destruct (columns full_df) as [|time_col cols] eqn:Hcols;
    [discriminate|].
  rewrite !andb_true_iff in Hschema.
  destruct Hschema as [[Hfull Hcur] Hprev].
  unfold detect_change_context.
  destruct (empty current || empty previous) eqn:Hempty.
  - apply orb_true_iff in Hempty.
    repeat split; eauto.
    intros Hc Hp. destruct Hempty; congruence.
  - apply orb_false_iff in Hempty as [Hc Hp].
    rewrite Hcols.
    destruct (sorted_metric_series _ _ Hfull) as (sf & qf & -> & Hqf).
    destruct (sorted_metric_series _ _ Hcur) as (sc & qc & -> & Hqc).
    destruct (sorted_metric_series _ _ Hprev) as (sp & qp & -> & Hqp).
    simpl bind. rewrite Hqf, Hqc, Hqp. simpl bind.
    repeat split.
    + intros [msg H]. discriminate.
    + intros [H|H]; congruence.
    + intros [H|H]; congruence.
    + eauto.
Qed.

Lemma detect_change_context_fails_iff_empty_period_witness :
  schema_ok Samples.full_series Samples.second_half Samples.first_half
  = true
  /\ ((exists msg,
          detect_change_context (fun x => x) Samples.full_series
            Samples.second_half Samples.first_half
          = Raise (ValueError msg))
      <-> empty Samples.second_half = true
          \/ empty Samples.first_half = true)
  /\ (empty Samples.second_half = true
      \/ empty Samples.first_half = true ->
      detect_change_context (fun x => x) Samples.full_series
        Samples.second_half Samples.first_half
      = Raise (ValueError no_data))
  /\ (empty Samples.second_half = false ->
      empty Samples.first_half = false ->
      exists ctx,
        detect_change_context (fun x => x) Samples.full_series
          Samples.second_half Samples.first_half = Ok ctx).
Proof.
  split; [vm_compute; reflexivity|].
  apply (detect_change_context_fails_iff_empty_period (fun x => x)
           Samples.full_series Samples.second_half Samples.first_half).
  vm_compute; reflexivity.
Defined.
End ChangeDetector.

(** * Further properties *)

(** ** The driver lists *)

Section SortedOutput.
Context {A : Type} (leb : A -> A -> bool).
Hypothesis leb_total : forall a b, leb a b = false -> leb b a = true.
Hypothesis leb_trans :
  forall a b c, leb a b = true -> leb b c = true -> leb a c = true.

Lemma insert_by_sorted (x : A) (l : list A) :
  StronglySorted (fun a b => leb a b = true) l ->
  StronglySorted (fun a b => leb a b = true) (insert_by leb x l).
Proof.
  induction 1 as [|y l Hs IH Hy]; simpl.
  - repeat constructor.
  - destruct (leb x y) eqn:E.
    + constructor; [constructor; assumption|].
      constructor; [exact E|].
      rewrite Forall_forall in *. intros z Hz.
      eapply leb_trans; [exact E|auto].
    + constructor; [exact IH|].
      rewrite Forall_forall in *. intros z Hz.
      apply insert_by_In in Hz as [->|Hz]; auto.
Qed.

Lemma sort_by_sorted (l : list A) :
  StronglySorted (fun a b => leb a b = true) (sort_by leb l).
Proof.
  induction l as [|x l IH]; [constructor|].
  unfold sort_by in *. simpl. now apply insert_by_sorted.
Qed.

Lemma insert_by_perm (x : A) (l : list A) :
  Permutation (insert_by leb x l) (x :: l).
Proof.
  induction l as [|y l IH]; simpl; [reflexivity|].
  destruct (leb x y); [reflexivity|].
  rewrite IH. apply perm_swap.
Qed.

Lemma sort_by_perm (l : list A) : Permutation (sort_by leb l) l.
Proof.
  induction l as [|x l IH]; [reflexivity|].
  unfold sort_by in *. simpl. rewrite insert_by_perm. now constructor.
Qed.
End SortedOutput.

Lemma Qle_bool_total (a b : Q) : Qle_bool a b = false -> Qle_bool b a = true.
Proof.
  intros H. apply Qle_bool_iff.
  destruct (Qlt_le_dec b a) as [Hlt|Hle]; [now apply Qlt_le_weak|].
  apply Qle_bool_iff in Hle. congruence.
Qed.

Lemma Qle_bool_trans (a b c : Q) :
  Qle_bool a b = true -> Qle_bool b c = true -> Qle_bool a c = true.
Proof.
  rewrite !Qle_bool_iff. apply Qle_trans.
Qed.

Section DriverLists.
Import Drivers.

Lemma sort_by_effect_sorted (l : list DriverRecord) :
  StronglySorted (fun a b => d_effect_score b <= d_effect_score a)
    (sort_by_effect l).
Proof.
  unfold sort_by_effect.
  pose proof (sort_by_sorted
                (fun a b => Qle_bool (d_effect_score b) (d_effect_score a))
                (fun a b H => Qle_bool_total _ _ H)
                (fun a b c H1 H2 => Qle_bool_trans _ _ _ H2 H1) l) as Hs.
  induction Hs as [|x s Hs IH Hx]; constructor; [exact IH|].
  rewrite Forall_forall in *. intros y Hy.
  apply Qle_bool_iff. now apply Hx.
Qed.

(** A property of every result that [rank_drivers] can build holds of
    every result that [calculate_drivers_effects] returns. *)
Lemma calculate_results_Forall (P : DriverResult -> Prop)
  set_iter current previous metric_col dimensions mvs macs eps results st :
  (forall dim tcv tpv tcc tpc merged,
      P (rank_drivers dim tcv tpv tcc tpc mvs macs eps merged)) ->
  calculate_drivers_effects set_iter current previous metric_col
    dimensions mvs macs eps = (Ok results, st) ->
  forall r, In r results -> P r.
Proof.
  intros HP Hrun. unfold calculate_drivers_effects in Hrun.
  destruct (total_contrib current metric_col) as [tcc|]; [|discriminate].
  destruct (total_contrib previous metric_col) as [tpc|]; [|discriminate].
  apply Forall_forall.
  eapply process_dimensions_Forall; [|constructor|exact Hrun].
  intros dim merged. apply HP.
Qed.

Lemma rank_drivers_cases dim tcv tpv tcc tpc mvs macs eps merged :
  rank_drivers dim tcv tpv tcc tpc mvs macs eps merged = no_drivers dim
  \/ exists kept,
       incl kept merged
       /\ kept <> []
       /\ Forall (fun m => volume_keep tcv tpv mvs eps m = true
                           /\ contrib_keep (denom tcc tpc eps) macs m = true)
            kept
       /\ rank_drivers dim tcv tpv tcc tpc mvs macs eps merged
          = let records :=
              sort_by_effect
                (map (to_record tcv tpv eps (denom tcc tpc eps)) kept) in
            mkResult dim records
              (firstn 3 (filter (fun r => Qltb 0 (d_contrib_delta r))
                           records))
              (firstn 3 (filter (fun r => Qltb (d_contrib_delta r) 0)
                           records))
              (Some (length records)).
Proof.
  unfold rank_drivers.
  destruct (filter (volume_keep tcv tpv mvs eps) merged) as [|m l] eqn:E1;
    [now left|].
  destruct (filter (contrib_keep (denom tcc tpc eps) macs) (m :: l))
    as [|m' l'] eqn:E2; [now left|].
  right. exists (m' :: l'). repeat split.
  - intros x Hx. rewrite <- E2 in Hx. apply filter_In in Hx as [Hx _].
    rewrite <- E1 in Hx. now apply filter_In in Hx.
  - discriminate.
  - apply Forall_forall. intros x Hx. rewrite <- E2 in Hx.
    apply filter_In in Hx as [Hx Hc]. split; [|exact Hc].
    rewrite <- E1 in Hx. now apply filter_In in Hx.
Qed.

(** The drivers of every returned result are in descending order of
    effect score. *)
Theorem drivers_sorted_by_effect_score set_iter current previous
  metric_col dimensions mvs macs eps results st :
  calculate_drivers_effects set_iter current previous metric_col
    dimensions mvs macs eps = (Ok results, st) ->
  forall r, In r results ->
    StronglySorted (fun a b => d_effect_score b <= d_effect_score a)
      (drivers r).
Proof.
  intros Hrun.
  apply (calculate_results_Forall
           (fun r => StronglySorted
                       (fun a b => d_effect_score b <= d_effect_score a)
                       (drivers r)) _ _ _ _ _ _ _ _ _ _) with (2 := Hrun).
  intros dim tcv tpv tcc tpc merged.
  destruct (rank_drivers_cases dim tcv tpv tcc tpc mvs macs eps merged)
    as [->|(kept & _ & _ & _ & ->)]; simpl.
  - constructor.
  - apply sort_by_effect_sorted.
Qed.
Lemma In_firstn {A} (n : nat) (l : list A) (x : A) :
  In x (firstn n l) -> In x l.
Proof.
  intros H. rewrite <- (firstn_skipn n l). apply in_or_app. now left.
Qed.

Lemma to_record_in_sorted tcv tpv eps d kept x :
  In x (sort_by_effect (map (to_record tcv tpv eps d) kept)) ->
  exists m, In m kept /\ x = to_record tcv tpv eps d m.
Proof.
  unfold sort_by_effect. rewrite sort_by_In, in_map_iff.
  intros (m & <- & Hm). eauto.
Qed.

(** [top_positive] and [top_negative] of every returned result are the
    first three drivers with a positive, respectively negative,
    contribution delta, in the order of the driver list; their entries
    are marked "positive", respectively "negative". *)
Theorem top_lists_take_three_by_sign set_iter current previous
  metric_col dimensions mvs macs eps results st :
  calculate_drivers_effects set_iter current previous metric_col
    dimensions mvs macs eps = (Ok results, st) ->
  forall r, In r results ->
    top_positive r
    = firstn 3 (filter (fun x => Qltb 0 (d_contrib_delta x)) (drivers r))
    /\ top_negative r
       = firstn 3 (filter (fun x => Qltb (d_contrib_delta x) 0) (drivers r))
    /\ (length (top_positive r) <= 3)%nat
    /\ (length (top_negative r) <= 3)%nat
    /\ (forall x, In x (top_positive r) ->
          In x (drivers r) /\ 0 < d_contrib_delta x
          /\ d_direction x = "positive"%string)
    /\ (forall x, In x (top_negative r) ->
          In x (drivers r) /\ d_contrib_delta x < 0
          /\ d_direction x = "negative"%string).
Proof.
  intros Hrun.
  apply (calculate_results_Forall
           (fun r =>
              top_positive r
              = firstn 3 (filter (fun x => Qltb 0 (d_contrib_delta x))
                            (drivers r))
              /\ top_negative r
                 = firstn 3 (filter (fun x => Qltb (d_contrib_delta x) 0)
                               (drivers r))
              /\ (length (top_positive r) <= 3)%nat
              /\ (length (top_negative r) <= 3)%nat
              /\ (forall x, In x (top_positive r) ->
                    In x (drivers r) /\ 0 < d_contrib_delta x
                    /\ d_direction x = "positive"%string)
              /\ (forall x, In x (top_negative r) ->
                    In x (drivers r) /\ d_contrib_delta x < 0
                    /\ d_direction x = "negative"%string))
           _ _ _ _ _ _ _ _ _ _) with (2 := Hrun).
  intros dim tcv tpv tcc tpc merged.
  destruct (rank_drivers_cases dim tcv tpv tcc tpc mvs macs eps merged)
    as [->|(kept & _ & _ & _ & ->)]; cbn [drivers top_positive top_negative
                                           no_drivers].
  - simpl. repeat split; try lia; intros x [].
  - repeat split; try apply firstn_le_length.
    + now apply In_firstn, filter_In in H.
    + apply In_firstn, filter_In in H as [_ H]. now apply Qltb_true.
    + apply In_firstn, filter_In in H as [Hx H].
      apply to_record_in_sorted in Hx as (m & _ & ->).
      apply Qltb_true in H. cbn [d_direction d_contrib_delta to_record] in *.
      destruct (Qle_bool 0 (contrib_delta m)) eqn:E; [reflexivity|].
      apply Qlt_le_weak, Qle_bool_iff in H. congruence.
    + now apply In_firstn, filter_In in H.
    + apply In_firstn, filter_In in H as [_ H]. now apply Qltb_true.
    + apply In_firstn, filter_In in H as [Hx H].
      apply to_record_in_sorted in Hx as (m & _ & ->).
      apply Qltb_true in H. cbn [d_direction d_contrib_delta to_record] in *.
      destruct (Qle_bool 0 (contrib_delta m)) eqn:E; [|reflexivity].
      apply Qle_bool_iff in E. lra.
Qed.

(** Every returned driver passed both filters: its effect score, the
    absolute value of its share of the change, reaches
    [min_abs_contrib_share], and its volume share reaches
    [min_volume_share] in at least one period. *)
Theorem returned_drivers_pass_both_filters set_iter current previous
  metric_col dimensions mvs macs eps results st :
  calculate_drivers_effects set_iter current previous metric_col
    dimensions mvs macs eps = (Ok results, st) ->
  forall r x, In r results -> In x (drivers r) ->
    d_effect_score x = Qabs (d_contrib_share_of_change x)
    /\ macs <= d_effect_score x
    /\ (mvs <= d_volume_share_curr x \/ mvs <= d_volume_share_prev x).
Proof.
  intros Hrun r x Hr. revert x.
  apply (calculate_results_Forall
           (fun r => forall x, In x (drivers r) ->
              d_effect_score x = Qabs (d_contrib_share_of_change x)
              /\ macs <= d_effect_score x
              /\ (mvs <= d_volume_share_curr x
                  \/ mvs <= d_volume_share_prev x))
           _ _ _ _ _ _ _ _ _ _) with (2 := Hrun); [|exact Hr].
  intros dim tcv tpv tcc tpc merged.
  destruct (rank_drivers_cases dim tcv tpv tcc tpc mvs macs eps merged)
    as [->|(kept & _ & _ & Hkept & ->)]; cbn [drivers no_drivers].
  - intros x [].
  - intros x Hx. apply to_record_in_sorted in Hx as (m & Hm & ->).
    rewrite Forall_forall in Hkept. destruct (Hkept m Hm) as [Hv Hc].
    cbn [d_effect_score d_contrib_share_of_change d_volume_share_curr
         d_volume_share_prev to_record].
    split; [reflexivity|]. split.
    + now apply Qle_bool_iff.
    + unfold volume_keep in Hv. apply orb_true_iff in Hv.
      destruct Hv as [Hv|Hv]; apply Qle_bool_iff in Hv; auto.
Qed.

(** The count that [build_output_json] reports for a dimension is the
    number of its drivers, also for a result that carries no
    [num_drivers] entry; the entry is missing exactly when there is no
    driver. *)
Theorem by_dimension_counts_the_drivers set_iter current previous
  metric_col dimensions mvs macs eps results st :
  calculate_drivers_effects set_iter current previous metric_col
    dimensions mvs macs eps = (Ok results, st) ->
  map JsonBuilder.s_num_drivers (JsonBuilder.by_dimension results)
  = map (fun r => length (drivers r)) results
  /\ map JsonBuilder.s_dimension (JsonBuilder.by_dimension results)
     = map dimension results
  /\ forall r, In r results -> (num_drivers r = None <-> drivers r = []).
Proof.
  intros Hrun.
  assert (H : forall r, In r results ->
              (num_drivers r = None <-> drivers r = [])
              /\ JsonBuilder.s_num_drivers (JsonBuilder.dimension_summary r)
                 = length (drivers r)).
  { apply (calculate_results_Forall
             (fun r => (num_drivers r = None <-> drivers r = [])
                       /\ JsonBuilder.s_num_drivers
                            (JsonBuilder.dimension_summary r)
                          = length (drivers r))
             _ _ _ _ _ _ _ _ _ _) with (2 := Hrun).
    intros dim tcv tpv tcc tpc merged.
    destruct (rank_drivers_cases dim tcv tpv tcc tpc mvs macs eps merged)
      as [->|(kept & _ & Hne & _ & ->)]; simpl.
    - tauto.
    - split; [|reflexivity]. split; [discriminate|].
      intros H. apply sort_by_nil in H.
      destruct kept; [contradiction|discriminate]. }
  unfold JsonBuilder.by_dimension. rewrite !map_map.
  repeat split.
  - apply map_ext_in. intros r Hr. now apply H.
  - now apply H.
  - now apply H.
Qed.
Lemma drivers_sorted_by_effect_score_witness :
  exists results st,
    Runs.default_run Runs.mixed_current Runs.mixed_previous
    = (Ok results, st)
    /\ forall r, In r results ->
         StronglySorted (fun a b => d_effect_score b <= d_effect_score a)
           (drivers r).
Proof.
  do 2 eexists.
  assert (Hrun : Runs.default_run Runs.mixed_current Runs.mixed_previous
                 = (Ok _, _)) by (vm_compute; reflexivity).
  split; [exact Hrun|].
  exact (drivers_sorted_by_effect_score _ _ _ _ _ _ _ _ _ _ Hrun).
Defined.

Lemma top_lists_take_three_by_sign_witness :
  exists results st,
    Runs.default_run Runs.mixed_current Runs.mixed_previous
    = (Ok results, st)
    /\ map (fun r => (map d_category (top_positive r),
                      map d_category (top_negative r))) results
       = [([Str "a"], [Str "b"])]
    /\ forall r, In r results ->
         top_positive r
         = firstn 3 (filter (fun x => Qltb 0 (d_contrib_delta x))
                       (drivers r))
         /\ top_negative r
            = firstn 3 (filter (fun x => Qltb (d_contrib_delta x) 0)
                          (drivers r))
         /\ (length (top_positive r) <= 3)%nat
         /\ (length (top_negative r) <= 3)%nat
         /\ (forall x, In x (top_positive r) ->
               In x (drivers r) /\ 0 < d_contrib_delta x
               /\ d_direction x = "positive"%string)
         /\ (forall x, In x (top_negative r) ->
               In x (drivers r) /\ d_contrib_delta x < 0
               /\ d_direction x = "negative"%string).
Proof.
  do 2 eexists.
  assert (Hrun : Runs.default_run Runs.mixed_current Runs.mixed_previous
                 = (Ok _, _)) by (vm_compute; reflexivity).
  split; [exact Hrun|]. split; [vm_compute; reflexivity|].
  exact (top_lists_take_three_by_sign _ _ _ _ _ _ _ _ _ _ Hrun).
Defined.

Lemma returned_drivers_pass_both_filters_witness :
  exists results st,
    Runs.default_run Runs.mixed_current Runs.mixed_previous
    = (Ok results, st)
    /\ forall r x, In r results -> In x (drivers r) ->
         d_effect_score x = Qabs (d_contrib_share_of_change x)
         /\ default_min_abs_contrib_share <= d_effect_score x
         /\ (default_min_volume_share <= d_volume_share_curr x
             \/ default_min_volume_share <= d_volume_share_prev x).
Proof.
  do 2 eexists.
  assert (Hrun : Runs.default_run Runs.mixed_current Runs.mixed_previous
                 = (Ok _, _)) by (vm_compute; reflexivity).
  split; [exact Hrun|].
  exact (returned_drivers_pass_both_filters _ _ _ _ _ _ _ _ _ _ Hrun).
Defined.

Lemma by_dimension_counts_the_drivers_witness :
  exists results st,
    Runs.default_run (Samples.two_dims 3 1) Runs.swapped_previous
    = (Ok results, st)
    /\ map num_drivers results = [Some 2%nat; None]
    /\ map JsonBuilder.s_num_drivers (JsonBuilder.by_dimension results)
       = map (fun r => length (drivers r)) results
    /\ map JsonBuilder.s_dimension (JsonBuilder.by_dimension results)
       = map dimension results
    /\ forall r, In r results -> (num_drivers r = None <-> drivers r = []).
Proof.
  do 2 eexists.
  assert (Hrun : Runs.default_run (Samples.two_dims 3 1)
                   Runs.swapped_previous
                 = (Ok _, _)) by (vm_compute; reflexivity).
  split; [exact Hrun|]. split; [vm_compute; reflexivity|].
  exact (by_dimension_counts_the_drivers _ _ _ _ _ _ _ _ _ _ Hrun).
Defined.
End DriverLists.

(** ** Which calls return *)

Section Returns.
Import Drivers.





Lemma process_dimension_needs_metric current previous metric_col dim
  tcv tpv tcc tpc mvs macs eps r st :
  get_col metric_col current = None \/ get_col metric_col previous = None ->
  process_dimension current previous metric_col dim
    tcv tpv tcc tpc mvs macs eps <> (Appended r, st).
Proof.
  intros Hmiss Hstep.
  pose proof (process_dimension_frame _ _ _ _ _ _ _ _ _ _ _ _ _ Hstep)
    as [-> _].
  unfold process_dimension in Hstep.
  destruct (get_col dim current) as [cc|] eqn:Hc; [|discriminate].
  destruct (get_col dim previous) as [pc|] eqn:Hp; [|discriminate].
  destruct (constant_dimension cc pc); [discriminate|].
  destruct (is_continuous_series (cc ++ pc) 20).
  - destruct (bin_continuous_dimension_ok current previous dim 10 10 cc pc
                Hc Hp) as (bc & bp & Hbin).
    rewrite Hbin in Hstep.
    destruct (aggregate_and_merge_binned_raises
                (set_col (binned_name dim) bc current)
                (set_col (binned_name dim) bp previous) metric_col dim)
      as [e He].
    rewrite He in Hstep. discriminate.
  - unfold aggregate_and_merge, groupby_agg in Hstep.
    rewrite Hc, Hp in Hstep.
    destruct Hmiss as [Hm|Hm].
    + rewrite Hm in Hstep. discriminate.
    + rewrite Hm in Hstep.
      destruct (get_col metric_col current); discriminate.
Qed.

Lemma process_dimensions_needs_metric metric_col tcv tpv tcc tpc mvs macs
  eps current previous :
  get_col metric_col current = None \/ get_col metric_col previous = None ->
  forall dims results0 results st,
    process_dimensions dims current previous metric_col
      tcv tpv tcc tpc mvs macs eps results0 = (Ok results, st) ->
    results = results0.
Proof.
  intros Hmiss dims.
  induction dims as [|dim rest IH]; intros results0 results st Hrun;
    simpl in Hrun.
  - now inversion Hrun.
  - destruct (process_dimension current previous metric_col dim
                tcv tpv tcc tpc mvs macs eps) as [o [c p]] eqn:Hstep.
    destruct o as [|r|e].
    + pose proof (process_dimension_frame _ _ _ _ _ _ _ _ _ _ _ _ _ Hstep)
        as Hst.
      inversion Hst; subst c p. eapply IH; eauto.
    + exfalso.
      eapply process_dimension_needs_metric; eauto.
    + discriminate.
Qed.

(** Without the metric column in one of the tables the call gives no
    result for any dimension: whenever it returns, it returns the empty
    list. *)
Theorem missing_metric_column_gives_no_result set_iter current previous
  metric_col dimensions mvs macs eps results st :
  get_col metric_col current = None \/ get_col metric_col previous = None ->
  calculate_drivers_effects set_iter current previous metric_col
    dimensions mvs macs eps = (Ok results, st) ->
  results = [].
Proof.
  intros Hmiss Hrun. unfold calculate_drivers_effects in Hrun.
  destruct (total_contrib current metric_col); [|discriminate].
  destruct (total_contrib previous metric_col); [|discriminate].
  eapply process_dimensions_needs_metric; eauto.
Qed.

Lemma missing_metric_column_gives_no_result_witness :
  get_col "metric_value" Runs.no_metric = None
  /\ exists results st,
       Runs.default_run Runs.no_metric Runs.one_region = (Ok results, st)
       /\ results = [].
Proof.
  split; [reflexivity|].
  do 2 eexists.
  assert (Hrun : Runs.default_run Runs.no_metric Runs.one_region
                 = (Ok _, _)) by (vm_compute; reflexivity).
  split; [exact Hrun|].
  exact (missing_metric_column_gives_no_result (fun l => l)
           Runs.no_metric Runs.one_region "metric_value" None
           default_min_volume_share default_min_abs_contrib_share
           default_eps _ _ (or_introl eq_refl) Hrun).
Defined.
End Returns.

(** ** Which dimensions get a result *)

Section ResultDimensions.
Import Drivers.

Lemma mem_string_In (s : string) (l : list string) :
  mem_string s l = true <-> In s l.
Proof.
  unfold mem_string. rewrite existsb_exists. split.
  - intros (x & Hx & E). apply String.eqb_eq in E. now subst.
  - intros H. exists s. split; [exact H|apply String.eqb_refl].
Qed.

Lemma yields_result_columns current previous metric_col tcv tpv tcc tpc
  mvs macs eps dim :
  yields_result current previous metric_col tcv tpv tcc tpc mvs macs eps
    dim = true ->
  exists cc pc,
    get_col dim current = Some cc /\ get_col dim previous = Some pc
    /\ ((1 < nunique cc)%nat \/ (1 < nunique pc)%nat).
Proof.
  unfold yields_result, process_dimension.
  destruct (get_col dim current) as [cc|]; [|discriminate].
  destruct (get_col dim previous) as [pc|]; [|discriminate].
  destruct (constant_dimension cc pc) eqn:Hk; [discriminate|].
  intros _. exists cc, pc. repeat split.
  destruct (Nat.leb (nunique cc) 1) eqn:E1;
    [|apply Nat.leb_gt in E1; now left].
  destruct (Nat.leb (nunique pc) 1) eqn:E2;
    [|apply Nat.leb_gt in E2; now right].
  unfold constant_dimension in Hk. rewrite E1, E2 in Hk. discriminate.
Qed.

(** Every returned result is for a dimension that is a column of both
    tables and has more than one distinct value in at least one period;
    when the dimensions are inferred it is never [date], the metric
    column or [metric_name]. *)
Theorem results_are_for_varying_common_columns set_iter current previous
  metric_col dimensions mvs macs eps results st :
  calculate_drivers_effects set_iter current previous metric_col
    dimensions mvs macs eps = (Ok results, st) ->
  forall r, In r results ->
    (exists cc pc,
        get_col (dimension r) current = Some cc
        /\ get_col (dimension r) previous = Some pc
        /\ ((1 < nunique cc)%nat \/ (1 < nunique pc)%nat))
    /\ (dimensions = None ->
        ~ In (dimension r) ["date"; metric_col; "metric_name"]%string).
Proof.
  intros Hrun r Hr. unfold calculate_drivers_effects in Hrun.
  destruct (total_contrib current metric_col) as [tcc|]; [|discriminate].
  destruct (total_contrib previous metric_col) as [tpc|]; [|discriminate].
  apply process_dimensions_order in Hrun as [_ Hnames].
  simpl in Hnames.
  assert (Hin : In (dimension r) (map dimension results))
    by now apply in_map.
  rewrite Hnames in Hin. apply filter_In in Hin as [Hdims Hy].
  split; [eapply yields_result_columns; eauto|].
  intros ->. unfold infer_dimensions in Hdims.
  apply filter_In in Hdims as [_ Hnot].
  apply negb_true_iff in Hnot. intros Hres.
  apply mem_string_In in Hres. congruence.
Qed.

Lemma results_are_for_varying_common_columns_witness :
  exists results st,
    Runs.default_run (Samples.two_dims 3 1) Runs.swapped_previous
    = (Ok results, st)
    /\ map dimension results = ["region"; "channel"]%string
    /\ forall r, In r results ->
         (exists cc pc,
             get_col (dimension r) (Samples.two_dims 3 1) = Some cc
             /\ get_col (dimension r) Runs.swapped_previous = Some pc
             /\ ((1 < nunique cc)%nat \/ (1 < nunique pc)%nat))
         /\ (@None (list string) = None ->
             ~ In (dimension r)
                 ["date"; "metric_value"; "metric_name"]%string).
Proof.
  do 2 eexists.
  assert (Hrun : Runs.default_run (Samples.two_dims 3 1)
                   Runs.swapped_previous
                 = (Ok _, _)) by (vm_compute; reflexivity).
  split; [exact Hrun|]. split; [vm_compute; reflexivity|].
  exact (results_are_for_varying_common_columns (fun l => l)
           (Samples.two_dims 3 1) Runs.swapped_previous "metric_value"
           None default_min_volume_share default_min_abs_contrib_share
           default_eps _ _ Hrun).
Defined.

(** [bin_continuous_dimension] raises [KeyError] when [dim] is missing
    from a table.  Otherwise it returns, and in each table the only
    column it writes is [<dim>_binned]: every other column reads as
    before, the new column has as many rows as the raw one, and it is
    the raw column itself whenever the binning branch is not taken. *)
Theorem binner_writes_one_column current previous dim n_bins min_unique :
  match get_col dim current, get_col dim previous with
  | Some cc, Some pc =>
      exists current' previous' bc bp,
        bin_continuous_dimension current previous dim n_bins min_unique
        = Ok (current', previous')
        /\ (forall other, other <> binned_name dim ->
              get_col other current' = get_col other current
              /\ get_col other previous' = get_col other previous)
        /\ get_col (binned_name dim) current' = Some bc
        /\ get_col (binned_name dim) previous' = Some bp
        /\ length bc = length cc /\ length bp = length pc
        /\ (bins_applied cc pc n_bins min_unique = false ->
            bc = cc /\ bp = pc)
  | _, _ =>
      bin_continuous_dimension current previous dim n_bins min_unique
      = Raise (KeyError dim)
  end.
Proof.
  unfold bin_continuous_dimension, bins_applied, unbinned.
  destruct (get_col dim current) as [cc|]; [|reflexivity].
  destruct (get_col dim previous) as [pc|]; [|reflexivity].
  assert (Hframe : forall bc bp other, other <> binned_name dim ->
            get_col other (set_col (binned_name dim) bc current)
            = get_col other current
            /\ get_col other (set_col (binned_name dim) bp previous)
               = get_col other previous).
  { intros bc bp other Hne.
    split; apply get_col_set_col_other; congruence. }
  assert (Hdone : forall bc bp,
            length bc = length cc -> length bp = length pc ->
            (negb (Nat.ltb (nunique (cc ++ pc)) min_unique)
             && is_numeric_dtype (cc ++ pc)
             && negb (Nat.leb (length (bin_edges (cc ++ pc) n_bins)) 1)
             = false -> bc = cc /\ bp = pc) ->
            exists current' previous' bc' bp',
              Ok (set_col (binned_name dim) bc current,
                  set_col (binned_name dim) bp previous)
              = Ok (current', previous')
              /\ (forall other, other <> binned_name dim ->
                    get_col other current' = get_col other current
                    /\ get_col other previous' = get_col other previous)
              /\ get_col (binned_name dim) current' = Some bc'
              /\ get_col (binned_name dim) previous' = Some bp'
              /\ length bc' = length cc /\ length bp' = length pc
              /\ (negb (Nat.ltb (nunique (cc ++ pc)) min_unique)
                  && is_numeric_dtype (cc ++ pc)
                  && negb (Nat.leb (length (bin_edges (cc ++ pc) n_bins)) 1)
                  = false -> bc' = cc /\ bp' = pc)).
  { intros bc bp Hlc Hlp Hraw.
    exists (set_col (binned_name dim) bc current),
           (set_col (binned_name dim) bp previous), bc, bp.
    split; [reflexivity|]. split; [apply Hframe|].
    split; [apply get_col_set_col|]. split; [apply get_col_set_col|].
    auto. }
  destruct (Nat.ltb (nunique (cc ++ pc)) min_unique);
    [apply Hdone; auto|].
  destruct (is_numeric_dtype (cc ++ pc)); simpl negb; cbv iota;
    [|apply Hdone; auto].
  destruct (Nat.leb (length (bin_edges (cc ++ pc) n_bins)) 1);
    [apply Hdone; auto|].
  apply Hdone; try apply length_map. discriminate.
Qed.
End ResultDimensions.

(** ** Buckets *)

Section Buckets.
Import Drivers.

Lemma filter_length_lt {A} (f : A -> bool) (l : list A) (x : A) :
  In x l -> f x = false -> (length (filter f l) < length l)%nat.
Proof.
  induction l as [|y l IH]; simpl; [intros []|].
  intros [->|Hx] Hf.
  - rewrite Hf. pose proof (filter_length_le f l). lia.
  - specialize (IH Hx Hf). destruct (f y); simpl; lia.
Qed.

Lemma last_In {A} (l : list A) (d : A) : l <> [] -> In (last l d) l.
Proof.
  induction l as [|x l IH]; [congruence|]. intros _.
  destruct l as [|y l]; [now left|].
  right. apply IH. discriminate.
Qed.

(** A number between the first and the last edge falls into a bucket. *)
Lemma cut_in_range (bins : list Q) (labels : list string) (x : Q) :
  (2 <= length bins)%nat ->
  length labels = (length bins - 1)%nat ->
  hd 0 bins <= x -> x <= last bins 0 ->
  exists l, cut bins labels (Num x) = Str l /\ In l labels.
Proof.
  intros Hlen Hlab Hlo Hhi. unfold cut.
  assert (Hid : forall id, (1 <= id)%nat -> (id < length bins)%nat ->
            exists l,
              (if Nat.eqb id 0 || Nat.eqb id (length bins) then NaN
               else match nth_error labels (id - 1) with
                    | Some l => Str l
                    | None => NaN
                    end) = Str l /\ In l labels).
  { intros id H1 H2.
    destruct (Nat.eqb id 0) eqn:E0; [apply Nat.eqb_eq in E0; lia|].
    destruct (Nat.eqb id (length bins)) eqn:E1;
      [apply Nat.eqb_eq in E1; lia|].
    simpl. destruct (nth_error labels (id - 1)) as [l|] eqn:En.
    - exists l. split; [reflexivity|]. eapply nth_error_In; eauto.
    - apply nth_error_None in En. lia. }
  destruct (Qeq_bool x (hd 0 bins)) eqn:E; [apply Hid; lia|].
  apply Hid; unfold searchsorted_left.
  - destruct bins as [|h t]; [simpl in Hlen; lia|].
    simpl in *. assert (Hlt : Qltb h x = true).
    { apply Qltb_true. apply Qeq_bool_neq in E.
      destruct (Qlt_le_dec h x) as [H|H]; [exact H|].
      exfalso. apply E. now apply Qle_antisym. }
    rewrite Hlt. simpl. lia.
  - apply filter_length_lt with (x := last bins 0).
    + apply last_In. destruct bins; [simpl in Hlen; lia|discriminate].
    + now apply Qltb_false.
Qed.

Lemma sorted_bounds (l : list Q) (x : Q) :
  StronglySorted (fun a b => Qle_bool a b = true) l -> In x l ->
  hd 0 l <= x /\ x <= last l 0.
Proof.
  induction 1 as [|y l Hs IH Hy]; [intros []|].
  rewrite Forall_forall in Hy. intros [->|Hx].
  - split; [apply Qle_refl|].
    destruct l as [|z l]; [apply Qle_refl|].
    apply Qle_bool_iff, Hy.
    change (last (x :: z :: l) 0) with (last (z :: l) 0).
    apply last_In. discriminate.
  - split; [apply Qle_bool_iff, Hy, Hx|].
    destruct l as [|z l]; [destruct Hx|].
    change (last (y :: z :: l) 0) with (last (z :: l) 0).
    now apply IH.
Qed.

Lemma sortQ_sorted (l : list Q) :
  StronglySorted (fun a b => Qle_bool a b = true) (sort_by Qle_bool l).
Proof.
  apply sort_by_sorted.
  - apply Qle_bool_total.
  - apply Qle_bool_trans.
Qed.

Lemma dedupQ_keeps (l : list Q) (y : Q) :
  In y l -> exists y', In y' (dedupQ l) /\ y == y'.
Proof.
  revert y. induction l as [|x l IH]; intros y; [intros []|]. simpl.
  intros [->|Hy].
  - destruct (existsb (Qeq_bool y) l) eqn:E.
    + apply existsb_exists in E as (z & Hz & Hyz).
      apply Qeq_bool_iff in Hyz.
      destruct (IH z Hz) as (y' & Hy' & Hzy').
      exists y'. split; [exact Hy'|]. now rewrite Hyz.
    + exists y. split; [now left|reflexivity].
  - destruct (IH y Hy) as (y' & Hy' & E).
    destruct (existsb (Qeq_bool x) l); eauto.
    exists y'. split; [now right|exact E].
Qed.

Lemma nth_last {A} (l : list A) (d : A) :
  nth (length l - 1) l d = last l d.
Proof.
  induction l as [|x l IH]; [reflexivity|].
  destruct l as [|y l]; [reflexivity|].
  simpl length in *. replace (S (S (length l)) - 1)%nat with
    (S (S (length l) - 1)) by lia.
  exact IH.
Qed.

Lemma quantile_0 (vs : list Q) (q : Q) :
  q == 0 -> quantile vs q == hd 0 (sort_by Qle_bool vs).
Proof.
  intros Hq. unfold quantile.
  set (sorted := sort_by Qle_bool vs).
  assert (Hpos : q * Qnat (length sorted - 1) == 0)
    by (rewrite Hq; ring).
  rewrite (Qfloor_comp _ _ Hpos). change (Qfloor 0) with 0%Z.
  simpl Z.to_nat. rewrite Hpos.
  destruct sorted; simpl; ring.
Qed.

Lemma quantile_1 (vs : list Q) (q : Q) :
  q == 1 -> quantile vs q == last (sort_by Qle_bool vs) 0.
Proof.
  intros Hq. unfold quantile.
  set (sorted := sort_by Qle_bool vs).
  assert (Hpos : q * Qnat (length sorted - 1)
                 == inject_Z (Z.of_nat (length sorted - 1)))
    by (rewrite Hq; unfold Qnat; ring).
  rewrite (Qfloor_comp _ _ Hpos), Qfloor_Z, Nat2Z.id, Hpos.
  rewrite nth_last. ring.
Qed.

Lemma linspace01_ends (n_bins : nat) :
  (1 <= n_bins)%nat ->
  (exists q, In q (linspace01 n_bins) /\ q == 0)
  /\ (exists q, In q (linspace01 n_bins) /\ q == 1).
Proof.
  intros Hn. unfold linspace01. split.
  - exists (Qnat 0 / Qnat n_bins). split.
    + apply in_map_iff. exists 0%nat. split; [reflexivity|].
      apply in_seq. lia.
    + unfold Qnat. simpl. unfold Qdiv. ring.
  - exists (Qnat n_bins / Qnat n_bins). split.
    + apply in_map_iff. exists n_bins. split; [reflexivity|].
      apply in_seq. lia.
    + unfold Qnat. field. intros H.
      assert (inject_Z (Z.of_nat n_bins) == inject_Z 0) as H' by exact H.
      apply (proj1 (inject_Z_injective _ _)) in H'. lia.
Qed.

(** The edges span the data: every number of the combined column lies
    between the first and the last edge. *)
Lemma bin_edges_span (combined : list cell) (n_bins : nat) (x : Q) :
  (1 <= n_bins)%nat ->
  In x (numeric_values combined) ->
  hd 0 (bin_edges combined n_bins) <= x
  /\ x <= last (bin_edges combined n_bins) 0.
Proof.
  intros Hn Hx. unfold bin_edges, np_unique.
  set (vs := numeric_values combined) in *.
  destruct (linspace01_ends n_bins Hn) as [(q0 & Hq0 & E0) (q1 & Hq1 & E1)].
  assert (Hxs : In x (sort_by Qle_bool vs)) by now apply sort_by_In.
  destruct (sorted_bounds _ _ (sortQ_sorted vs) Hxs) as [Hmin Hmax].
  set (qs := map (quantile vs) (linspace01 n_bins)).
  assert (Hedge : forall q, In q (linspace01 n_bins) ->
            exists e, In e (sort_by Qle_bool (dedupQ qs))
                      /\ quantile vs q == e).
  { intros q Hq.
    destruct (dedupQ_keeps qs (quantile vs q)) as (e & He & Eq).
    - unfold qs. now apply in_map.
    - exists e. split; [now apply sort_by_In|exact Eq]. }
  destruct (Hedge q0 Hq0) as (e0 & He0 & Ee0).
  destruct (Hedge q1 Hq1) as (e1 & He1 & Ee1).
  destruct (sorted_bounds _ _ (sortQ_sorted (dedupQ qs)) He0) as [Hlo _].
  destruct (sorted_bounds _ _ (sortQ_sorted (dedupQ qs)) He1) as [_ Hhi].
  rewrite <- Ee0 in Hlo. rewrite <- Ee1 in Hhi.
  rewrite (quantile_0 vs q0 E0) in Hlo.
  rewrite (quantile_1 vs q1 E1) in Hhi.
  split; eapply Qle_trans; eauto.
Qed.
Lemma bins_applied_n_bins (cc pc : list cell) (n_bins min_unique : nat) :
  bins_applied cc pc n_bins min_unique = true -> (1 <= n_bins)%nat.
Proof.
  unfold bins_applied. rewrite !andb_true_iff. intros [_ He].
  destruct n_bins; [|lia]. discriminate.
Qed.

Lemma In_numeric_values (x : Q) (l : list cell) :
  In (Num x) l -> In x (numeric_values l).
Proof.
  intros H. unfold numeric_values. apply in_flat_map.
  exists (Num x). split; [exact H|now left].
Qed.

Lemma Forall2_map_r {A B} (P : A -> B -> Prop) (f : A -> B) (l : list A) :
  (forall a, In a l -> P a (f a)) -> Forall2 P l (map f l).
Proof.
  induction l as [|a l IH]; intros H; simpl; constructor.
  - apply H. now left.
  - apply IH. intros b Hb. apply H. now right.
Qed.

(** When the binning branch is taken, every number of either period's
    column gets one of the bucket labels, and only a missing value stays
    missing: no row is lost to a value outside the edges. *)
Theorem binning_gives_every_number_a_bucket current previous dim n_bins
  min_unique cc pc :
  get_col dim current = Some cc ->
  get_col dim previous = Some pc ->
  bins_applied cc pc n_bins min_unique = true ->
  exists current' previous' bc bp,
    bin_continuous_dimension current previous dim n_bins min_unique
    = Ok (current', previous')
    /\ get_col (binned_name dim) current' = Some bc
    /\ get_col (binned_name dim) previous' = Some bp
    /\ Forall2 (fun raw b =>
                  match raw with
                  | Num _ =>
                      exists l,
                        b = Str l
                        /\ In l (bin_labels dim
                                   (bin_edges (cc ++ pc) n_bins))
                  | _ => b = NaN
                  end) (cc ++ pc) (bc ++ bp)
    /\ length bc = length cc.
Proof.
  intros Hc Hp Hb.
  pose proof (bins_applied_n_bins _ _ _ _ Hb) as Hn.
  unfold bins_applied in Hb.
  apply andb_prop in Hb as [Hb He]. apply andb_prop in Hb as [Hu Hnum].
  apply negb_true_iff in Hu, He.
  unfold bin_continuous_dimension.
  rewrite Hc, Hp, Hu, Hnum. simpl negb. cbv iota zeta.
  rewrite He.
  set (edges := bin_edges (cc ++ pc) n_bins) in *.
  set (labels := bin_labels dim edges).
  exists (set_col (binned_name dim) (map (cut edges labels) cc) current),
         (set_col (binned_name dim) (map (cut edges labels) pc) previous),
         (map (cut edges labels) cc), (map (cut edges labels) pc).
  split; [reflexivity|].
  split; [apply get_col_set_col|]. split; [apply get_col_set_col|].
  split; [|apply length_map].
  rewrite <- map_app. apply Forall2_map_r.
  intros [x|s|] Hin; [|reflexivity|reflexivity].
  apply Nat.leb_gt in He.
  destruct (bin_edges_span (cc ++ pc) n_bins x Hn
              (In_numeric_values _ _ Hin)) as [Hlo Hhi].
  apply cut_in_range; auto.
  unfold labels, bin_labels. now rewrite length_map, length_seq.
Qed.

Lemma binning_gives_every_number_a_bucket_witness :
  bins_applied (Samples.nums 0 11) (Samples.nums 11 11) 10 10 = true
  /\ exists current' previous' bc bp,
       bin_continuous_dimension Samples.continuous_current
         Samples.continuous_previous "x" 10 10
       = Ok (current', previous')
       /\ get_col (binned_name "x") current' = Some bc
       /\ get_col (binned_name "x") previous' = Some bp
       /\ Forall2 (fun raw b =>
                     match raw with
                     | Num _ =>
                         exists l,
                           b = Str l
                           /\ In l (bin_labels "x"
                                      (bin_edges (Samples.nums 0 11
                                                  ++ Samples.nums 11 11)
                                         10))
                     | _ => b = NaN
                     end)
            (Samples.nums 0 11 ++ Samples.nums 11 11) (bc ++ bp)
       /\ length bc = length (Samples.nums 0 11).
Proof.
  split; [vm_compute; reflexivity|].
  apply (binning_gives_every_number_a_bucket Samples.continuous_current
           Samples.continuous_previous "x" 10 10
           (Samples.nums 0 11) (Samples.nums 11 11));
    vm_compute; reflexivity.
Defined.
End Buckets.

(** ** Volumes across categories *)

Section Volumes.
Import Drivers.

Lemma cell_eqb_compat (a b x : cell) :
  cell_eqb a b = true -> cell_eqb a x = cell_eqb b x.
Proof.
  intros Hab.
  destruct (cell_eqb b x) eqn:Hbx.
  - eapply cell_eqb_trans; eauto.
  - destruct (cell_eqb a x) eqn:Hax; [|reflexivity].
    rewrite cell_eqb_sym in Hab.
    rewrite (cell_eqb_trans _ _ _ Hab Hax) in Hbx. discriminate.
Qed.

Lemma mem_cell_compat (a b : cell) (l : list cell) :
  cell_eqb a b = true -> mem_cell a l = mem_cell b l.
Proof.
  intros Hab. induction l as [|x l IH]; [reflexivity|].
  rewrite !mem_cell_cons, IH. now rewrite (cell_eqb_compat a b x).
Qed.

Lemma mem_cell_true (c : cell) (l : list cell) :
  mem_cell c l = true <-> exists k, In k l /\ cell_eqb c k = true.
Proof. apply existsb_exists. Qed.

Lemma distinct_not_NaN (l seen : list cell) (k : cell) :
  In k (distinct l seen) -> k <> NaN.
Proof.
  revert seen. induction l as [|x l IH]; intros seen; simpl; [intros []|].
  destruct x as [q|s|].
  - destruct (mem_cell (Num q) seen); [apply IH|].
    intros [<-|H]; [discriminate|eapply IH; eauto].
  - destruct (mem_cell (Str s) seen); [apply IH|].
    intros [<-|H]; [discriminate|eapply IH; eauto].
  - apply IH.
Qed.

(** How often a value occurs, up to [cell_eqb], among the distinct values
    of a column: once if it is in the column and was not seen before. *)
Lemma count_distinct (c : cell) (l seen : list cell) :
  c <> NaN ->
  length (filter (cell_eqb c) (distinct l seen))
  = if mem_cell c seen then 0%nat
    else if mem_cell c l then 1%nat else 0%nat.
Proof.
  intros Hc. revert seen.
  induction l as [|x l IH]; intros seen.
  - simpl. now destruct (mem_cell c seen).
  - assert (Hskip : mem_cell x seen = true \/ x = NaN ->
              distinct (x :: l) seen = distinct l seen ->
              length (filter (cell_eqb c) (distinct (x :: l) seen))
              = if mem_cell c seen then 0%nat
                else if mem_cell c (x :: l) then 1%nat else 0%nat).
    { intros Hx ->. rewrite IH.
      destruct (mem_cell c seen) eqn:Hs; [reflexivity|].
      rewrite mem_cell_cons.
      destruct (cell_eqb c x) eqn:Hcx; [|reflexivity].
      exfalso. destruct Hx as [Hx| ->].
      - rewrite (mem_cell_compat c x seen Hcx) in Hs. congruence.
      - destruct c; simpl in Hcx; congruence. }
    assert (Hnew : mem_cell x seen = false ->
              distinct (x :: l) seen = x :: distinct l (x :: seen) ->
              length (filter (cell_eqb c) (distinct (x :: l) seen))
              = if mem_cell c seen then 0%nat
                else if mem_cell c (x :: l) then 1%nat else 0%nat).
    { intros Hx ->. simpl filter. rewrite (mem_cell_cons c x l).
      destruct (cell_eqb c x) eqn:Hcx.
      - simpl length. rewrite IH, mem_cell_cons, Hcx. simpl.
        rewrite (mem_cell_compat c x seen Hcx), Hx. reflexivity.
      - rewrite IH, mem_cell_cons, Hcx. reflexivity. }
    simpl in Hskip, Hnew. simpl distinct.
    destruct x as [q|s|].
    + destruct (mem_cell (Num q) seen) eqn:E; auto.
    + destruct (mem_cell (Str s) seen) eqn:E; auto.
    + auto.
Qed.

Lemma count_NaN (l : list cell) :
  (forall k, In k l -> k <> NaN) ->
  length (filter (cell_eqb NaN) l) = 0%nat.
Proof.
  induction l as [|x l IH]; intros H; [reflexivity|]. simpl.
  destruct x; simpl; try (apply IH; intros k Hk; apply H; now right).
  exfalso. apply (H NaN); [now left|reflexivity].
Qed.

Lemma count_sorted (c : cell) (l : list cell) :
  length (filter (cell_eqb c) (sort_by cell_leb l))
  = length (filter (cell_eqb c) l).
Proof.
  apply Permutation_length, Permutation_filter, sort_by_perm.
Qed.

Lemma Qsum_app (l1 l2 : list Q) : Qsum (l1 ++ l2) == Qsum l1 + Qsum l2.
Proof.
  induction l1 as [|x l1 IH]; simpl; [ring|]. rewrite IH. ring.
Qed.

Lemma group_values_cons (c v : cell) (rows : list (cell * cell))
  (k : cell) :
  group_values ((c, v) :: rows) k
  = (if cell_eqb c k then numeric_values [v] else [])
    ++ group_values rows k.
Proof.
  unfold group_values. simpl.
  destruct (cell_eqb c k); simpl; [|reflexivity].
  now rewrite app_nil_r.
Qed.

Lemma Qsum_indicator (c : cell) (lv : list Q) (g : cell -> Q)
  (ds : list cell) :
  Qsum (map (fun k => Qsum (if cell_eqb c k then lv else []) + g k) ds)
  == Qnat (length (filter (cell_eqb c) ds)) * Qsum lv + Qsum (map g ds).
Proof.
  induction ds as [|k ds IH]; simpl.
  - unfold Qnat. simpl. ring.
  - rewrite IH. destruct (cell_eqb c k); simpl.
    + unfold Qnat. rewrite Nat2Z.inj_succ, <- Z.add_1_r, inject_Z_plus.
      ring.
    + ring.
Qed.

Lemma Qsum_map_ext {A} (f g : A -> Q) (l : list A) :
  (forall x, f x == g x) -> Qsum (map f l) == Qsum (map g l).
Proof.
  intros H. induction l as [|x l IH]; simpl; [reflexivity|].
  now rewrite H, IH.
Qed.

(** Summing the groups of every key of [ds] counts each row as often as
    its key occurs in [ds]. *)
Lemma sum_of_groups (ds : list cell) (rows : list (cell * cell)) :
  Qsum (map (fun k => Qsum (group_values rows k)) ds)
  == Qsum (map (fun r => Qnat (length (filter (cell_eqb (fst r)) ds))
                         * Qsum (numeric_values [snd r])) rows).
Proof.
  induction rows as [|[c v] rows IH].
  - simpl. induction ds as [|k ds IHd]; simpl; [reflexivity|].
    rewrite IHd. unfold group_values. simpl. ring.
  - rewrite (Qsum_map_ext _
               (fun k => Qsum (if cell_eqb c k then numeric_values [v]
                               else [])
                         + Qsum (group_values rows k))).
    + rewrite Qsum_indicator, IH. simpl. reflexivity.
    + intros k. rewrite group_values_cons. apply Qsum_app.
Qed.

Lemma Qsum_cons (x : Q) (l : list Q) : Qsum (x :: l) = x + Qsum l.
Proof. reflexivity. Qed.

Lemma numeric_values_cons (x : cell) (l : list cell) :
  numeric_values (x :: l) = numeric_values [x] ++ numeric_values l.
Proof.
  unfold numeric_values. simpl. now rewrite app_nil_r.
Qed.

Lemma sum_of_rows_counted_once (ds : list cell)
  (rows : list (cell * cell)) :
  (forall r, In r rows ->
     length (filter (cell_eqb (fst r)) ds) = 1%nat) ->
  Qsum (map (fun r => Qnat (length (filter (cell_eqb (fst r)) ds))
                      * Qsum (numeric_values [snd r])) rows)
  == Qsum (numeric_values (map snd rows)).
Proof.
  induction rows as [|r rows IH]; intros H; [reflexivity|].
  rewrite !map_cons, (numeric_values_cons (snd r) (map snd rows)).
  apply Qeq_trans with (Qsum (numeric_values [snd r])
                        + Qsum (numeric_values (map snd rows)));
    [|symmetry; apply Qsum_app].
  specialize (IH (fun r' Hr' => H r' (or_intror Hr'))).
  rewrite Qsum_cons, IH.
  cbv beta. rewrite (H r (or_introl eq_refl)).
  change (Qnat 1) with 1. ring.
Qed.

Lemma mem_cell_In (c : cell) (l : list cell) :
  In c l -> mem_cell c l = true.
Proof.
  intros H. apply mem_cell_true. exists c. split; [exact H|].
  apply cell_eqb_refl.
Qed.

Lemma count_positive_mem (c : cell) (l : list cell) :
  (1 <= length (filter (cell_eqb c) l))%nat -> mem_cell c l = true.
Proof.
  intros H. destruct (filter (cell_eqb c) l) as [|k t] eqn:E;
    [simpl in H; lia|].
  assert (Hk : In k (filter (cell_eqb c) l)) by (rewrite E; now left).
  apply filter_In in Hk as [Hk Hck].
  apply mem_cell_true. eauto.
Qed.

(** The group keys of a column: each value of the column occurs once
    among them. *)
Lemma count_group_keys (c : cell) (keys : list cell) :
  c <> NaN -> In c keys ->
  length (filter (cell_eqb c) (sort_by cell_leb (distinct keys []))) = 1%nat.
Proof.
  intros Hc Hin. rewrite count_sorted, count_distinct by exact Hc.
  simpl. now rewrite mem_cell_In.
Qed.

Lemma group_values_compat (rows : list (cell * cell)) (k k' : cell) :
  cell_eqb k' k = true -> group_values rows k' = group_values rows k.
Proof.
  intros H. unfold group_values. f_equal. f_equal.
  apply filter_ext. intros r.
  rewrite (cell_eqb_sym (fst r) k'), (cell_eqb_sym (fst r) k).
  now apply cell_eqb_compat.
Qed.

Lemma group_values_nil (rows : list (cell * cell)) (k : cell) :
  (forall r, In r rows -> cell_eqb (fst r) k = false) ->
  group_values rows k = [].
Proof.
  intros H. unfold group_values.
  replace (filter (fun r => cell_eqb (fst r) k) rows) with
    (@nil (cell * cell)); [reflexivity|].
  symmetry. induction rows as [|r rows IH]; [reflexivity|]. simpl.
  rewrite (H r) by now left. apply IH. intros r' Hr'. apply H. now right.
Qed.

Lemma find_agg_volume (rows : list (cell * cell)) (ks : list cell)
  (k : cell) :
  fillna0 (option_map agg_volume (find_agg k (map (agg_row rows) ks)))
  = if mem_cell k ks then Qsum (group_values rows k) else 0.
Proof.
  unfold find_agg. induction ks as [|k' ks IH]; [reflexivity|].
  simpl map. simpl find. rewrite mem_cell_cons.
  rewrite (cell_eqb_sym k k').
  destruct (cell_eqb k' k) eqn:E; simpl orb.
  - simpl. now rewrite (group_values_compat rows k k' E).
  - exact IH.
Qed.

(** The volume that the merge gives a key on one side is the sum of the
    metric over the rows of that side with this key. *)
Lemma merged_volume (keys vals : list cell) (k : cell) :
  k <> NaN ->
  fillna0 (option_map agg_volume
             (find_agg k (map (agg_row (combine keys vals))
                            (sort_by cell_leb (distinct keys [])))))
  = Qsum (group_values (combine keys vals) k).
Proof.
  intros Hk. rewrite find_agg_volume.
  destruct (mem_cell k (sort_by cell_leb (distinct keys []))) eqn:E;
    [reflexivity|].
  rewrite group_values_nil; [reflexivity|].
  intros [c v] Hr. simpl.
  destruct (cell_eqb c k) eqn:Hck; [|reflexivity].
  exfalso.
  assert (Hc : c <> NaN).
  { intros ->. destruct k; simpl in Hck; congruence. }
  apply in_combine_l in Hr.
  pose proof (count_group_keys c keys Hc Hr) as Hcount.
  assert (Hm : mem_cell c (sort_by cell_leb (distinct keys [])) = true)
    by (apply count_positive_mem; lia).
  rewrite (mem_cell_compat c k _ Hck) in Hm. congruence.
Qed.
Lemma map_snd_combine_eq {A B} (l1 : list A) (l2 : list B) :
  length l1 = length l2 -> map snd (combine l1 l2) = l2.
Proof.
  revert l2. induction l1 as [|a l1 IH]; intros [|b l2] H; simpl in *;
    try discriminate; [reflexivity|].
  f_equal. apply IH. lia.
Qed.

Lemma no_missing_In (keys : list cell) (c : cell) :
  no_missing keys = true -> In c keys -> c <> NaN.
Proof.
  unfold no_missing. rewrite forallb_forall. intros H Hin ->.
  specialize (H NaN Hin). discriminate.
Qed.

(** One side of the merge: the volumes of the merged keys add up to the
    metric summed over the rows of that side. *)
Lemma merged_volumes_sum (keys vals other_keys : list cell) :
  no_missing keys = true ->
  length keys = length vals ->
  forall mkeys,
    (mkeys = sort_by cell_leb
               (distinct (sort_by cell_leb (distinct keys [])
                          ++ other_keys) [])
     \/ mkeys = sort_by cell_leb
                  (distinct (other_keys
                             ++ sort_by cell_leb (distinct keys [])) [])) ->
    Qsum (map (fun k =>
                 fillna0 (option_map agg_volume
                            (find_agg k
                               (map (agg_row (combine keys vals))
                                  (sort_by cell_leb (distinct keys []))))))
            mkeys)
    == Qsum (numeric_values vals).
Proof.
  intros Hmiss Hlen mkeys Hm.
  set (rows := combine keys vals).
  assert (Hnan : forall k, In k mkeys -> k <> NaN).
  { intros k Hk. destruct Hm as [-> | ->];
      apply sort_by_In in Hk; eapply distinct_not_NaN; eauto. }
  rewrite (map_ext_in _ (fun k => Qsum (group_values rows k))).
  2:{ intros k Hk. apply merged_volume. now apply Hnan. }
  rewrite sum_of_groups, sum_of_rows_counted_once.
  - unfold rows. now rewrite map_snd_combine_eq.
  - intros [c v] Hr. simpl fst. apply in_combine_l in Hr.
    pose proof (no_missing_In keys c Hmiss Hr) as Hc.
    assert (Hin : mem_cell c (sort_by cell_leb (distinct keys [])) = true).
    { apply count_positive_mem. rewrite count_group_keys; auto. }
    destruct Hm as [-> | ->]; rewrite count_sorted, count_distinct by auto;
      simpl mem_cell at 1; cbv iota; unfold mem_cell;
      rewrite existsb_app; fold (mem_cell c);
      unfold mem_cell in Hin; rewrite Hin;
      [reflexivity|now rewrite orb_true_r].
Qed.

Lemma agg_keys_of_rows (rows : list (cell * cell)) (ks : list cell) :
  map agg_key (map (agg_row rows) ks) = ks.
Proof.
  rewrite map_map. simpl. apply map_id.
Qed.

(** Before any filter, the volumes of the merged categories of a
    dimension without missing values add up to the period totals: the
    sum of [volume_curr] is [total_curr_contrib], the sum of
    [volume_prev] is [total_prev_contrib]. *)
Theorem volumes_add_up_to_period_totals current previous metric_col dim
  keys_c keys_p merged total_curr_contrib total_prev_contrib :
  aggregate_and_merge current previous metric_col dim dim = Ok merged ->
  get_col dim current = Some keys_c ->
  get_col dim previous = Some keys_p ->
  no_missing keys_c = true -> no_missing keys_p = true ->
  rectangular current = true -> rectangular previous = true ->
  total_contrib current metric_col = Ok total_curr_contrib ->
  total_contrib previous metric_col = Ok total_prev_contrib ->
  Qsum (map volume_curr merged) == total_curr_contrib
  /\ Qsum (map volume_prev merged) == total_prev_contrib.
Proof.
  intros Hagg Hkc Hkp Hmc Hmp Hrc Hrp Htc Htp.
  unfold aggregate_and_merge, groupby_agg in Hagg.
  rewrite Hkc, Hkp in Hagg.
  destruct (get_col metric_col current) as [vals_c|] eqn:Hvc;
    [|discriminate].
  destruct (get_col metric_col previous) as [vals_p|] eqn:Hvp;
    [|discriminate].
  simpl bind in Hagg. unfold merge_outer in Hagg.
  destruct (mem_string dim _ && mem_string dim _); [|discriminate].
  cbn [agg_rows] in Hagg. rewrite !agg_keys_of_rows in Hagg.
  inversion Hagg as [Hmerged]. clear Hagg.
  unfold total_contrib in Htc, Htp. rewrite Hvc in Htc. rewrite Hvp in Htp.
  destruct (is_numeric_dtype vals_c); [|discriminate].
  destruct (is_numeric_dtype vals_p); [|discriminate].
  inversion Htc; inversion Htp; subst total_curr_contrib total_prev_contrib.
  rewrite !map_map. unfold merged_row. cbn [volume_curr volume_prev].
  split.
  - apply merged_volumes_sum with (other_keys :=
                                     sort_by cell_leb (distinct keys_p []));
      auto.
    rewrite (rectangular_length _ _ _ Hrc Hkc).
    now rewrite (rectangular_length _ _ _ Hrc Hvc).
  - apply merged_volumes_sum with (other_keys :=
                                     sort_by cell_leb (distinct keys_c []));
      auto.
    rewrite (rectangular_length _ _ _ Hrp Hkp).
    now rewrite (rectangular_length _ _ _ Hrp Hvp).
Qed.

Lemma volumes_add_up_to_period_totals_witness :
  exists merged,
    aggregate_and_merge Runs.mixed_current Runs.mixed_previous
      "metric_value" "region" "region" = Ok merged
    /\ Qsum (map volume_curr merged) == 4
    /\ Qsum (map volume_prev merged) == 3.
Proof.
  eexists.
  assert (Hagg : aggregate_and_merge Runs.mixed_current Runs.mixed_previous
                   "metric_value" "region" "region" = Ok _)
    by (vm_compute; reflexivity).
  split; [exact Hagg|].
  apply (volumes_add_up_to_period_totals Runs.mixed_current
           Runs.mixed_previous "metric_value" "region"
           [Str "a"; Str "b"]%string [Str "a"; Str "b"]%string _ 4 3 Hagg);
    vm_compute; reflexivity.
Defined.
End Volumes.

(** ** Labels, slopes and rounding *)

Section Scores.

(** A larger score never gets a weaker label, with the breakpoints of the
    change detector as with those of the driver engine. *)
Theorem labels_grow_with_the_score (s1 s2 : Q) :
  s1 <= s2 ->
  (strength (Trend.score_to_label s1) <= strength (Trend.score_to_label s2))%nat
  /\ (strength (Drivers.score_to_label s1)
      <= strength (Drivers.score_to_label s2))%nat.
Proof.
  intros Hle. unfold Trend.score_to_label, Drivers.score_to_label.
  split;
    repeat match goal with
           | |- context [Qltb ?a ?b] => destruct (Qltb a b) eqn:?
           end;
    try (cbn; lia);
    repeat match goal with
           | H : Qltb _ _ = true |- _ => apply Qltb_true in H
           | H : Qltb _ _ = false |- _ => apply Qltb_false in H
           end;
    lra.
Qed.

Lemma labels_grow_with_the_score_witness :
  (49 # 100) <= 2
  /\ (strength (Trend.score_to_label (49 # 100))
      <= strength (Trend.score_to_label 2))%nat
  /\ (strength (Drivers.score_to_label (49 # 100))
      <= strength (Drivers.score_to_label 2))%nat.
Proof.
  split; [discriminate|].
  apply (labels_grow_with_the_score (49 # 100) 2). discriminate.
Defined.

(** *** Rounding *)

Lemma round_half_even_cases (x : Q) :
  let f := Qfloor x in
  (Trend.round_half_even x = f /\ x - inject_Z f <= 1 # 2)
  \/ (Trend.round_half_even x = (f + 1)%Z /\ 1 # 2 <= x - inject_Z f).
Proof.
  intros f. unfold Trend.round_half_even. fold f.
  destruct (Qcompare (x - inject_Z f) (1 # 2)) eqn:E.
  - apply Qeq_alt in E.
    destruct (Z.even f); [left|right]; split; auto; rewrite E;
      apply Qle_refl.
  - apply Qlt_alt in E. left. split; [reflexivity|].
    now apply Qlt_le_weak.
  - apply Qgt_alt in E. right. split; [reflexivity|].
    now apply Qlt_le_weak.
Qed.

Lemma round_half_even_close (x : Q) :
  Qabs (inject_Z (Trend.round_half_even x) - x) <= 1 # 2.
Proof.
  pose proof (Qfloor_le x) as Hlo. pose proof (Qlt_floor x) as Hhi.
  apply Qabs_Qle_condition.
  destruct (round_half_even_cases x) as [[-> H]|[-> H]].
  - split; lra.
  - rewrite inject_Z_plus in Hhi |- *. change (inject_Z 1) with 1 in *.
    split; lra.
Qed.

Lemma round_half_even_between (x : Q) (a b : Z) :
  inject_Z a <= x -> x <= inject_Z b ->
  (a <= Trend.round_half_even x <= b)%Z.
Proof.
  intros Ha Hb.
  pose proof (Qfloor_le x) as Hlo. pose proof (Qlt_floor x) as Hhi.
  assert (Haf : (a <= Qfloor x)%Z).
  { rewrite <- (Qfloor_Z a). now apply Qfloor_resp_le. }
  assert (Hfb : (Qfloor x <= b)%Z).
  { rewrite <- (Qfloor_Z b). now apply Qfloor_resp_le. }
  destruct (round_half_even_cases x) as [[-> H]|[-> H]]; [lia|].
  split; [lia|].
  assert (Hlt : inject_Z (Qfloor x) < inject_Z b) by lra.
  rewrite <- Zlt_Qlt in Hlt. lia.
Qed.

Lemma scale_positive (n : nat) : 0 < inject_Z (10 ^ Z.of_nat n).
Proof.
  change 0 with (inject_Z 0). rewrite <- Zlt_Qlt.
  apply Z.pow_pos_nonneg; lia.
Qed.

(** [round(x, n)] moves [x] by at most half a unit of the [n]-th
    decimal. *)
Theorem round_is_within_half_a_unit (x : Q) (n : nat) :
  Qabs (Trend.round x n - x) <= (1 # 2) / inject_Z (10 ^ Z.of_nat n).
Proof.
  unfold Trend.round.
  set (s := inject_Z (10 ^ Z.of_nat n)).
  pose proof (scale_positive n) as Hs. fold s in Hs.
  pose proof (round_half_even_close (x * s)) as H.
  set (r := inject_Z (Trend.round_half_even (x * s))) in *.
  assert (E : r / s - x == (r - x * s) / s) by (field; lra).
  rewrite E. unfold Qdiv. rewrite Qabs_Qmult.
  rewrite (Qabs_pos (/ s)) by (apply Qlt_le_weak, Qinv_lt_0_compat, Hs).
  apply Qmult_le_compat_r; [exact H|].
  apply Qlt_le_weak, Qinv_lt_0_compat, Hs.
Qed.

(** Rounding keeps a value between 0 and 1 there. *)
Lemma round_unit_interval (x : Q) (n : nat) :
  0 <= x -> x <= 1 -> 0 <= Trend.round x n /\ Trend.round x n <= 1.
Proof.
  intros H0 H1. unfold Trend.round.
  set (s := inject_Z (10 ^ Z.of_nat n)).
  pose proof (scale_positive n) as Hs. fold s in Hs.
  destruct (round_half_even_between (x * s) 0 (10 ^ Z.of_nat n))
    as [Hlo Hhi].
  - change (inject_Z 0) with 0. apply Qmult_le_0_compat; lra.
  - fold s. rewrite <- (Qmult_1_l s) at 2.
    apply Qmult_le_compat_r; lra.
  - rewrite Zle_Qle in Hlo, Hhi. fold s in Hhi.
    change (inject_Z 0) with 0 in Hlo.
    split.
    + apply Qle_shift_div_l; [exact Hs|]. lra.
    + apply Qle_shift_div_r; [exact Hs|]. lra.
Qed.

Lemma round_nonneg (x : Q) (n : nat) : 0 <= x -> 0 <= Trend.round x n.
Proof.
  intros H0. unfold Trend.round.
  set (s := inject_Z (10 ^ Z.of_nat n)).
  pose proof (scale_positive n) as Hs. fold s in Hs.
  assert (Hx : 0 <= x * s) by (apply Qmult_le_0_compat; lra).
  pose proof (Qfloor_le (x * s)) as Hlo.
  assert (Hf : (0 <= Qfloor (x * s))%Z).
  { rewrite <- (Qfloor_Z 0). now apply Qfloor_resp_le. }
  assert (Hr : (0 <= Trend.round_half_even (x * s))%Z)
    by (destruct (round_half_even_cases (x * s)) as [[-> _]|[-> _]]; lia).
  rewrite Zle_Qle in Hr. change (inject_Z 0) with 0 in Hr.
  apply Qle_shift_div_l; [exact Hs|]. lra.
Qed.
End Scores.

(** ** The least-squares slope *)

Section Slope.
Import Trend.

Lemma Qsum_snoc (l : list Q) (x : Q) : Qsum (l ++ [x]) == Qsum l + x.
Proof.
  rewrite Qsum_app. simpl. ring.
Qed.

Lemma Qnat_S (n : nat) : Qnat (S n) == Qnat n + 1.
Proof.
  unfold Qnat. rewrite Nat2Z.inj_succ, <- Z.add_1_r, inject_Z_plus.
  reflexivity.
Qed.

(** The sum of the step indices [0 .. n-1]. *)
Lemma sum_steps (n : nat) :
  Qsum (map Qnat (seq 0 n)) == Qnat n * (Qnat n - 1) / 2.
Proof.
  induction n as [|n IH]; [reflexivity|].
  rewrite seq_S, map_app. cbn [map]. rewrite Qsum_snoc, IH, Qnat_S.
  simpl. field.
Qed.

(** The sum of their squares. *)
Lemma sum_squared_steps (n : nat) :
  Qsum (map (fun a => a * a) (map Qnat (seq 0 n)))
  == (Qnat n - 1) * Qnat n * (2 * Qnat n - 1) / 6.
Proof.
  induction n as [|n IH]; [reflexivity|].
  rewrite seq_S, !map_app. cbn [map]. rewrite Qsum_snoc, IH, Qnat_S.
  simpl. field.
Qed.

Lemma sum_line (a b : Q) (n : nat) :
  Qsum (map (fun i => a + b * Qnat i) (seq 0 n))
  == Qnat n * a + b * (Qnat n * (Qnat n - 1) / 2).
Proof.
  induction n as [|n IH]; [simpl; unfold Qnat; simpl; field|].
  rewrite seq_S, map_app. cbn [map]. rewrite Qsum_snoc, IH, Qnat_S.
  simpl. field.
Qed.

Lemma combine_map_same {A B C} (f : A -> B) (g : A -> C) (l : list A) :
  combine (map f l) (map g l) = map (fun i => (f i, g i)) l.
Proof.
  induction l as [|x l IH]; simpl; [reflexivity|]. now rewrite IH.
Qed.

Lemma sum_steps_times_line (a b : Q) (n : nat) :
  Qsum (map (fun p : Q * Q => fst p * snd p)
          (combine (map Qnat (seq 0 n))
                   (map (fun i => a + b * Qnat i) (seq 0 n))))
  == a * (Qnat n * (Qnat n - 1) / 2)
     + b * ((Qnat n - 1) * Qnat n * (2 * Qnat n - 1) / 6).
Proof.
  rewrite combine_map_same, map_map. simpl.
  induction n as [|n IH]; [simpl; unfold Qnat; simpl; field|].
  rewrite seq_S, map_app. cbn [map]. rewrite Qsum_snoc, IH, Qnat_S.
  simpl. field.
Qed.

Lemma Qnat_ge_2 (n : nat) : (2 <= n)%nat -> 2 <= Qnat n.
Proof.
  intros H. unfold Qnat. change 2 with (inject_Z 2).
  rewrite <- Zle_Qle. lia.
Qed.

(** On a series that moves by the same step [b] at every point the
    fitted slope is [b]; in particular a constant series has slope 0. *)
Theorem fit_slope_of_a_line (a b : Q) (n : nat) :
  (2 <= n)%nat ->
  fit_slope (map (fun i => a + b * Qnat i) (seq 0 n)) == b.
Proof.
  intros Hn. unfold fit_slope.
  rewrite length_map, length_seq.
  destruct (Nat.ltb n 2) eqn:E; [apply Nat.ltb_lt in E; lia|].
  rewrite sum_steps_times_line, sum_steps, sum_line, sum_squared_steps.
  pose proof (Qnat_ge_2 n Hn) as H2.
  set (N := Qnat n) in *.
  assert (Hd : N * ((N - 1) * N * (2 * N - 1) / 6)
               - N * (N - 1) / 2 * (N * (N - 1) / 2)
               == N * N * (N - 1) * (N + 1) / 12) by field.
  assert (Hpos : 0 < N * N * (N - 1) * (N + 1)).
  { repeat apply Qmult_lt_0_compat; lra. }
  assert (Hne : ~ N * ((N - 1) * N * (2 * N - 1) / 6)
                  - N * (N - 1) / 2 * (N * (N - 1) / 2) == 0).
  { rewrite Hd. set (P := N * N * (N - 1) * (N + 1)) in *.
    intros H0. assert (HP : P == P / 12 * 12) by field.
    rewrite H0 in HP. lra. }
  field. intros H0. apply Hne.
  assert (Hs : N * ((N - 1) * N * (2 * N - 1) / 6)
               - N * (N - 1) / 2 * (N * (N - 1) / 2)
               == (N * ((N - 1) * N * (2 * N - 1)) * 4
                   - N * (N - 1) * (N * (N - 1)) * 6) / 24) by field.
  rewrite Hs, H0. reflexivity.
Qed.

Lemma fit_slope_of_a_line_witness :
  (2 <= 4)%nat
  /\ fit_slope (map (fun i => 10 + (3 # 2) * Qnat i) (seq 0 4)) == 3 # 2.
Proof.
  split; [lia|].
  apply (fit_slope_of_a_line 10 (3 # 2) 4). lia.
Defined.
End Slope.

(** ** The change context *)

Section Context.
Import Trend.

Lemma score_to_label_values (s : Q) :
  (score_to_label s = "none"%string /\ s < 1 # 2)
  \/ (1 # 2 <= s
      /\ (score_to_label s = "minor"%string
          \/ score_to_label s = "moderate"%string
          \/ score_to_label s = "strong"%string)).
Proof.
  unfold score_to_label.
  destruct (Qltb s (1 # 2)) eqn:A; [left; split; auto; now apply Qltb_true|].
  apply Qltb_false in A. right. split; [exact A|].
  destruct (Qltb s 1); auto. destruct (Qltb s 2); auto.
Qed.

Lemma count_true_le (l : list bool) : (count_true l <= length l)%nat.
Proof.
  unfold count_true. apply filter_length_le.
Qed.

Lemma fraction_in_unit_interval (k n : nat) :
  (k <= n)%nat -> (0 < n)%nat ->
  0 <= Qnat k / Qnat n /\ Qnat k / Qnat n <= 1.
Proof.
  intros Hk Hn.
  assert (Hn' : 0 < Qnat n).
  { unfold Qnat. change 0 with (inject_Z 0). rewrite <- Zlt_Qlt. lia. }
  assert (Hk0 : 0 <= Qnat k).
  { unfold Qnat. change 0 with (inject_Z 0). rewrite <- Zle_Qle. lia. }
  assert (Hkn : Qnat k <= Qnat n).
  { unfold Qnat. rewrite <- Zle_Qle. lia. }
  split.
  - apply Qle_shift_div_l; [exact Hn'|]. lra.
  - apply Qle_shift_div_r; [exact Hn'|]. lra.
Qed.

Lemma ratio_nonneg (x y : Q) : 0 < y -> 0 <= Qabs x / y.
Proof.
  intros Hy. apply Qle_shift_div_l; [exact Hy|].
  pose proof (Qabs_nonneg x). lra.
Qed.

(** What every change context satisfies, whatever the series: both
    scores are non-negative, the trend consistency, when it is a number,
    lies between 0 and 1, a change reported as trustworthy is also
    reported as detected, comes with a trend consistency of at least
    0.6 and without the high-volatility flag, and a context without any
    detected change has both labels at "none". *)
Theorem change_context_is_coherent (sqrtQ : Q -> Q)
  (full_series current_series previous_series : list Q) :
  let ctx :=
    change_context sqrtQ full_series current_series previous_series in
  0 <= level_score ctx
  /\ 0 <= trend_score ctx
  /\ (forall t, trend_consistency ctx = Some t -> 0 <= t /\ t <= 1)
  /\ (trustworthy ctx = true ->
      any_change_detected ctx = true
      /\ high_volatility ctx = false
      /\ exists t, trend_consistency ctx = Some t /\ 6 # 10 <= t)
  /\ (any_change_detected ctx = false ->
      level_change_label ctx = "none"%string
      /\ trend_change_label ctx = "none"%string
      /\ slope_direction_changed ctx = false).
Proof.
  unfold change_context. cbv zeta.
  cbn [level_score trend_score trend_consistency trustworthy
       any_change_detected high_volatility level_change_label
       trend_change_label slope_direction_changed].
  set (level_delta := mean current_series - mean previous_series).
  set (avg := if Nat.leb _ _ then _ else _).
  set (eff := if Qltb 0 avg then avg else 1 # 100000000).
  assert (Heff : 0 < eff).
  { unfold eff. destruct (Qltb 0 avg) eqn:E; [now apply Qltb_true|].
    reflexivity. }
  set (ls := Qabs level_delta / eff).
  set (ss := Qabs _ / (eff + (1 # 100000000))).
  set (align := if Z.eqb (sign level_delta) 0 then _ else _).
  assert (Halign : forall a, align = Some a -> 0 <= a /\ a <= 1).
  { unfold align. intros a.
    destruct (Z.eqb (sign level_delta) 0).
    - intros H. inversion H. split; discriminate.
    - destruct (diff full_series) as [|d ds] eqn:Ed; [discriminate|].
      intros H. inversion H. apply fraction_in_unit_interval.
      + eapply Nat.le_trans; [apply count_true_le|].
        simpl. rewrite length_map. apply Nat.le_refl.
      + simpl. lia. }
  set (hv := Qltb 0 _ && Qltb _ avg).
  set (dirchange := negb (Z.eqb _ _)).
  split; [apply round_nonneg, ratio_nonneg, Heff|].
  split; [apply round_nonneg, ratio_nonneg; lra|].
  split.
  { intros t. destruct align as [a|]; [|discriminate].
    simpl. intros H. inversion H.
    destruct (Halign a eq_refl). now apply round_unit_interval. }
  split.
  - intros Ht. apply andb_prop in Ht as [Ht Hhv].
    apply andb_prop in Ht as [Hch Hal].
    split; [|split].
    + apply orb_prop in Hch.
      destruct Hch as [Hch|Hch]; apply negb_true_iff in Hch.
      * destruct (score_to_label_values ls) as [[E _]|[_ [E|[E|E]]]];
          rewrite E in *; try discriminate; reflexivity.
      * destruct (score_to_label_values ss) as [[E _]|[_ [E|[E|E]]]];
          rewrite E in *; try discriminate;
          destruct (mem_string (score_to_label ls) _); reflexivity.
    + now apply negb_true_iff.
    + destruct align as [a|]; [|discriminate].
      exists (round a 2). split; [reflexivity|].
      apply Qltb_true in Hal.
      destruct (Halign a eq_refl) as [Ha0 Ha1].
      unfold round.
      pose proof (scale_positive 2) as Hs.
      set (s := inject_Z (10 ^ Z.of_nat 2)) in *.
      assert (H60 : inject_Z 60 == (6 # 10) * s) by reflexivity.
      destruct (round_half_even_between (a * s) 60 100) as [Hlo _].
      * rewrite H60. apply Qmult_le_compat_r; lra.
      * change (inject_Z 100) with (1 * s).
        apply Qmult_le_compat_r; lra.
      * rewrite Zle_Qle in Hlo.
        apply Qle_shift_div_l; [exact Hs|].
        rewrite <- H60. exact Hlo.
  - intros Hany. apply orb_false_iff in Hany as [Hany Hdir].
    apply orb_false_iff in Hany as [Hl Ht].
    repeat split; auto.
    + destruct (score_to_label_values ls) as [[E _]|[_ [E|[E|E]]]];
        rewrite E in *; try discriminate; reflexivity.
    + destruct (score_to_label_values ss) as [[E _]|[_ [E|[E|E]]]];
        rewrite E in *; try discriminate; reflexivity.
Qed.



End Context.

(** ** The global driver lists *)

Section GlobalLists.
Import Drivers Output.

Lemma In_skipn {A} (n : nat) (l : list A) (x : A) :
  In x (skipn n l) -> In x l.
Proof.
  intros H. rewrite <- (firstn_skipn n l). apply in_or_app. now right.
Qed.

Lemma sorted_prefix_dominates {A} (R : A -> A -> Prop) (l : list A) :
  StronglySorted R l ->
  forall n,
    StronglySorted R (firstn n l)
    /\ forall a b, In a (firstn n l) -> In b (skipn n l) -> R a b.
Proof.
  induction 1 as [|x l Hs IH Hx]; intros [|n]; simpl.
  - split; [constructor|intros ? ? []].
  - split; [constructor|intros ? ? []].
  - split; [constructor|intros ? ? []].
  - destruct (IH n) as [H1 H2]. rewrite Forall_forall in Hx. split.
    + constructor; [exact H1|]. apply Forall_forall. intros y Hy.
      apply Hx. now apply In_firstn in Hy.
    + intros a b [<-|Ha] Hb; [|now apply H2].
      apply Hx. now apply In_skipn in Hb.
Qed.

Lemma top_five_best (pool : list TaggedDriver) :
  five_best pool (top_five pool).
Proof.
  unfold five_best, top_five.
  set (leb := fun a b : TaggedDriver =>
                Qle_bool (driver_sort_key b) (driver_sort_key a)).
  pose proof (sort_by_sorted leb
                (fun a b H => Qle_bool_total _ _ H)
                (fun a b c H1 H2 => Qle_bool_trans _ _ _ H2 H1) pool) as Hs.
  destruct (sorted_prefix_dominates _ _ Hs 5) as [H1 H2].
  split; [|split].
  - now rewrite length_firstn, sort_by_length.
  - clear H2. induction H1 as [|x s H1 IH Hx]; constructor; [exact IH|].
    rewrite Forall_forall in *. intros y Hy.
    apply Qle_bool_iff. now apply Hx.
  - exists (skipn 5 (sort_by leb pool)). split.
    + rewrite firstn_skipn. symmetry. apply sort_by_perm.
    + intros a b Ha Hb. apply Qle_bool_iff. now apply H2.
Qed.

(** [top_positive_overall] and [top_negative_overall] hold the five
    entries with the highest effect score of all the dimensions' positive,
    respectively negative, top lists, highest first (all of them when
    there are fewer than five). *)
Theorem overall_lists_hold_the_five_best (drivers : list DriverResult) :
  five_best (pooled top_positive drivers) (top_positive_overall drivers)
  /\ five_best (pooled top_negative drivers) (top_negative_overall drivers).
Proof.
  split; apply top_five_best.
Qed.

Lemma tag_tagged_from (r : DriverResult) (d : DriverRecord) :
  tagged_from r d (tag (dimension r) d).
Proof.
  unfold tagged_from, tag. cbn [t_dimension t_driver].
  destruct (String.eqb (dimension r) "dimension") eqn:E; cbn;
    repeat split.
  apply String.eqb_eq in E. now rewrite E.
Qed.

Lemma pooled_In (side : DriverResult -> list DriverRecord)
  (drivers : list DriverResult) (t : TaggedDriver) :
  In t (top_five (pooled side drivers)) ->
  exists r d, In r drivers /\ In d (side r) /\ t = tag (dimension r) d.
Proof.
  unfold top_five, pooled. intros H.
  apply In_firstn in H. rewrite sort_by_In in H.
  apply in_flat_map in H as (r & Hr & H).
  apply in_map_iff in H as (d & <- & Hd). eauto.
Qed.

Lemma top_lists_signs dim tcv tpv tcc tpc mvs macs eps merged :
  let r := rank_drivers dim tcv tpv tcc tpc mvs macs eps merged in
  (forall x, In x (top_positive r) ->
     0 < d_contrib_delta x /\ d_direction x = "positive"%string)
  /\ (forall x, In x (top_negative r) ->
        d_contrib_delta x < 0 /\ d_direction x = "negative"%string).
Proof.
  destruct (rank_drivers_cases dim tcv tpv tcc tpc mvs macs eps merged)
    as [->|(kept & _ & _ & _ & ->)]; cbn [top_positive top_negative
                                           no_drivers].
  - split; intros x [].
  - split; intros x H; apply In_firstn, filter_In in H as [Hx H];
      apply to_record_in_sorted in Hx as (m & _ & ->);
      apply Qltb_true in H;
      cbn [d_direction d_contrib_delta to_record] in *;
      (split; [exact H|]);
      destruct (Qle_bool 0 (contrib_delta m)) eqn:E; try reflexivity.
    + apply Qlt_le_weak, Qle_bool_iff in H. congruence.
    + apply Qle_bool_iff in E. lra.
Qed.

(** Every entry of the two global lists of a report built on the
    results of [calculate_drivers_effects] is an entry of the top list of
    the dimension it names, with its figures unchanged: a positive
    contribution delta and the mark "positive" in the first list, a
    negative one and "negative" in the second.  Its category is kept too,
    except for a dimension column that is itself called [dimension]:
    there the category is replaced by that word. *)
Theorem overall_entries_come_from_their_dimension set_iter current previous
  metric_col dimensions mvs macs eps results st :
  calculate_drivers_effects set_iter current previous metric_col
    dimensions mvs macs eps = (Ok results, st) ->
  (forall t, In t (top_positive_overall results) ->
     0 < d_contrib_delta (t_driver t)
     /\ d_direction (t_driver t) = "positive"%string
     /\ exists r d, In r results /\ In d (top_positive r)
                    /\ tagged_from r d t)
  /\ (forall t, In t (top_negative_overall results) ->
        d_contrib_delta (t_driver t) < 0
        /\ d_direction (t_driver t) = "negative"%string
        /\ exists r d, In r results /\ In d (top_negative r)
                       /\ tagged_from r d t).
Proof.
  intros Hrun.
  pose proof (calculate_results_Forall
                (fun r =>
                   (forall x, In x (top_positive r) ->
                      0 < d_contrib_delta x
                      /\ d_direction x = "positive"%string)
                   /\ (forall x, In x (top_negative r) ->
                         d_contrib_delta x < 0
                         /\ d_direction x = "negative"%string))
                _ _ _ _ _ _ _ _ _ _
                (fun dim tcv tpv tcc tpc merged =>
                   top_lists_signs dim tcv tpv tcc tpc mvs macs eps merged)
                Hrun) as Hsigns.
  split; intros t Ht; apply pooled_In in Ht as (r & d & Hr & Hd & ->);
    pose proof (tag_tagged_from r d) as Htag;
    destruct Htag as (E0 & E1 & E2 & E3 & E4 & E5 & E6);
    destruct (Hsigns r Hr) as [Hpos Hneg].
  - destruct (Hpos d Hd) as [H1 H2]. rewrite E1, E4.
    split; [exact H1|]. split; [exact H2|].
    exists r, d. repeat split; assumption.
  - destruct (Hneg d Hd) as [H1 H2]. rewrite E1, E4.
    split; [exact H1|]. split; [exact H2|].
    exists r, d. repeat split; assumption.
Qed.

Lemma overall_entries_come_from_their_dimension_witness :
  exists results st,
    Runs.default_run OutputRuns.current OutputRuns.previous
    = (Ok results, st)
    /\ map (fun t => (t_dimension t, d_category (t_driver t)))
         (top_positive_overall results)
       = [("dimension"%string, Str "dimension")]
    /\ map (fun r => map d_category (top_positive r)) results
       = [[Str "a"]]
    /\ (forall t, In t (top_positive_overall results) ->
          0 < d_contrib_delta (t_driver t)
          /\ d_direction (t_driver t) = "positive"%string
          /\ exists r d, In r results /\ In d (top_positive r)
                         /\ tagged_from r d t)
    /\ (forall t, In t (top_negative_overall results) ->
          d_contrib_delta (t_driver t) < 0
          /\ d_direction (t_driver t) = "negative"%string
          /\ exists r d, In r results /\ In d (top_negative r)
                         /\ tagged_from r d t).
Proof.
  do 2 eexists.
  assert (Hrun : Runs.default_run OutputRuns.current OutputRuns.previous
                 = (Ok _, _)) by (vm_compute; reflexivity).
  split; [exact Hrun|]. split; [vm_compute; reflexivity|].
  split; [vm_compute; reflexivity|].
  exact (overall_entries_come_from_their_dimension _ _ _ _ _
           default_min_volume_share default_min_abs_contrib_share
           default_eps _ _ Hrun).
Defined.
End GlobalLists.

(** ** The summaries *)

Section Summaries.
Import Trend Output.

Lemma label_cases (s : Q) :
  score_to_label s = "none"%string \/ score_to_label s = "minor"%string
  \/ score_to_label s = "moderate"%string
  \/ score_to_label s = "strong"%string.
Proof.
  unfold score_to_label.
  destruct (Qltb s (1 # 2)); auto. destruct (Qltb s 1); auto.
  destruct (Qltb s 2); auto.
Qed.

Lemma direction_cases (x : Q) :
  direction x = "up"%string \/ direction x = "down"%string
  \/ direction x = "flat"%string.
Proof.
  unfold direction. destruct (Qltb 0 x); auto. destruct (Qltb x 0); auto.
Qed.

Ltac settle :=
  vm_compute;
  split; intros H;
  try reflexivity; try congruence;
  try (destruct H as (? & ? & ?); congruence);
  repeat split; congruence.

(** The two sentences of the report follow the flags of the context that
    [detect_change_context] computes: the change is called reliable
    exactly when it is trustworthy (the extra test on the volatility
    never decides), "no meaningful change" is reported exactly when no
    change is detected, and the "detectable but weak change" is the one
    where neither label is set and only the slope changed direction. *)
Theorem summaries_follow_the_context (sqrtQ : Q -> Q)
  (full_series current_series previous_series : list Q) :
  let ctx :=
    change_context sqrtQ full_series current_series previous_series in
  (reliability_summary ctx = reliable_summary <-> trustworthy ctx = true)
  /\ (change_summary ctx = no_change_summary
      <-> any_change_detected ctx = false)
  /\ (change_summary ctx
      = (weak_change_clause ++ " in the target metric.")%string
      <-> level_change_label ctx = "none"%string
          /\ trend_change_label ctx = "none"%string
          /\ slope_direction_changed ctx = true).
Proof.
  unfold change_context. cbv zeta.
  unfold reliability_summary, change_summary.
  cbn [trustworthy high_volatility any_change_detected level_change_label
       trend_change_label slope_direction_changed absolute_change].
  set (level_delta := mean current_series - mean previous_series).
  set (avg := if Nat.leb _ _ then _ else _).
  set (eff := if Qltb 0 avg then avg else 1 # 100000000).
  pose proof (label_cases (Qabs level_delta / eff)) as HL.
  set (L := score_to_label (Qabs level_delta / eff)) in *.
  pose proof (label_cases
                (Qabs (fit_slope current_series
                       - fit_slope previous_series)
                 / (eff + (1 # 100000000)))) as HT.
  set (T := score_to_label _) in *.
  pose proof (direction_cases (round level_delta 4)) as HD.
  set (D := direction _) in *.
  set (sd := negb (Z.eqb _ _)).
  set (hv := Qltb 0 _ && Qltb _ avg).
  set (al := match (if Z.eqb (sign level_delta) 0 then _ else _) with
             | Some a => Qltb (6 # 10) a
             | None => false
             end).
  clearbody L T D sd hv al.
  split; [|split].
  - destruct HL as [->|[->|[->| ->]]], HT as [->|[->|[->| ->]]], al, hv;
      settle.
  - destruct HL as [->|[->|[->| ->]]], HT as [->|[->|[->| ->]]],
             HD as [->|[->| ->]], sd; settle.
  - destruct HL as [->|[->|[->| ->]]], HT as [->|[->|[->| ->]]],
             HD as [->|[->| ->]], sd; settle.
Qed.
End Summaries.

(** ** Splitting the periods *)

Section Periods.
Import Loader.

Lemma inject_Z_sub (x y : Z) : inject_Z (x - y) = inject_Z x - inject_Z y.
Proof.
  unfold Z.sub. now rewrite inject_Z_plus, inject_Z_opp.
Qed.

Lemma select_map_filter {A} (f : A -> bool) (l : list A) :
  select (map f l) l = filter f l.
Proof.
  induction l as [|x l IH]; simpl; [reflexivity|].
  destruct (f x); now rewrite IH.
Qed.

Lemma columns_select_rows (mask : list bool) (df : DataFrame) :
  columns (select_rows mask df) = columns df.
Proof.
  unfold columns, select_rows. rewrite map_map. reflexivity.
Qed.

Lemma in_range_In (lo hi d : Q) (dates : list cell) :
  In (Num d) (filter (in_range lo hi) dates)
  <-> In (Num d) dates /\ lo <= d <= hi.
Proof.
  rewrite filter_In. unfold in_range.
  rewrite andb_true_iff, !Qle_bool_iff. tauto.
Qed.

Lemma in_range_Num (lo hi : Q) (dates : list cell) (c : cell) :
  In c (filter (in_range lo hi) dates) -> exists d, c = Num d.
Proof.
  rewrite filter_In. intros [_ H]. destruct c; try discriminate. eauto.
Qed.

(** [split_periods] selects the rows by their date alone: the current
    period holds the rows dated within the [period_days] days that end
    at [end_date], the previous period those within the [period_days]
    days before them.  A row without a date is in neither, every
    previous row is earlier than every current row, a row dated
    [end_date] is in the current period as soon as a period has one day,
    and whole-day dates of the last [2 * period_days] days are all in
    one of the two. *)
Theorem periods_are_adjacent_windows (df : DataFrame) (end_date : Q)
  (period_days : Z) (current previous : DataFrame) :
  split_periods df end_date period_days = Ok (current, previous) ->
  let current_start := end_date - inject_Z (period_days - 1) in
  let prev_end := current_start - 1 in
  let prev_start := prev_end - inject_Z (period_days - 1) in
  exists dates current_dates previous_dates,
    get_col "date" df = Some dates
    /\ get_col "date" current = Some current_dates
    /\ get_col "date" previous = Some previous_dates
    /\ columns current = columns df
    /\ columns previous = columns df
    /\ (forall d, In (Num d) current_dates
                  <-> In (Num d) dates /\ current_start <= d <= end_date)
    /\ (forall d, In (Num d) previous_dates
                  <-> In (Num d) dates /\ prev_start <= d <= prev_end)
    /\ (forall c, In c current_dates \/ In c previous_dates ->
                  exists d, c = Num d)
    /\ (forall d d', In (Num d) current_dates ->
                     In (Num d') previous_dates -> d' < d)
    /\ ((1 <= period_days)%Z -> In (Num end_date) dates ->
        In (Num end_date) current_dates)
    /\ (forall e z, end_date = inject_Z e ->
          (e - 2 * period_days + 1 <= z <= e)%Z ->
          In (Num (inject_Z z)) dates ->
          In (Num (inject_Z z)) current_dates
          \/ In (Num (inject_Z z)) previous_dates).
Proof.
  unfold split_periods. intros H. cbv zeta.
  destruct (get_col "date" df) as [dates|] eqn:Hd; [|discriminate].
  destruct (is_numeric_dtype dates); [|discriminate].
  inversion H; subst current previous. clear H.
  set (cs := end_date - inject_Z (period_days - 1)).
  set (pe := cs - 1).
  set (ps := pe - inject_Z (period_days - 1)).
  exists dates, (filter (in_range cs end_date) dates),
         (filter (in_range ps pe) dates).
  split; [reflexivity|].
  split.
  { unfold select_rows. rewrite get_col_map_values, Hd. simpl.
    now rewrite select_map_filter. }
  split.
  { unfold select_rows. rewrite get_col_map_values, Hd. simpl.
    now rewrite select_map_filter. }
  split; [apply columns_select_rows|].
  split; [apply columns_select_rows|].
  split; [intros d; apply in_range_In|].
  split; [intros d; apply in_range_In|].
  split.
  { intros c [Hc|Hc]; eapply in_range_Num; eauto. }
  split.
  { intros d d' Hc Hp.
    apply in_range_In in Hc as [_ [Hc _]].
    apply in_range_In in Hp as [_ [_ Hp]].
    unfold pe in Hp. lra. }
  split.
  { intros Hp Hin. apply in_range_In. split; [exact Hin|].
    assert (Hq : 0 <= inject_Z (period_days - 1)).
    { change 0 with (inject_Z 0). rewrite <- Zle_Qle. lia. }
    unfold cs. split; lra. }
  intros e z -> [Hlo Hhi] Hin.
  assert (Hcs : cs == inject_Z (e - period_days + 1)).
  { unfold cs. rewrite !inject_Z_plus, !inject_Z_sub.
    change (inject_Z 1) with 1. ring. }
  assert (Hpe : pe == inject_Z (e - period_days)).
  { unfold pe. rewrite Hcs, !inject_Z_plus, !inject_Z_sub.
    change (inject_Z 1) with 1. ring. }
  assert (Hps : ps == inject_Z (e - 2 * period_days + 1)).
  { unfold ps. rewrite Hpe, !inject_Z_plus, !inject_Z_sub, inject_Z_mult.
    change (inject_Z 1) with 1. change (inject_Z 2) with 2. ring. }
  destruct (Z_le_gt_dec (e - period_days + 1) z) as [Hz|Hz].
  - left. apply in_range_In. split; [exact Hin|].
    rewrite Hcs, <- !Zle_Qle. lia.
  - right. apply in_range_In. split; [exact Hin|].
    rewrite Hps, Hpe, <- !Zle_Qle. lia.
Qed.

Lemma periods_are_adjacent_windows_witness :
  exists current previous,
    split_periods LoaderRuns.daily 6 2 = Ok (current, previous)
    /\ get_col "date" current = Some [Num 6; Num 5]
    /\ get_col "date" previous = Some [Num 3; Num 4]
    /\ exists dates current_dates previous_dates,
         get_col "date" LoaderRuns.daily = Some dates
         /\ get_col "date" current = Some current_dates
         /\ get_col "date" previous = Some previous_dates
         /\ columns current = columns LoaderRuns.daily
         /\ columns previous = columns LoaderRuns.daily
         /\ (forall d, In (Num d) current_dates
                       <-> In (Num d) dates
                           /\ 6 - inject_Z (2 - 1) <= d <= 6)
         /\ (forall d, In (Num d) previous_dates
                       <-> In (Num d) dates
                           /\ 6 - inject_Z (2 - 1) - 1 - inject_Z (2 - 1)
                              <= d <= 6 - inject_Z (2 - 1) - 1)
         /\ (forall c, In c current_dates \/ In c previous_dates ->
                       exists d, c = Num d)
         /\ (forall d d', In (Num d) current_dates ->
                          In (Num d') previous_dates -> d' < d)
         /\ ((1 <= 2)%Z -> In (Num 6) dates -> In (Num 6) current_dates)
         /\ (forall e z, 6 = inject_Z e ->
               (e - 2 * 2 + 1 <= z <= e)%Z ->
               In (Num (inject_Z z)) dates ->
               In (Num (inject_Z z)) current_dates
               \/ In (Num (inject_Z z)) previous_dates).
Proof.
  do 2 eexists.
  assert (Hrun : split_periods LoaderRuns.daily 6 2 = Ok (_, _))
    by (vm_compute; reflexivity).
  split; [exact Hrun|].
  split; [vm_compute; reflexivity|].
  split; [vm_compute; reflexivity|].
  exact (periods_are_adjacent_windows _ _ _ _ _ Hrun).
Defined.
End Periods.

(** ** Preparing the table *)

Section Prepared.
Import Loader.

Lemma ascii_compare_refl (a : ascii) : Ascii.compare a a = Eq.
Proof.
  unfold Ascii.compare. apply N.compare_refl.
Qed.

Lemma ascii_compare_lt_trans (a b c : ascii) :
  Ascii.compare a b = Lt -> Ascii.compare b c = Lt ->
  Ascii.compare a c = Lt.
Proof.
  unfold Ascii.compare. rewrite !N.compare_lt_iff. apply N.lt_trans.
Qed.

Lemma string_compare_lt_trans (a b c : string) :
  String.compare a b = Lt -> String.compare b c = Lt ->
  String.compare a c = Lt.
Proof.
  revert b c. induction a as [|x a IH]; intros [|y b] [|z c]; simpl;
    try discriminate; auto.
  destruct (Ascii.compare x y) eqn:E1; try discriminate;
    destruct (Ascii.compare y z) eqn:E2; try discriminate.
  - apply Ascii.compare_eq_iff in E1, E2. subst.
    rewrite ascii_compare_refl. apply IH.
  - apply Ascii.compare_eq_iff in E1. subst. now rewrite E2.
  - apply Ascii.compare_eq_iff in E2. subst. now rewrite E1.
  - now rewrite (ascii_compare_lt_trans _ _ _ E1 E2).
Qed.

Lemma string_leb_trans (a b c : string) :
  String.leb a b = true -> String.leb b c = true -> String.leb a c = true.
Proof.
  unfold String.leb.
  destruct (String.compare a b) eqn:E1; try discriminate;
    destruct (String.compare b c) eqn:E2; try discriminate; intros _ _.
  - apply String.compare_eq_iff in E1. subst. now rewrite E2.
  - apply String.compare_eq_iff in E1. subst. now rewrite E2.
  - apply String.compare_eq_iff in E2. subst. now rewrite E1.
  - now rewrite (string_compare_lt_trans _ _ _ E1 E2).
Qed.

Lemma cell_leb_total (a b : cell) :
  cell_leb a b = false -> cell_leb b a = true.
Proof.
  destruct a as [x|s|], b as [y|t|]; simpl; try discriminate; auto.
  - apply Qle_bool_total.
  - destruct (String.leb_total s t); congruence.
Qed.

Lemma cell_leb_trans (a b c : cell) :
  cell_leb a b = true -> cell_leb b c = true -> cell_leb a c = true.
Proof.
  destruct a as [x|s|], b as [y|t|], c as [z|u|]; simpl;
    try discriminate; auto.
  - apply Qle_bool_trans.
  - apply string_leb_trans.
Qed.

Lemma combine_seq_nth (keys : list cell) (s : nat) (k : cell) (i : nat) :
  In (k, i) (combine keys (seq s (length keys))) ->
  nth (i - s) keys NaN = k.
Proof.
  revert s. induction keys as [|x keys IH]; intros s; simpl; [intros []|].
  intros [H|H].
  - inversion H; subst. now rewrite Nat.sub_diag.
  - pose proof (in_combine_r _ _ _ _ H) as Hi. apply in_seq in Hi.
    apply IH in H. destruct (i - s)%nat as [|j] eqn:E; [lia|].
    replace j with (i - S s)%nat by lia. exact H.
Qed.

Lemma StronglySorted_map {A B} (f : A -> B) (R : B -> B -> Prop)
  (l : list A) :
  StronglySorted (fun a b => R (f a) (f b)) l ->
  StronglySorted R (map f l).
Proof.
  induction 1 as [|x l Hs IH Hx]; simpl; constructor; [exact IH|].
  rewrite Forall_forall in *. intros y Hy.
  apply in_map_iff in Hy as (z & <- & Hz). now apply Hx.
Qed.

(** The key column of a sorted table is in order. *)
Lemma sorted_keys_in_order (keys : list cell) :
  StronglySorted (fun a b => cell_leb a b = true)
    (map (fun i => nth i keys NaN) (Trend.argsort keys)).
Proof.
  unfold Trend.argsort. rewrite map_map.
  set (leb := fun a b : cell * nat => cell_leb (fst a) (fst b)).
  rewrite (map_ext_in _ fst).
  - apply StronglySorted_map.
    apply (sort_by_sorted leb
             (fun a b H => cell_leb_total _ _ H)
             (fun a b c H1 H2 => cell_leb_trans _ _ _ H1 H2)).
  - intros [k i] Hin. apply sort_by_In in Hin. simpl.
    apply combine_seq_nth in Hin. now rewrite Nat.sub_0_r in Hin.
Qed.

Lemma argsort_length (keys : list cell) :
  length (Trend.argsort keys) = length keys.
Proof.
  unfold Trend.argsort.
  rewrite length_map, sort_by_length, length_combine, length_seq.
  apply Nat.min_id.
Qed.

Lemma sort_values_columns (df out : DataFrame) (by_col : string) :
  Trend.sort_values df by_col = Ok out -> columns out = columns df.
Proof.
  unfold Trend.sort_values.
  destruct (get_col by_col df); [|discriminate].
  intros H. inversion H. unfold columns. now rewrite map_map.
Qed.

Lemma rectangular_Forall (df : DataFrame) :
  rectangular df = true
  <-> Forall (fun nc : string * list cell => length (snd nc) = len df) df.
Proof.
  unfold rectangular. rewrite forallb_forall, Forall_forall.
  split; intros H x Hx; specialize (H x Hx); now apply Nat.eqb_eq.
Qed.

Lemma select_length {A B} (mask : list bool) (l : list A) (l' : list B) :
  length l = length l' ->
  length (select mask l) = length (select mask l').
Proof.
  revert l l'. induction mask as [|b mask IH]; intros [|x l] [|y l'];
    simpl; try discriminate; auto.
  intros H. injection H as H. destruct b; simpl; auto.
Qed.

Lemma select_In {A} (mask : list bool) (l : list A) (x : A) :
  In x (select mask l) -> In x l.
Proof.
  revert l. induction mask as [|b mask IH]; intros [|y l]; simpl;
    try tauto.
  destruct b; simpl; [intros [H|H]; auto|auto].
Qed.

Lemma select_length_le {A} (mask : list bool) (l : list A) :
  (length (select mask l) <= length l)%nat.
Proof.
  revert l. induction mask as [|b mask IH]; intros [|y l]; simpl;
    try lia.
  specialize (IH l). destruct b; simpl; lia.
Qed.

Lemma select_rows_rectangular (mask : list bool) (df : DataFrame) :
  rectangular df = true -> rectangular (select_rows mask df) = true.
Proof.
  rewrite !rectangular_Forall. intros H.
  destruct df as [|[n c] df]; [constructor|].
  unfold select_rows. simpl map. cbn [len].
  apply Forall_forall. intros nc Hin.
  change ((n, select mask c) :: map _ df)
    with (map (fun nc : string * list cell =>
                 (fst nc, select mask (snd nc))) ((n, c) :: df)) in Hin.
  apply in_map_iff in Hin as (nc' & <- & Hin). simpl.
  rewrite Forall_forall in H. specialize (H nc' Hin). cbn [len] in H.
  now apply select_length.
Qed.

Lemma rename_rectangular (old new : string) (df : DataFrame) :
  rectangular df = true -> rectangular (rename old new df) = true.
Proof.
  rewrite !rectangular_Forall. intros H.
  destruct df as [|[n c] df]; [constructor|].
  unfold rename. simpl map. cbn [len fst snd].
  apply Forall_forall. intros nc Hin.
  change ((if String.eqb n old then new else n, c) :: map _ df)
    with (map (fun nc : string * list cell =>
                 (if String.eqb (fst nc) old then new else fst nc, snd nc))
              ((n, c) :: df)) in Hin.
  apply in_map_iff in Hin as (nc' & <- & Hin). simpl.
  rewrite Forall_forall in H. exact (H nc' Hin).
Qed.

Lemma rename_len (old new : string) (df : DataFrame) :
  len (rename old new df) = len df.
Proof.
  destruct df as [|[n c] df]; reflexivity.
Qed.

Lemma set_col_Forall (P : string * list cell -> Prop) (name : string)
  (vals : list cell) (df : DataFrame) :
  Forall P df -> (forall n, P (n, vals)) -> Forall P (set_col name vals df).
Proof.
  intros H Hv. induction H as [|[n c] df Hx H IH]; simpl.
  - constructor; [apply Hv|constructor].
  - destruct (String.eqb n name); constructor; auto.
Qed.

Lemma set_col_rectangular (name : string) (old vals : list cell)
  (df : DataFrame) :
  rectangular df = true -> get_col name df = Some old ->
  length vals = length old ->
  rectangular (set_col name vals df) = true
  /\ len (set_col name vals df) = len df.
Proof.
  intros Hrect Hget Hlen.
  pose proof (rectangular_length _ _ _ Hrect Hget) as Hold.
  assert (Hl : len (set_col name vals df) = len df).
  { destruct df as [|[n c] df]; [discriminate|]. simpl in *.
    destruct (String.eqb n name); simpl; [|reflexivity].
    inversion Hget; subst. exact Hlen. }
  split; [|exact Hl].
  apply rectangular_Forall. rewrite Hl.
  apply set_col_Forall.
  - now apply rectangular_Forall.
  - intros n. simpl. congruence.
Qed.

Lemma columns_set_col (name : string) (vals : list cell) (df : DataFrame)
  (n : string) :
  In n (columns df) -> In n (columns (set_col name vals df)).
Proof.
  induction df as [|[m c] df IH]; simpl; [intros []|].
  destruct (String.eqb m name); simpl; intuition.
Qed.

Lemma sorted_cells (col : list cell) (order : list nat) (c : cell) :
  (forall i, In i order -> (i < length col)%nat) ->
  In c (map (fun i => nth i col NaN) order) -> In c col.
Proof.
  intros Hb Hin. apply in_map_iff in Hin as (i & <- & Hi).
  apply nth_In. now apply Hb.
Qed.

(** A table that [prepare_dataframe] returns has rows, no more of them
    than the table it was given, a [metric_value] column, and a [date]
    column in ascending order (missing dates last); for a table in long
    format the rows it keeps are rows of the metric asked for. *)
Theorem prepared_table_is_ready
  (to_datetime : list cell -> result (list cell))
  (df : DataFrame) (metric_name : string) (out : DataFrame) :
  (forall l l', to_datetime l = Ok l' -> length l' = length l) ->
  rectangular df = true ->
  prepare_dataframe to_datetime df metric_name = Ok out ->
  empty out = false
  /\ (len out <= len df)%nat
  /\ rectangular out = true
  /\ In "metric_value"%string (columns out)
  /\ (exists dates,
        get_col "date" out = Some dates
        /\ StronglySorted (fun a b => cell_leb a b = true) dates)
  /\ (In "metric_name"%string (columns df) ->
      In "metric_value"%string (columns df) ->
      exists names,
        get_col "metric_name" out = Some names
        /\ Forall (fun c => c = Str metric_name) names).
Proof.
  intros Hdt Hrect. unfold prepare_dataframe.
  destruct (get_col "date" df) as [dates|] eqn:Hd; [|discriminate].
  destruct (to_datetime dates) as [parsed|] eqn:Hp; [|discriminate].
  simpl bind.
  destruct (set_col_rectangular "date" dates parsed df Hrect Hd
              (Hdt _ _ Hp)) as [Hrect1 Hlen1].
  set (df1 := set_col "date" parsed df) in *.
  assert (Hcols : forall n, In n (columns df) -> In n (columns df1))
    by (intros n; apply columns_set_col).
  assert (Hshape :
    forall selected,
      rectangular selected = true ->
      (len selected <= len df)%nat ->
      In "metric_value"%string (columns selected) ->
      (if empty selected
       then Raise (ValueError (no_data_for metric_name))
       else Trend.sort_values selected "date") = Ok out ->
      empty out = false
      /\ (len out <= len df)%nat
      /\ rectangular out = true
      /\ In "metric_value"%string (columns out)
      /\ (exists keys,
            get_col "date" selected = Some keys
            /\ out = map (fun nc : string * list cell =>
                            (fst nc,
                             map (fun i => nth i (snd nc) NaN)
                                 (Trend.argsort keys))) selected)).
  { intros selected Hr Hle Hmv Hout.
    destruct (empty selected) eqn:He; [discriminate|].
    pose proof (sort_values_columns _ _ _ Hout) as Hc.
    unfold Trend.sort_values in Hout.
    destruct (get_col "date" selected) as [keys|] eqn:Hk; [|discriminate].
    injection Hout as Hout'.
    pose proof (rectangular_length _ _ _ Hr Hk) as Hkl.
    assert (Hlen : len out = len selected).
    { rewrite <- Hout'. destruct selected as [|[n c] sel]; [reflexivity|].
      simpl. rewrite length_map, argsort_length. exact Hkl. }
    split.
    { unfold empty in *. now rewrite Hlen. }
    split; [lia|]. split.
    { apply rectangular_Forall. rewrite Hlen, <- Hout'.
      apply Forall_forall. intros nc Hin.
      apply in_map_iff in Hin as (nc' & <- & Hin). simpl.
      now rewrite length_map, argsort_length. }
    split; [now rewrite Hc|].
    exists keys. split; [reflexivity|]. now rewrite Hout'. }
  assert (Hdates :
    forall selected keys,
      get_col "date" selected = Some keys ->
      out = map (fun nc : string * list cell =>
                   (fst nc,
                    map (fun i => nth i (snd nc) NaN) (Trend.argsort keys)))
                selected ->
      exists dates',
        get_col "date" out = Some dates'
        /\ StronglySorted (fun a b => cell_leb a b = true) dates').
  { intros selected keys Hk ->.
    rewrite (get_col_map_values
               (fun col => map (fun i => nth i col NaN)
                               (Trend.argsort keys))), Hk.
    simpl. eexists. split; [reflexivity|]. apply sorted_keys_in_order. }
  destruct (mem_string "metric_name" (columns df1)
            && mem_string "metric_value" (columns df1)) eqn:Hlong.
  - apply andb_prop in Hlong as [Hmn Hmv].
    apply mem_string_In in Hmn, Hmv.
    destruct (get_col "metric_name" df1) as [names|] eqn:Hn;
      [|discriminate].
    simpl bind. intros Hout.
    set (mask := map (cell_eqb (Str metric_name)) names) in *.
    destruct (Hshape (select_rows mask df1)) as
      (H1 & H2 & H3 & H4 & keys & Hk & Hout').
    { now apply select_rows_rectangular. }
    { rewrite <- Hlen1. unfold select_rows.
      destruct df1 as [|[n c] r]; [apply Nat.le_refl|].
      simpl. apply select_length_le. }
    { now rewrite columns_select_rows. }
    { exact Hout. }
    repeat (split; [assumption|]).
    split; [eapply Hdates; eauto|].
    intros _ _.
    rewrite Hout'.
    rewrite (get_col_map_values
               (fun col => map (fun i => nth i col NaN)
                               (Trend.argsort keys))).
    unfold select_rows. rewrite get_col_map_values, Hn. simpl.
    eexists. split; [reflexivity|].
    apply Forall_forall. intros c Hc.
    apply sorted_cells in Hc.
    + unfold mask in Hc. rewrite select_map_filter in Hc.
      apply filter_In in Hc as [_ Hc].
      destruct c; simpl in Hc; try discriminate.
      apply String.eqb_eq in Hc. now subst.
    + intros i Hi. apply argsort_bound in Hi.
      assert (Hr2 : rectangular (select_rows mask df1) = true)
        by now apply select_rows_rectangular.
      rewrite (rectangular_length _ _ _ Hr2 Hk) in Hi.
      assert (Hg : get_col "metric_name" (select_rows mask df1)
                   = Some (select mask names)).
      { unfold select_rows. now rewrite get_col_map_values, Hn. }
      now rewrite (rectangular_length _ _ _ Hr2 Hg).
  - destruct (negb (mem_string metric_name (columns df1))) eqn:Hm;
      [discriminate|].
    apply negb_false_iff, mem_string_In in Hm.
    simpl bind. intros Hout.
    destruct (Hshape (rename metric_name "metric_value" df1)) as
      (H1 & H2 & H3 & H4 & keys & Hk & Hout').
    { now apply rename_rectangular. }
    { rewrite rename_len. lia. }
    { unfold columns, rename. rewrite map_map. simpl.
      apply in_map_iff. unfold columns in Hm.
      apply in_map_iff in Hm as (nc & E & Hin).
      exists nc. split; [|exact Hin].
      rewrite E, String.eqb_refl. reflexivity. }
    { exact Hout. }
    repeat (split; [assumption|]).
    split; [eapply Hdates; eauto|].
    intros Hmn Hmv. apply Hcols in Hmn, Hmv.
    apply mem_string_In in Hmn, Hmv. rewrite Hmn, Hmv in Hlong.
    discriminate.
Qed.

Lemma prepared_table_is_ready_witness :
  exists out,
    prepare_dataframe LoaderRuns.parsed LoaderRuns.long "revenue" = Ok out
    /\ out = [("date"%string, [Num 1; Num 2]);
              ("metric_name"%string, [Str "revenue"; Str "revenue"]);
              ("metric_value"%string, [Num 10; Num 20])]
    /\ empty out = false
    /\ (len out <= len LoaderRuns.long)%nat
    /\ rectangular out = true
    /\ In "metric_value"%string (columns out)
    /\ (exists dates,
          get_col "date" out = Some dates
          /\ StronglySorted (fun a b => cell_leb a b = true) dates)
    /\ (In "metric_name"%string (columns LoaderRuns.long) ->
        In "metric_value"%string (columns LoaderRuns.long) ->
        exists names,
          get_col "metric_name" out = Some names
          /\ Forall (fun c => c = Str "revenue") names).
Proof.
  eexists.
  assert (Hrun : prepare_dataframe LoaderRuns.parsed LoaderRuns.long
                   "revenue" = Ok _) by (vm_compute; reflexivity).
  split; [exact Hrun|]. split; [reflexivity|].
  refine (prepared_table_is_ready LoaderRuns.parsed LoaderRuns.long
            "revenue" _ _ _ Hrun).
  - intros l l' H. inversion H. reflexivity.
  - reflexivity.
Defined.
End Prepared.

(** ** Validating the schema *)

Section Schema.
Import Validation.

Lemma nodup_string_In (s : string) (l : list string) :
  In s (Drivers.nodup_string l) <-> In s l.
Proof.
  induction l as [|x l IH]; simpl; [tauto|].
  destruct (mem_string x l) eqn:E; simpl; rewrite IH; [|tauto].
  apply mem_string_In in E. split; [tauto|].
  intros [<-|H]; assumption.
Qed.

Lemma mem_string_false (s : string) (l : list string) :
  mem_string s l = false <-> ~ In s l.
Proof.
  rewrite <- mem_string_In. destruct (mem_string s l); split; congruence.
Qed.

(** [validate_schema] accepts a table exactly when it has a [date]
    column and some column that is neither [date] nor one of the three
    optional dimensions; the test for the long format never decides,
    since its two columns are such columns.  A table without [date] gets
    the first message, every other rejected table the second. *)
Theorem validate_schema_accepts_a_date_and_a_metric (df : DataFrame) :
  let metric_column c :=
    In c (columns df) /\ c <> "date"%string
    /\ ~ In c OPTIONAL_DIMENSIONS in
  (validate_schema df = Ok tt
   <-> In "date"%string (columns df) /\ exists c, metric_column c)
  /\ (validate_schema df = Raise (ValueError no_date_column)
      <-> ~ In "date"%string (columns df))
  /\ (validate_schema df = Raise (ValueError neither_long_nor_wide)
      <-> In "date"%string (columns df) /\ ~ exists c, metric_column c).
Proof.
  cbv zeta. unfold validate_schema.
  set (cols := Drivers.nodup_string (columns df)).
  set (wide := filter (fun c => negb (String.eqb c "date")
                                && negb (mem_string c OPTIONAL_DIMENSIONS))
                 cols).
  assert (Hwide : forall c,
            In c wide
            <-> In c (columns df) /\ c <> "date"%string
                /\ ~ In c OPTIONAL_DIMENSIONS).
  { intros c. unfold wide, cols.
    rewrite filter_In, nodup_string_In, andb_true_iff, !negb_true_iff,
      mem_string_false.
    split; intros (H1 & H2 & H3); repeat split; auto.
    - intros ->. now rewrite String.eqb_refl in H2.
    - now apply String.eqb_neq. }
  assert (Hlong : mem_string "metric_name" cols
                  && mem_string "metric_value" cols = true ->
                  wide <> []).
  { intros H. apply andb_prop in H as [H _].
    apply mem_string_In in H. unfold cols in H.
    rewrite nodup_string_In in H.
    assert (Hin : In "metric_name"%string wide).
    { apply Hwide. split; [exact H|]. split; [discriminate|].
      simpl. intros [E|[E|[E|[]]]]; discriminate. }
    intros E. now rewrite E in Hin. }
  assert (Hex : (exists c, In c (columns df) /\ c <> "date"%string
                           /\ ~ In c OPTIONAL_DIMENSIONS)
                <-> wide <> []).
  { split.
    - intros (c & Hc). apply Hwide in Hc. intros E. now rewrite E in Hc.
    - destruct wide as [|c w] eqn:E; [congruence|]. intros _.
      exists c. apply Hwide. now left. }
  assert (Hdate : mem_string "date" cols = true
                  <-> In "date"%string (columns df)).
  { unfold cols. now rewrite mem_string_In, nodup_string_In. }
  assert (Hmsg : no_date_column <> neither_long_nor_wide)
    by (vm_compute; discriminate).
  destruct (mem_string "date" cols) eqn:Ed; simpl negb; cbv iota.
  - assert (Hd : In "date"%string (columns df)) by now apply Hdate.
    destruct (mem_string "metric_name" cols
              && mem_string "metric_value" cols) eqn:El.
    + specialize (Hlong eq_refl). simpl.
      split; [|split].
      * split; [|reflexivity]. intros _. split; [exact Hd|].
        now apply Hex.
      * split; [discriminate|]. intros H. contradiction.
      * split; [discriminate|]. intros [_ H]. apply Hex in Hlong.
        contradiction.
    + simpl orb. destruct wide as [|c w] eqn:Ew; simpl.
      * split; [|split].
        -- split; [discriminate|]. intros [_ H]. apply Hex in H.
           congruence.
        -- split; [|intros H; contradiction].
           intros H; inversion H; try congruence.
        -- split; [|reflexivity]. intros _. split; [exact Hd|].
           intros H. apply Hex in H. congruence.
      * assert (Hne : c :: w <> []) by discriminate.
        apply Hex in Hne.
        split; [|split].
        -- split; [|reflexivity]. intros _. now split.
        -- split; [discriminate|]. intros H. contradiction.
        -- split; [discriminate|]. intros [_ H]. contradiction.
  - assert (Hd : ~ In "date"%string (columns df)).
    { intros H. apply Hdate in H. discriminate. }
    split; [|split].
    + split; [discriminate|]. intros [H _]. contradiction.
    + split; [|reflexivity]. intros _. exact Hd.
    + split; [|intros [H _]; contradiction].
      intros H; inversion H; try congruence.
Qed.
End Schema.

(** ** The data quality *)

Section Quality.
Import DataQuality.

Lemma whole_days_In (dates : list cell) (c : cell) :
  whole_days dates = true -> In c dates ->
  c = NaN \/ exists d, c = Num d /\ d == inject_Z (Qfloor d).
Proof.
  unfold whole_days. rewrite forallb_forall. intros H Hc.
  specialize (H c Hc). destruct c as [d|s|]; [|discriminate|now left].
  right. exists d. split; [reflexivity|]. now apply Qeq_bool_iff.
Qed.

Lemma whole_days_cons (c : cell) (l : list cell) :
  whole_days (c :: l) = true ->
  whole_days [c] = true /\ whole_days l = true.
Proof.
  unfold whole_days. simpl. rewrite !andb_true_iff. tauto.
Qed.

Lemma whole_days_numeric (dates : list cell) :
  whole_days dates = true -> is_numeric_dtype dates = true.
Proof.
  unfold whole_days, is_numeric_dtype. rewrite !forallb_forall.
  intros H c Hc. specialize (H c Hc). now destruct c.
Qed.

Lemma same_day (d d' : Q) :
  d == inject_Z (Qfloor d) -> d' == inject_Z (Qfloor d') ->
  Qfloor d = Qfloor d' -> Qeq_bool d d' = true.
Proof.
  intros Hd Hd' E. apply Qeq_bool_iff. rewrite Hd, Hd', E. reflexivity.
Qed.

Lemma numeric_values_In (x : Q) (l : list cell) :
  In x (numeric_values l) -> In (Num x) l.
Proof.
  unfold numeric_values. rewrite in_flat_map.
  intros (c & Hc & Hx). destruct c; simpl in Hx; try tauto.
  destruct Hx as [<-|[]]. exact Hc.
Qed.

Lemma Qmax_list_spec (l : list Q) (x : Q) :
  In (Qmax_list x l) (x :: l)
  /\ forall y, In y (x :: l) -> y <= Qmax_list x l.
Proof.
  unfold Qmax_list. revert x. induction l as [|b l IH]; intros x.
  - simpl. split; [now left|]. intros y [<-|[]]. apply Qle_refl.
  - cbn [fold_left].
    destruct (IH (if Qle_bool x b then b else x)) as [H1 H2].
    split.
    + destruct H1 as [H1|H1]; [|right; now right].
      rewrite <- H1. destruct (Qle_bool x b); [right|]; now left.
    + intros y Hy.
      assert (Hx : x <= (if Qle_bool x b then b else x)
                   /\ b <= (if Qle_bool x b then b else x)).
      { destruct (Qle_bool x b) eqn:E.
        - apply Qle_bool_iff in E. split; [exact E|apply Qle_refl].
        - apply Qle_bool_total, Qle_bool_iff in E.
          split; [apply Qle_refl|exact E]. }
      destruct Hx as [Hx Hb].
      assert (Hm : (if Qle_bool x b then b else x)
                   <= fold_left (fun a c => if Qle_bool a c then c else a) l
                        (if Qle_bool x b then b else x))
        by (apply H2; now left).
      destruct Hy as [<-|[<-|Hy]].
      * eapply Qle_trans; eauto.
      * eapply Qle_trans; eauto.
      * apply H2. now right.
Qed.

Lemma Qmin_list_spec (l : list Q) (x : Q) :
  In (Qmin_list x l) (x :: l)
  /\ forall y, In y (x :: l) -> Qmin_list x l <= y.
Proof.
  unfold Qmin_list. revert x. induction l as [|b l IH]; intros x.
  - simpl. split; [now left|]. intros y [<-|[]]. apply Qle_refl.
  - cbn [fold_left].
    destruct (IH (if Qle_bool b x then b else x)) as [H1 H2].
    split.
    + destruct H1 as [H1|H1]; [|right; now right].
      rewrite <- H1. destruct (Qle_bool b x); [right|]; now left.
    + intros y Hy.
      assert (Hx : (if Qle_bool b x then b else x) <= x
                   /\ (if Qle_bool b x then b else x) <= b).
      { destruct (Qle_bool b x) eqn:E.
        - apply Qle_bool_iff in E. split; [exact E|apply Qle_refl].
        - apply Qle_bool_total, Qle_bool_iff in E.
          split; [apply Qle_refl|exact E]. }
      destruct Hx as [Hx Hb].
      assert (Hm : fold_left (fun a c => if Qle_bool c a then c else a) l
                     (if Qle_bool b x then b else x)
                   <= (if Qle_bool b x then b else x))
        by (apply H2; now left).
      destruct Hy as [<-|[<-|Hy]].
      * eapply Qle_trans; eauto.
      * eapply Qle_trans; eauto.
      * apply H2. now right.
Qed.

(** The distinct whole days of a column have distinct day numbers. *)
Lemma distinct_days (l seen : list cell) :
  whole_days l = true -> whole_days seen = true ->
  (forall c, In c seen -> c <> NaN) ->
  NoDup (map day_of (distinct l seen))
  /\ forall c, In c (distinct l seen) ->
       In c l /\ ~ In (day_of c) (map day_of seen).
Proof.
  revert seen. induction l as [|x l IH]; intros seen Hl Hs Hn.
  - simpl. split; [constructor|intros c []].
  - apply whole_days_cons in Hl as [Hx Hl].
    destruct x as [q|s|]; [|discriminate|].
    + simpl. destruct (mem_cell (Num q) seen) eqn:E.
      * destruct (IH seen Hl Hs Hn) as [H1 H2].
        split; [exact H1|]. intros c Hc.
        destruct (H2 c Hc). split; [now right|assumption].
      * assert (Hq : q == inject_Z (Qfloor q)).
        { destruct (whole_days_In [Num q] (Num q) Hx) as [H|(d & H & Hd)];
            [now left|discriminate|]. now inversion H. }
        assert (Hs' : whole_days (Num q :: seen) = true).
        { unfold whole_days in *. simpl in *.
          apply andb_true_iff. split; [|exact Hs].
          now rewrite andb_true_r in Hx. }
        assert (Hn' : forall c, In c (Num q :: seen) -> c <> NaN).
        { intros c [<-|Hc]; [discriminate|now apply Hn]. }
        destruct (IH (Num q :: seen) Hl Hs' Hn') as [H1 H2].
        split.
        -- simpl. constructor; [|exact H1].
           intros Hin. apply in_map_iff in Hin as (c & Hc & Hin).
           destruct (H2 c Hin) as [_ Hnot]. apply Hnot.
           simpl. left. now rewrite Hc.
        -- intros c [<-|Hc].
           ++ split; [now left|]. simpl. intros Hin.
              apply in_map_iff in Hin as (k & Hk & Hin).
              destruct (whole_days_In seen k Hs Hin) as [->|(d & -> & Hd)].
              ** now apply (Hn NaN Hin).
              ** simpl in Hk.
                 assert (Hm : mem_cell (Num q) seen = true).
                 { apply mem_cell_true. exists (Num d).
                   split; [exact Hin|]. simpl.
                   apply same_day; auto. }
                 congruence.
           ++ destruct (H2 c Hc) as [Hcl Hnot].
              split; [now right|]. intros Hin. apply Hnot.
              simpl. now right.
    + simpl. destruct (IH seen Hl Hs Hn) as [H1 H2].
      split; [exact H1|]. intros c Hc.
      destruct (H2 c Hc). split; [now right|assumption].
Qed.

Lemma Some_eq {A} (x y : A) : Some x = Some y -> x = y.
Proof. congruence. Qed.

Lemma NoDup_Z_range (zs : list Z) (lo hi : Z) :
  NoDup zs -> (forall z, In z zs -> (lo <= z <= hi)%Z) ->
  (Z.of_nat (length zs) <= Z.max 0 (hi - lo + 1))%Z.
Proof.
  intros Hnd Hb.
  set (range := map (fun i => (lo + Z.of_nat i)%Z)
                    (seq 0 (Z.to_nat (hi - lo + 1)))).
  assert (Hincl : incl zs range).
  { intros z Hz. specialize (Hb z Hz). unfold range.
    apply in_map_iff. exists (Z.to_nat (z - lo)).
    split; [lia|]. apply in_seq. lia. }
  pose proof (NoDup_incl_length Hnd Hincl) as Hlen.
  unfold range in Hlen. rewrite length_map, length_seq in Hlen. lia.
Qed.

(** On a table dated in whole days [assess_data_quality] returns, and
    its completeness score, the share of the days between the first and
    the last date that carry a row, lies between 0 and 1; it is missing
    only for a table without any date. *)
Theorem completeness_is_a_share_of_the_days
  (full_df current previous : DataFrame) (dates : list cell) :
  get_col "date" full_df = Some dates ->
  whole_days dates = true ->
  exists q,
    assess_data_quality full_df current previous = Ok q
    /\ (completeness_score_avg q = None <-> numeric_values dates = [])
    /\ forall s, completeness_score_avg q = Some s -> 0 <= s /\ s <= 1.
Proof.
  intros Hget Hwhole. unfold assess_data_quality. rewrite Hget.
  rewrite (whole_days_numeric _ Hwhole). cbn [negb].
  eexists. split; [reflexivity|].
  cbn [completeness_score_avg].
  destruct (numeric_values dates) as [|d ds] eqn:Hnum.
  - split; [tauto|discriminate].
  - split; [split; discriminate|].
    intros s Hs. apply Some_eq in Hs. subst s.
    destruct (Qmax_list_spec ds d) as [HMin HM].
    destruct (Qmin_list_spec ds d) as [Hmin Hm].
    set (M := Qmax_list d ds) in *. set (m := Qmin_list d ds) in *.
    assert (Hwhole_num : forall x, In x (d :: ds) ->
                           x == inject_Z (Qfloor x)).
    { intros x Hx. rewrite <- Hnum in Hx. apply numeric_values_In in Hx.
      destruct (whole_days_In _ _ Hwhole Hx) as [H|(y & H & Hy)];
        [discriminate|]. now inversion H. }
    pose proof (Hwhole_num M HMin) as HMw.
    pose proof (Hwhole_num m Hmin) as Hmw.
    assert (Hspan : Qfloor (M - m) = (Qfloor M - Qfloor m)%Z).
    { rewrite <- (Qfloor_Z (Qfloor M - Qfloor m)).
      apply Qfloor_comp. rewrite inject_Z_sub, <- HMw, <- Hmw.
      reflexivity. }
    assert (HmM : (Qfloor m <= Qfloor M)%Z).
    { apply Qfloor_resp_le. now apply HM. }
    destruct (distinct_days dates [] Hwhole eq_refl (fun c H => match H with end))
      as [Hnd Hin].
    assert (Hcount : (Z.of_nat (nunique dates)
                      <= Z.max 0 (Qfloor M - Qfloor m + 1))%Z).
    { unfold nunique. rewrite <- (length_map day_of).
      apply NoDup_Z_range; [exact Hnd|].
      intros z Hz. apply in_map_iff in Hz as (c & <- & Hc).
      destruct (Hin c Hc) as [Hcl _].
      destruct (whole_days_In _ _ Hwhole Hcl) as [->|(x & -> & Hx)].
      - exfalso. now apply (distinct_not_NaN _ _ _ Hc).
      - simpl. apply In_numeric_values in Hcl. rewrite Hnum in Hcl.
        split; apply Qfloor_resp_le; [now apply Hm|now apply HM]. }
    rewrite Hspan.
    set (E := (Qfloor M - Qfloor m + 1)%Z) in *.
    assert (HE : 0 < inject_Z E).
    { change 0 with (inject_Z 0). rewrite <- Zlt_Qlt. lia. }
    assert (Hn0 : 0 <= Qnat (nunique dates)).
    { unfold Qnat. change 0 with (inject_Z 0). rewrite <- Zle_Qle. lia. }
    assert (HnE : Qnat (nunique dates) <= inject_Z E).
    { unfold Qnat. rewrite <- Zle_Qle. lia. }
    apply round_unit_interval.
    + apply Qle_shift_div_l; [exact HE|]. lra.
    + apply Qle_shift_div_r; [exact HE|]. lra.
Qed.

Lemma completeness_is_a_share_of_the_days_witness :
  get_col "date" QualityRuns.gappy
  = Some [Num 5; Num 1; Num 2; Num 5]
  /\ whole_days [Num 5; Num 1; Num 2; Num 5] = true
  /\ exists q,
       assess_data_quality QualityRuns.gappy Samples.second_half
         Samples.first_half = Ok q
       /\ (completeness_score_avg q = None
           <-> numeric_values [Num 5; Num 1; Num 2; Num 5] = [])
       /\ forall s, completeness_score_avg q = Some s -> 0 <= s /\ s <= 1.
Proof.
  split; [reflexivity|]. split; [reflexivity|].
  apply (completeness_is_a_share_of_the_days QualityRuns.gappy
           Samples.second_half Samples.first_half
           [Num 5; Num 1; Num 2; Num 5]); reflexivity.
Defined.

Lemma as_floats_error (c : list cell) (e : exn) :
  Trend.as_floats c = Raise e ->
  e = ValueError Trend.not_a_float \/ e = TypeError.
Proof.
  induction c as [|x c IH]; simpl; [discriminate|].
  destruct x as [q|s|].
  - destruct (Trend.as_floats c); simpl; [discriminate|].
    intros H. inversion H; subst. now apply IH.
  - intros H. inversion H. now left.
  - intros H. inversion H. now right.
Qed.

Lemma metric_series_error (df : DataFrame) (e : exn) :
  Trend.metric_series df = Raise e -> e <> ValueError Trend.no_data.
Proof.
  unfold Trend.metric_series.
  destruct (get_col "metric_value" df).
  - intros H. apply as_floats_error in H as [->| ->]; [|discriminate].
    vm_compute. discriminate.
  - intros H. inversion H. discriminate.
Qed.

Lemma sort_values_error (df : DataFrame) (by_col : string) (e : exn) :
  Trend.sort_values df by_col = Raise e -> e <> ValueError Trend.no_data.
Proof.
  unfold Trend.sort_values. destruct (get_col by_col df); [discriminate|].
  intros H. inversion H. discriminate.
Qed.

(** The warning of [assess_data_quality] and the refusal of
    [detect_change_context] go together: on the same three tables the
    quality report flags an anomaly, with the single warning that a
    period has no data, exactly when the detector raises its
    [ValueError] with that message; otherwise the report has no warning
    at all. *)
Theorem quality_warning_is_the_detector_refusal (sqrtQ : Q -> Q)
  (full_df current previous : DataFrame) (q : Quality) :
  assess_data_quality full_df current previous = Ok q ->
  (anomalies_detected q = true
   <-> Trend.detect_change_context sqrtQ full_df current previous
       = Raise (ValueError Trend.no_data))
  /\ (anomalies_detected q = true -> warnings q = [Trend.no_data])
  /\ (anomalies_detected q = false -> warnings q = []).
Proof.
  unfold assess_data_quality, Trend.detect_change_context.
  destruct (get_col "date" full_df) as [dates|]; [|discriminate].
  destruct (negb (is_numeric_dtype dates)); [discriminate|].
  intros H. inversion H. clear H. cbn [anomalies_detected warnings].
  destruct (empty current || empty previous); simpl.
  - repeat split; auto; discriminate.
  - split; [|split; [discriminate|reflexivity]].
    split; [discriminate|]. intros Hr. exfalso.
    destruct (columns full_df) as [|time_col rest]; [discriminate|].
    destruct (Trend.sort_values full_df time_col) as [sf|e] eqn:E1;
      [|inversion Hr; subst; now apply sort_values_error in E1].
    destruct (Trend.sort_values current time_col) as [sc|e] eqn:E2;
      [|inversion Hr; subst; now apply sort_values_error in E2].
    destruct (Trend.sort_values previous time_col) as [sp|e] eqn:E3;
      [|inversion Hr; subst; now apply sort_values_error in E3].
    simpl in Hr.
    destruct (Trend.metric_series sf) as [qf|e] eqn:E4;
      [|inversion Hr; subst; now apply metric_series_error in E4].
    destruct (Trend.metric_series sc) as [qc|e] eqn:E5;
      [|inversion Hr; subst; now apply metric_series_error in E5].
    destruct (Trend.metric_series sp) as [qp|e] eqn:E6;
      [|inversion Hr; subst; now apply metric_series_error in E6].
    discriminate.
Qed.

Lemma quality_warning_is_the_detector_refusal_witness :
  exists q,
    assess_data_quality Samples.full_series Samples.second_half
      (Loader.select_rows [false; false] Samples.first_half) = Ok q
    /\ anomalies_detected q = true
    /\ (anomalies_detected q = true
        <-> Trend.detect_change_context (fun x => x) Samples.full_series
              Samples.second_half (Loader.select_rows [false; false] Samples.first_half)
            = Raise (ValueError Trend.no_data))
    /\ (anomalies_detected q = true -> warnings q = [Trend.no_data])
    /\ (anomalies_detected q = false -> warnings q = []).
Proof.
  eexists.
  assert (Hrun : assess_data_quality Samples.full_series
                   Samples.second_half
                   (Loader.select_rows [false; false] Samples.first_half) = Ok _)
    by (vm_compute; reflexivity).
  split; [exact Hrun|]. split; [reflexivity|].
  exact (quality_warning_is_the_detector_refusal _ _ _ _ _ Hrun).
Defined.
End Quality.

(** ** The reported figures *)

Section Reported.
Import Trend.

(** The means that the context reports are the computed ones up to half
    a unit of the fourth decimal, and so is the reported change; the
    reported change can therefore differ from the difference of the two
    reported means, by at most three such halves. *)
Theorem reported_change_is_close_to_the_reported_means (sqrtQ : Q -> Q)
  (full_series current_series previous_series : list Q) :
  let ctx :=
    change_context sqrtQ full_series current_series previous_series in
  let half_unit := (1 # 2) / inject_Z (10 ^ Z.of_nat 4) in
  Qabs (current_value ctx - mean current_series) <= half_unit
  /\ Qabs (previous_value ctx - mean previous_series) <= half_unit
  /\ Qabs (absolute_change ctx
           - (mean current_series - mean previous_series)) <= half_unit
  /\ Qabs (absolute_change ctx - (current_value ctx - previous_value ctx))
     <= 3 * half_unit.
Proof.
  unfold change_context. cbv zeta.
  cbn [current_value previous_value absolute_change].
  set (c := mean current_series). set (p := mean previous_series).
  pose proof (round_is_within_half_a_unit c 4) as Hc.
  pose proof (round_is_within_half_a_unit p 4) as Hp.
  pose proof (round_is_within_half_a_unit (c - p) 4) as Hd.
  set (u := (1 # 2) / inject_Z (10 ^ Z.of_nat 4)) in *.
  repeat (split; [assumption|]).
  set (rc := round c 4) in *. set (rp := round p 4) in *.
  set (rd := round (c - p) 4) in *.
  apply Qabs_Qle_condition in Hc, Hp, Hd.
  apply Qabs_Qle_condition. split; lra.
Qed.
End Reported.
